(** * gomorphy: a Russian morphological analyzer over pymorphy dictionaries

    A shallow embedding of [dawg.go] (the DAWG reader, the words index and
    the paradigm-based morphology engine with its phrase concordance) and
    the properties of it that the specification states.

    Conventions of the embedding:
    - a Go [uint32] / [uint16] / [byte] is a [Z] in its range, and every
      operation that can wrap (shift left, multiplication, addition) is
      followed by its explicit wrap-around;
    - a Go [string] is a [string] of bytes (UTF-8 is not interpreted by the
      type, exactly as in Go);
    - a Go slice read [s[i]] is a partial lookup: out of range it is a
      run-time panic, which the embedding makes an explicit outcome;
    - a Go loop with no structural bound runs on fuel. *)

From Stdlib Require Import ZArith Lia Ascii String List Bool.
From stdpp Require Import base decidable option list strings gmap.

Local Open Scope string_scope.
Local Open Scope list_scope.
Local Open Scope Z_scope.

(** ** Outcomes of a Go computation *)

(** A call either returns a value, panics (index or slice bounds out of
    range), or is still running when the fuel is exhausted. *)
Inductive result (A : Type) : Type :=
| Val (a : A)
| Panic
| OutOfFuel.
Arguments Val {A} a.
Arguments Panic {A}.
Arguments OutOfFuel {A}.

Definition rbind {A B} (r : result A) (k : A -> result B) : result B :=
  match r with
  | Val a => k a
  | Panic => Panic
  | OutOfFuel => OutOfFuel
  end.

Notation "'let!' x ':=' c 'in' k" := (rbind c (fun x => k))
  (at level 10, x pattern, c at level 100, k at level 200).

(** [s[i]] for an index held in a Go integer. *)
Definition index {A} (s : list A) (i : Z) : result A :=
  if i <? 0 then Panic
  else match s !! Z.to_nat i with
       | Some x => Val x
       | None => Panic
       end.

(** ** DAWG unit bit fields ([dawg.go], constants and [unit*] accessors) *)

Definition wrap32 (x : Z) : Z := x mod 2 ^ 32.

Definition precisionMask : Z := 0xFFFFFFFF.
Definition isLeafBit : Z := Z.shiftl 1 31.
Definition hasLeafBit : Z := Z.shiftl 1 8.
Definition extensionBit : Z := Z.shiftl 1 9.

Definition unitHasLeaf (u : Z) : bool := negb (Z.land u hasLeafBit =? 0).

(** [u & ^isLeafBit]: the complement is taken in 32 bits. *)
Definition unitValue (u : Z) : Z :=
  Z.land u (Z.lxor isLeafBit precisionMask).

Definition unitLabel (u : Z) : Z := Z.land u (Z.lor isLeafBit 0xFF).

(** [((u >> 10) << ((u & extensionBit) >> 6)) & precisionMask]; the left
    shift of a [uint32] drops the bits above bit 31, which on [Z] is what
    the final mask does. *)
Definition unitOffset (u : Z) : Z :=
  Z.land (Z.shiftl (Z.shiftr u 10) (Z.shiftr (Z.land u extensionBit) 6))
         precisionMask.

(** ** The dictionary: an array of 32-bit units *)

Record dictionary : Type := { units : list Z }.

Definition hasValue (d : dictionary) (idx : Z) : result bool :=
  let! u := index (units d) idx in
  Val (unitHasLeaf u).

Definition value (d : dictionary) (idx : Z) : result Z :=
  let! u := index (units d) idx in
  let off := unitOffset u in
  let vi := Z.land (Z.lxor idx off) precisionMask in
  let! v := index (units d) vi in
  Val (unitValue v).

(** [followChar]: [Some next] for [(next, true)], [None] for [(0, false)]. *)
Definition followChar (d : dictionary) (label idx : Z) : result (option Z) :=
  let! u := index (units d) idx in
  let off := unitOffset u in
  let next := Z.land (Z.lxor (Z.lxor idx off) label) precisionMask in
  let! un := index (units d) next in
  if unitLabel un =? label then Val (Some next) else Val None.

Definition byte_val (c : ascii) : Z := Z.of_N (N_of_ascii c).

Definition bytes (s : string) : list Z := map byte_val (list_ascii_of_string s).

Fixpoint followBytes (d : dictionary) (b : list Z) (idx : Z)
  : result (option Z) :=
  match b with
  | [] => Val (Some idx)
  | ch :: b' =>
      let! r := followChar d ch idx in
      match r with
      | Some next => followBytes d b' next
      | None => Val None
      end
  end.

(** ** The Go library functions the program calls

    [strings], [unicode/utf8] and [encoding/base64] are not part of the
    repository; they are modelled here as far as the program uses them.
    Strings are converted to their bytes where the library looks at bytes
    or decodes UTF-8. *)

Definition of_bytes (b : list Z) : string :=
  string_of_list_ascii (map (fun x => ascii_of_N (Z.to_N x)) b).

Definition len (s : string) : Z := Z.of_nat (String.length s).

(** [s[lo:hi]] on a string: a panic unless [0 <= lo <= hi <= len(s)]. *)
Definition slice (s : string) (lo hi : Z) : result string :=
  if (0 <=? lo) && (lo <=? hi) && (hi <=? len s)
  then Val (substring (Z.to_nat lo) (Z.to_nat (hi - lo)) s)
  else Panic.

Definition HasPrefix (s p : string) : bool := String.prefix p s.

Definition HasSuffix (s p : string) : bool :=
  (String.length p <=? String.length s)%nat &&
  String.eqb (substring (String.length s - String.length p) (String.length p) s) p.

(** [strings.Contains]: [sub] occurs in [s] as a run of bytes. *)
Fixpoint Contains (s sub : string) : bool :=
  String.prefix sub s ||
  match s with
  | EmptyString => false
  | String _ s' => Contains s' sub
  end.

(** [strings.IndexAny(s, ", ")]: both characters are ASCII, so the first
    matching rune is the first matching byte; [None] stands for [-1]. *)
Fixpoint IndexAny_comma_space (s : string) : option nat :=
  match s with
  | EmptyString => None
  | String c s' =>
      if (byte_val c =? 44) || (byte_val c =? 32) then Some O
      else S <$> IndexAny_comma_space s'
  end.

(** [strings.Join(elems, " ")]. *)
Fixpoint Join (elems : list string) : string :=
  match elems with
  | [] => ""
  | [e] => e
  | e :: rest => e +:+ " " +:+ Join rest
  end.

(** *** UTF-8 *)

Definition RuneError : Z := 0xFFFD.

Definition is_cont (lo hi b : Z) : bool := (lo <=? b) && (b <=? hi).

(** [utf8.DecodeRuneInString]: the rune at the head of [s] and its width;
    an invalid or truncated encoding is [(RuneError, 1)]. The accept range
    of the second byte depends on the first one, as in Go's tables. *)
Definition decodeRune (s : list Z) : Z * nat :=
  match s with
  | [] => (RuneError, 0%nat)
  | s0 :: t =>
      if s0 <? 0x80 then (s0, 1%nat)
      else if (s0 <? 0xC2) || (0xF4 <? s0) then (RuneError, 1%nat)
      else
        let sz := if s0 <? 0xE0 then 2 else if s0 <? 0xF0 then 3 else 4 in
        let lo := if s0 =? 0xE0 then 0xA0 else if s0 =? 0xF0 then 0x90 else 0x80 in
        let hi := if s0 =? 0xED then 0x9F else if s0 =? 0xF4 then 0x8F else 0xBF in
        if Z.of_nat (length s) <? sz then (RuneError, 1%nat)
        else match t with
        | s1 :: t1 =>
            if negb (is_cont lo hi s1) then (RuneError, 1%nat)
            else if sz <=? 2
            then (Z.lor (Z.shiftl (Z.land s0 0x1F) 6) (Z.land s1 0x3F), 2%nat)
            else match t1 with
            | s2 :: t2 =>
                if negb (is_cont 0x80 0xBF s2) then (RuneError, 1%nat)
                else if sz <=? 3
                then (Z.lor (Z.lor (Z.shiftl (Z.land s0 0x0F) 12)
                                   (Z.shiftl (Z.land s1 0x3F) 6))
                            (Z.land s2 0x3F), 3%nat)
                else match t2 with
                | s3 :: _ =>
                    if negb (is_cont 0x80 0xBF s3) then (RuneError, 1%nat)
                    else (Z.lor (Z.lor (Z.lor (Z.shiftl (Z.land s0 0x07) 18)
                                              (Z.shiftl (Z.land s1 0x3F) 12))
                                       (Z.shiftl (Z.land s2 0x3F) 6))
                                (Z.land s3 0x3F), 4%nat)
                | [] => (RuneError, 1%nat)
                end
            | [] => (RuneError, 1%nat)
            end
        | [] => (RuneError, 1%nat)
        end
  end.

(** [for _, r := range s]: the runes of [s] with the bytes each one spans.
    Every step consumes at least one byte, so [length s] steps suffice. *)
Fixpoint runes_fuel (fuel : nat) (s : list Z) : list (Z * list Z) :=
  match fuel, s with
  | O, _ | _, [] => []
  | S fuel', _ :: _ =>
      let '(r, w) := decodeRune s in
      (r, take w s) :: runes_fuel fuel' (drop w s)
  end.

Definition runes (s : list Z) : list (Z * list Z) := runes_fuel (length s) s.

(** [utf8.AppendRune]: surrogates and values out of range are written as
    [RuneError]. *)
Definition encodeRune (r : Z) : list Z :=
  if (0 <=? r) && (r <? 0x80) then [r]
  else if (0 <=? r) && (r <? 0x800)
  then [Z.lor 0xC0 (Z.shiftr r 6); Z.lor 0x80 (Z.land r 0x3F)]
  else if (r <? 0) || (0x10FFFF <? r) || ((0xD800 <=? r) && (r <=? 0xDFFF))
  then [0xEF; 0xBF; 0xBD]
  else if r <? 0x10000
  then [Z.lor 0xE0 (Z.shiftr r 12); Z.lor 0x80 (Z.land (Z.shiftr r 6) 0x3F);
        Z.lor 0x80 (Z.land r 0x3F)]
  else [Z.lor 0xF0 (Z.shiftr r 18); Z.lor 0x80 (Z.land (Z.shiftr r 12) 0x3F);
        Z.lor 0x80 (Z.land (Z.shiftr r 6) 0x3F); Z.lor 0x80 (Z.land r 0x3F)].

(** [utf8.DecodeLastRuneInString]. *)
Definition RuneStart (b : Z) : bool := negb (Z.land b 0xC0 =? 0x80).

Definition decodeLastRune (s : list Z) : Z * nat :=
  match rev s with
  | [] => (RuneError, 0%nat)
  | r :: before =>
      if r <? 0x80 then (r, 1%nat)
      else
        (* walk back over at most three more bytes to a start byte *)
        let back :=
          match before with
          | b1 :: before1 =>
              if RuneStart b1 then 2%nat
              else match before1 with
              | b2 :: before2 =>
                  if RuneStart b2 then 3%nat
                  else match before2 with
                  | _ :: _ => 4%nat
                  | [] => 3%nat
                  end
              | [] => 2%nat
              end
          | [] => 1%nat
          end in
        let '(r', size) := decodeRune (drop (length s - back) s) in
        if (size =? back)%nat then (r', size) else (RuneError, 1%nat)
  end.

(** [unicode.IsSpace]. *)
Definition IsSpace (r : Z) : bool :=
  ((0x09 <=? r) && (r <=? 0x0D)) || (r =? 0x20) || (r =? 0x85) || (r =? 0xA0)
  || (r =? 0x1680) || ((0x2000 <=? r) && (r <=? 0x200A))
  || (r =? 0x2028) || (r =? 0x2029) || (r =? 0x202F) || (r =? 0x205F)
  || (r =? 0x3000).

(** [strings.TrimLeftFunc(s, unicode.IsSpace)]. *)
Fixpoint trimLeft_fuel (fuel : nat) (s : list Z) : list Z :=
  match fuel, s with
  | O, _ | _, [] => []
  | S fuel', _ :: _ =>
      let '(r, w) := decodeRune s in
      if IsSpace r then trimLeft_fuel fuel' (drop w s) else s
  end.

(** [lastIndexFunc(s, unicode.IsSpace, false)]: scanning [s[0:i]] backwards;
    [None] stands for [-1]. *)
Fixpoint lastIndexNonSpace (fuel : nat) (s : list Z) (i : nat) : option nat :=
  match fuel, i with
  | O, _ | _, O => None
  | S fuel', _ =>
      let '(r, size) := decodeLastRune (take i s) in
      let i' := (i - size)%nat in
      if IsSpace r then lastIndexNonSpace fuel' s i' else Some i'
  end.

(** [strings.TrimRightFunc(s, unicode.IsSpace)]. *)
Definition trimRight (s : list Z) : list Z :=
  match lastIndexNonSpace (length s) s (length s) with
  | Some i =>
      match s !! i with
      | Some b =>
          if 0x80 <=? b then take (i + snd (decodeRune (drop i s))) s
          else take (i + 1) s
      | None => take (i + 1) s
      end
  | None => []
  end.

Definition TrimSpace (s : string) : string :=
  of_bytes (trimRight (trimLeft_fuel (String.length s) (bytes s))).

(** [strings.Fields]: the maximal runs of non-space runes. [cur] is the
    field being read, if any. *)
Fixpoint fieldsLoop (rs : list (Z * list Z)) (cur : option (list Z))
  : list (list Z) :=
  match rs with
  | [] => match cur with Some f => [f] | None => [] end
  | (r, bs) :: rs' =>
      if IsSpace r
      then match cur with
           | Some f => f :: fieldsLoop rs' None
           | None => fieldsLoop rs' None
           end
      else fieldsLoop rs' (Some (default [] cur ++ bs))
  end.

Definition Fields (s : string) : list string :=
  map of_bytes (fieldsLoop (runes (bytes s)) None).

(** *** base64 *)

(** The standard alphabet. *)
Definition b64val (c : Z) : option Z :=
  if (65 <=? c) && (c <=? 90) then Some (c - 65)
  else if (97 <=? c) && (c <=? 122) then Some (c - 97 + 26)
  else if (48 <=? c) && (c <=? 57) then Some (c - 48 + 52)
  else if c =? 43 then Some 62
  else if c =? 47 then Some 63
  else None.

Definition quantum (v0 v1 v2 v3 : Z) : list Z :=
  let val := Z.lor (Z.lor (Z.lor (Z.shiftl v0 18) (Z.shiftl v1 12))
                          (Z.shiftl v2 6)) v3 in
  [Z.land (Z.shiftr val 16) 0xFF; Z.land (Z.shiftr val 8) 0xFF;
   Z.land val 0xFF].

(** Groups of four characters; [=] (61) pads the last group only, and a
    group is never left incomplete. Padding bits are not checked (the
    encoding is not strict). *)
Fixpoint decodeQuanta (s : list Z) : option (list Z) :=
  match s with
  | [] => Some []
  | c0 :: c1 :: c2 :: c3 :: rest =>
      match b64val c0, b64val c1 with
      | Some v0, Some v1 =>
          match b64val c2, b64val c3 with
          | Some v2, Some v3 =>
              match decodeQuanta rest with
              | Some out => Some (quantum v0 v1 v2 v3 ++ out)
              | None => None
              end
          | Some v2, None =>
              if (c3 =? 61) && bool_decide (rest = [])
              then Some (take 2 (quantum v0 v1 v2 0))
              else None
          | None, _ =>
              if (c2 =? 61) && (c3 =? 61) && bool_decide (rest = [])
              then Some (take 1 (quantum v0 v1 0 0))
              else None
          end
      | _, _ => None
      end
  | _ => None
  end.

(** [base64.StdEncoding.DecodeString]: carriage returns and line feeds are
    skipped wherever they stand; [None] is a non-nil error. *)
Definition base64_DecodeString (s : list Z) : option (list Z) :=
  decodeQuanta (filter (fun c => c <> 10 /\ c <> 13) s).

(** ** Guide and completer *)

(** [units[i*2]] is the first child label of node [i], [units[i*2+1]] its
    next sibling label; the index arithmetic is done in [uint32]. *)
Record guide : Type := { gunits : list Z }.

Definition child (g : guide) (idx : Z) : result Z :=
  index (gunits g) (wrap32 (idx * 2)).

Definition sibling (g : guide) (idx : Z) : result Z :=
  index (gunits g) (wrap32 (wrap32 (idx * 2) + 1)).

(** The completer's mutable fields; the dictionary and the guide it points
    to are passed alongside. [indexStack] is kept with the top of the Go
    slice (its last element) at the head. *)
Record completer : Type := {
  Key : list Z;
  indexStack : list Z;
  lastIndex : Z
}.

Definition newCompleter : completer :=
  {| Key := []; indexStack := []; lastIndex := 0 |}.

Definition start (c : completer) (idx : Z) (prefix : list Z) : completer :=
  {| Key := prefix; indexStack := [idx]; lastIndex := 0 |}.

(** [follow]: the returned index is 0 when there is no such arc. *)
Definition follow (d : dictionary) (c : completer) (label idx : Z)
  : result (Z * completer) :=
  let! r := followChar d label idx in
  match r with
  | None => Val (0, c)
  | Some next =>
      Val (next, {| Key := Key c ++ [label];
                    indexStack := next :: indexStack c;
                    lastIndex := lastIndex c |})
  end.

Fixpoint findTerminal (fuel : nat) (d : dictionary) (g : guide)
    (c : completer) (idx : Z) : result (bool * completer) :=
  match fuel with
  | O => OutOfFuel
  | S fuel' =>
      let! hv := hasValue d idx in
      if hv
      then Val (true, {| Key := Key c; indexStack := indexStack c;
                         lastIndex := idx |})
      else
        let! label := child g idx in
        let! r := followChar d label idx in
        match r with
        | None => Val (false, c)
        | Some next =>
            findTerminal fuel' d g
              {| Key := Key c ++ [label];
                 indexStack := next :: indexStack c;
                 lastIndex := lastIndex c |} next
        end
  end.

(** The inner loop of [next]: leave the current node, and its ancestors as
    long as they have no sibling, then step to the sibling. [None] is the
    [return false] of the loop; [Some idx] is its [break]. The stack
    shrinks with every round. *)
Fixpoint ascend (d : dictionary) (g : guide) (key : list Z)
    (stack : list Z) (last : Z) : result (option Z * completer) :=
  match stack with
  | [] => Val (None, {| Key := key; indexStack := []; lastIndex := last |})
  | idx :: rest =>
      let! siblingLabel := sibling g idx in
      let key' := removelast key in
      match rest with
      | [] => Val (None, {| Key := key'; indexStack := []; lastIndex := last |})
      | top :: _ =>
          let c' := {| Key := key'; indexStack := rest; lastIndex := last |} in
          if negb (siblingLabel =? 0)
          then
            let! (idx', c'') := follow d c' siblingLabel top in
            if idx' =? 0 then Val (None, c'') else Val (Some idx', c'')
          else ascend d g key' rest last
      end
  end.

Definition next (fuel : nat) (d : dictionary) (g : guide) (c : completer)
  : result (bool * completer) :=
  match indexStack c with
  | [] => Val (false, c)
  | idx :: _ =>
      if negb (lastIndex c =? 0)
      then
        let! childLabel := child g idx in
        if negb (childLabel =? 0)
        then
          let! (idx', c') := follow d c childLabel idx in
          if idx' =? 0 then Val (false, c')
          else findTerminal fuel d g c' idx'
        else
          let! (r, c') := ascend d g (Key c) (indexStack c) (lastIndex c) in
          match r with
          | None => Val (false, c')
          | Some idx' => findTerminal fuel d g c' idx'
          end
      else findTerminal fuel d g c idx
  end.

(** ** The words index *)

Definition dawgPayloadSep : Z := 0x01.

Record wordEntry : Type := { paradigmID : Z; formIdx : Z }.

Record wordsDawg : Type := { dict : dictionary; wguide : guide }.

(** [binary.BigEndian.Uint16]. *)
Definition be16 (hi lo : Z) : Z := Z.lor (Z.shiftl hi 8) lo.

(** What one completion contributes to the result of [get]. *)
Definition decodeEntry (key : list Z) : option wordEntry :=
  let key' := match rev key with
              | 10 :: _ => removelast key
              | _ => key
              end in
  match base64_DecodeString key' with
  | Some (d0 :: d1 :: d2 :: d3 :: _) =>
      Some {| paradigmID := be16 d0 d1; formIdx := be16 d2 d3 |}
  | _ => None
  end.

(** The loop [for c.next() { ... }] of [get]: [fuel] bounds the number of
    completions read, [inner] the length of each descent to a terminal. *)
Fixpoint collect (fuel inner : nat) (d : dictionary) (g : guide)
    (c : completer) (acc : list wordEntry) : result (list wordEntry) :=
  match fuel with
  | O => OutOfFuel
  | S fuel' =>
      let! (more, c') := next inner d g c in
      if more
      then collect fuel' inner d g c'
             (match decodeEntry (Key c') with
              | Some e => acc ++ [e]
              | None => acc
              end)
      else Val acc
  end.

Definition get (fuel : nat) (w : wordsDawg) (word : string)
  : result (list wordEntry) :=
  let! r := followBytes (dict w) (bytes word) 0 in
  match r with
  | None => Val []
  | Some idx =>
      let! r' := followChar (dict w) dawgPayloadSep idx in
      match r' with
      | None => Val []
      | Some idx' =>
          collect fuel fuel (dict w) (wguide w)
                  (start newCompleter idx' []) []
      end
  end.

(** ** The analyzer *)

Record Analyzer : Type := {
  words : wordsDawg;
  (* paradigms[i] is flat, of length N*3: suffix ids, tag ids, prefix ids *)
  paradigms : list (list Z);
  suffixes : list string;
  gramtab : list string
}.

(** The three fixed paradigm prefixes (a Go array of length 3). *)
Definition paradigmPrefixes : list string := [""; "по"; "наи"].

(** Prepositions and conjunctions that are never declined. *)
Definition serviceWords : gmap string bool :=
  list_to_map (map (fun w => (w, true))
    ["в"; "во"; "на"; "по"; "из"; "за";
     "от"; "до"; "об"; "обо"; "при"; "про";
     "над"; "под"; "без"; "для"; "через";
     "между"; "среди"; "около"; "после"; "перед";
     "вокруг"; "против"; "вместо"; "кроме";
     "с"; "со"; "к"; "ко"; "о";
     "и"; "или"; "но"; "а"; "не"; "ни";
     "как"; "что"; "это"]).

(** [serviceWords[w]]: a missing key reads as [false]. *)
Definition isServiceWord (w : string) : bool := default false (serviceWords !! w).

(** *** Tag parsing *)

Definition tagPOS (tag : string) : string :=
  match IndexAny_comma_space tag with
  | Some i => substring 0 i tag
  | None => tag
  end.

Fixpoint tagGrammeme (tag : string) (candidates : list string) : string :=
  match candidates with
  | [] => ""
  | g :: rest => if Contains tag g then g else tagGrammeme tag rest
  end.

Definition tagMatches (tag cas number gender animacy : string) : bool :=
  (String.eqb cas "" || Contains tag cas) &&
  (String.eqb number "" || Contains tag number) &&
  (String.eqb gender "" || Contains tag gender) &&
  (String.eqb animacy "" || Contains tag animacy).

(** *** Stems and forms *)

(** [extractStem]: [Some stem] for [(stem, true)], [None] for [("", false)].
    The slice is taken before the guard on its length is reached. *)
Definition extractStem (a : Analyzer) (word : string) (para : list Z)
    (n formIdx : Z) : result (option string) :=
  let! sid := index para formIdx in
  let! suffix := index (suffixes a) sid in
  let! pid := index para (2 * n + formIdx) in
  let! prefix := index paradigmPrefixes pid in
  if negb (HasPrefix word prefix) || negb (HasSuffix word suffix)
  then Val None
  else
    let! stem := slice word (len prefix) (len word - len suffix) in
    if len stem <? 0 then Val None else Val (Some stem).

(** [paradigmPrefixes[para[2*n+i]] + stem + a.suffixes[para[i]]], the
    expression [WordForms] and [inflect] both build. *)
Definition formAt (a : Analyzer) (para : list Z) (n : Z) (stem : string)
    (i : Z) : result string :=
  let! pid := index para (2 * n + i) in
  let! prefix := index paradigmPrefixes pid in
  let! sid := index para i in
  let! suffix := index (suffixes a) sid in
  Val (prefix +:+ stem +:+ suffix).

(** The loop of [WordForms] over the form indices [idxs], with its seen-set
    and the forms collected so far. *)
Fixpoint formsLoop (a : Analyzer) (para : list Z) (n : Z) (stem : string)
    (idxs : list Z) (seen : gset string) (forms : list string)
  : result (list string) :=
  match idxs with
  | [] => Val forms
  | i :: idxs' =>
      let! f := formAt a para n stem i in
      if decide (f ∈ seen)
      then formsLoop a para n stem idxs' seen forms
      else formsLoop a para n stem idxs' ({[f]} ∪ seen) (forms ++ [f])
  end.

(** [a.gramtab[para[n+i]]], the tag of form [i]. *)
Definition tagAt (a : Analyzer) (para : list Z) (n i : Z) : result string :=
  let! tid := index para (n + i) in
  index (gramtab a) tid.

(** The loop of [inflect]. *)
Fixpoint inflectLoop (a : Analyzer) (para : list Z) (n : Z)
    (stem word cas number gender animacy : string) (idxs : list Z)
  : result string :=
  match idxs with
  | [] => Val word
  | i :: idxs' =>
      let! tag := tagAt a para n i in
      if tagMatches tag cas number gender animacy
      then formAt a para n stem i
      else inflectLoop a para n stem word cas number gender animacy idxs'
  end.

Definition inflect (fuel : nat) (a : Analyzer)
    (word cas number gender animacy : string) : result string :=
  let! entries := get fuel (words a) word in
  match entries with
  | [] => Val word
  | e :: _ =>
      let! para := index (paradigms a) (paradigmID e) in
      let n := Z.of_nat (length para) / 3 in
      let! r := extractStem a word para n (formIdx e) in
      match r with
      | None => Val word
      | Some stem =>
          inflectLoop a para n stem word cas number gender animacy (seqZ 0 n)
      end
  end.

(** [inflectAdj]: the accusative of an adjective follows the animacy of
    its head. *)
Definition inflectAdj (fuel : nat) (a : Analyzer)
    (word cas number gender animacy : string) : result string :=
  let effectiveCas :=
    if String.eqb cas "accs" then
      if String.eqb number "plur" then
        if String.eqb animacy "inan" then "nomn" else "gent"
      else if String.eqb number "sing" && String.eqb gender "masc" then
        if String.eqb animacy "inan" then "nomn" else "gent"
      else if String.eqb number "sing" && String.eqb gender "neut" then "nomn"
      else cas
    else cas in
  let g := if String.eqb number "plur" then "" else gender in
  inflect fuel a word effectiveCas number g "".

Section Morphology.

(** [unicode.ToLower] on a rune. Its case tables belong to the Go library;
    the analyzer is verified for any such mapping. *)
Variable unicodeToLower : Z -> Z.

(** [strings.Map(unicode.ToLower, s)]: a rune mapped to a negative value
    is dropped. *)
Definition Map_ToLower (s : list Z) : list Z :=
  concat (map (fun rb : Z * list Z =>
                 let r := unicodeToLower (fst rb) in
                 if 0 <=? r then encodeRune r else [])
              (runes s)).

(** [strings.ToLower], with its path for strings of ASCII bytes. *)
Definition ToLower (s : string) : string :=
  let b := bytes s in
  if forallb (fun c => c <? 0x80) b
  then
    if existsb (fun c => (65 <=? c) && (c <=? 90)) b
    then of_bytes (map (fun c => if (65 <=? c) && (c <=? 90) then c + 32 else c) b)
    else s
  else of_bytes (Map_ToLower b).

Definition WordForms (fuel : nat) (a : Analyzer) (word : string)
  : result (list string) :=
  let word := ToLower (TrimSpace word) in
  if String.eqb word "" then Val []
  else
    let! entries := get fuel (words a) word in
    match entries with
    | [] => Val []
    | e :: _ =>
        let! para := index (paradigms a) (paradigmID e) in
        let n := Z.of_nat (length para) / 3 in
        if n <=? formIdx e then Val []
        else
          let! r := extractStem a word para n (formIdx e) in
          match r with
          | None => Val []
          | Some stem => formsLoop a para n stem (seqZ 0 n) ∅ []
          end
    end.

Definition Tag (fuel : nat) (a : Analyzer) (word : string) : result string :=
  let word := ToLower (TrimSpace word) in
  let! entries := get fuel (words a) word in
  match entries with
  | [] => Val ""
  | e :: _ =>
      let! para := index (paradigms a) (paradigmID e) in
      let n := Z.of_nat (length para) / 3 in
      let! tagID := index para (n + formIdx e) in
      if Z.of_nat (length (gramtab a)) <=? tagID then Val ""
      else index (gramtab a) tagID
  end.

(** *** Phrase concordance *)

Record wordInfo : Type := { pos : string; animacy : string; gender : string }.

Definition noInfo : wordInfo := {| pos := ""; animacy := ""; gender := "" |}.

Definition isNounPOS (p : string) : bool :=
  String.eqb p "NOUN" || String.eqb p "NPRO".

Definition isAdjPOS (p : string) : bool :=
  String.eqb p "ADJF" || String.eqb p "PRTF".

(** The first loop of [PhraseFormsConcordant]: the info of every token and
    the index of the last noun or pronoun, [-1] when there is none.
    [i] is the index of the head of [ws]. *)
Fixpoint scanWords (fuel : nat) (a : Analyzer) (ws : list string) (i : Z)
    (headIdx : Z) : result (list wordInfo * Z) :=
  match ws with
  | [] => Val ([], headIdx)
  | w :: ws' =>
      if isServiceWord w
      then
        let! (infos, h) := scanWords fuel a ws' (i + 1) headIdx in
        Val (noInfo :: infos, h)
      else
        let! tag := Tag fuel a w in
        if String.eqb tag ""
        then
          let! (infos, h) := scanWords fuel a ws' (i + 1) headIdx in
          Val (noInfo :: infos, h)
        else
          let p := tagPOS tag in
          let info := {| pos := p;
                         animacy := tagGrammeme tag ["anim"; "inan"];
                         gender := tagGrammeme tag ["masc"; "femn"; "neut"] |} in
          let! (infos, h) :=
            scanWords fuel a ws' (i + 1) (if isNounPOS p then i else headIdx) in
          Val (info :: infos, h)
  end.

(** Appending [f] unless the seen-set has it. *)
Definition addUnseen (f : string) (st : gset string * list string)
  : gset string * list string :=
  if decide (f ∈ st.1) then st else ({[f]} ∪ st.1, st.2 ++ [f]).

(** Without a head: the forms of every token that is not a service word. *)
Fixpoint flattenForms (fuel : nat) (a : Analyzer) (ws : list string)
    (st : gset string * list string) : result (gset string * list string) :=
  match ws with
  | [] => Val st
  | w :: ws' =>
      if isServiceWord w then flattenForms fuel a ws' st
      else
        let! forms := WordForms fuel a w in
        flattenForms fuel a ws' (foldl (fun s f => addUnseen f s) st forms)
  end.

(** One token of a declined phrase. *)
Definition declineWord (fuel : nat) (a : Analyzer) (head : wordInfo)
    (cas number : string) (w : string) (info : wordInfo) : result string :=
  if isServiceWord w then Val w
  else if isNounPOS (pos info) then inflect fuel a w cas number "" ""
  else if isAdjPOS (pos info)
  then inflectAdj fuel a w cas number (gender head) (animacy head)
  else Val w.

Fixpoint declinePhrase (fuel : nat) (a : Analyzer) (head : wordInfo)
    (cas number : string) (ws : list string) (infos : list wordInfo)
  : result (list string) :=
  match ws, infos with
  | w :: ws', info :: infos' =>
      let! d := declineWord fuel a head cas number w info in
      let! ds := declinePhrase fuel a head cas number ws' infos' in
      Val (d :: ds)
  | _, _ => Val []
  end.

Fixpoint casesLoop (fuel : nat) (a : Analyzer) (head : wordInfo)
    (ws : list string) (infos : list wordInfo) (number : string)
    (cases : list string) (st : gset string * list string)
  : result (gset string * list string) :=
  match cases with
  | [] => Val st
  | cas :: cases' =>
      let! declined := declinePhrase fuel a head cas number ws infos in
      casesLoop fuel a head ws infos number cases'
                (addUnseen (Join declined) st)
  end.

Fixpoint numbersLoop (fuel : nat) (a : Analyzer) (head : wordInfo)
    (ws : list string) (infos : list wordInfo) (numbers cases : list string)
    (st : gset string * list string) : result (gset string * list string) :=
  match numbers with
  | [] => Val st
  | number :: numbers' =>
      let! st' := casesLoop fuel a head ws infos number cases st in
      numbersLoop fuel a head ws infos numbers' cases st'
  end.

Definition PhraseFormsConcordant (fuel : nat) (a : Analyzer) (phrase : string)
  : result (list string) :=
  let phrase := ToLower (TrimSpace phrase) in
  let ws := Fields phrase in
  match ws with
  | [] => Val []
  | [w] =>
      let! forms := WordForms fuel a w in
      match forms with
      | [] => Val [w]
      | _ :: _ => Val forms
      end
  | _ :: _ :: _ =>
      let! (infos, headIdx) := scanWords fuel a ws 0 (-1) in
      let st := ({[phrase]} : gset string, [phrase]) in
      if headIdx =? -1
      then
        let! st' := flattenForms fuel a ws st in
        Val st'.2
      else
        let! head := index infos headIdx in
        let! st' := numbersLoop fuel a head ws infos ["sing"; "plur"]
                      ["nomn"; "gent"; "datv"; "accs"; "ablt"; "loct"] st in
        Val st'.2
  end.

End Morphology.

(** ** Loading the tables

    [dictionary.read], [guide.read], [wordsDawg.load] and
    [Analyzer.loadParadigms] read from an [io.Reader] over a byte slice;
    the reader is the list of the bytes not yet consumed. A read that
    fails returns the error of [io.ReadFull]. *)

Inductive ByteOrder : Type := LittleEndian | BigEndian.

Inductive ioError : Type := EOF | ErrUnexpectedEOF.

Definition ebind {A B} (r : ioError + A) (k : A -> ioError + B)
  : ioError + B :=
  match r with
  | inl e => inl e
  | inr a => k a
  end.

Notation "'try!' x ':=' c 'in' k" := (ebind c (fun x => k))
  (at level 10, x pattern, c at level 100, k at level 200).

(** [io.ReadFull] of [n] bytes: nothing is asked of the reader when
    [n = 0]; an exhausted reader is [io.EOF], a short one
    [io.ErrUnexpectedEOF]. *)
Definition ReadFull (n : nat) (r : list Z) : ioError + (list Z * list Z) :=
  match n with
  | O => inr ([], r)
  | S _ =>
      match r with
      | [] => inl EOF
      | _ :: _ =>
          if (length r <? n)%nat then inl ErrUnexpectedEOF
          else inr (take n r, drop n r)
      end
  end.

(** [ByteOrder.Uint16] / [Uint32] on the bytes of one value: the first
    byte is the least significant one in little-endian order. *)
Fixpoint uintLE (bs : list Z) : Z :=
  match bs with
  | [] => 0
  | b :: bs' => Z.lor b (Z.shiftl (uintLE bs') 8)
  end.

Definition uintOf (order : ByteOrder) (bs : list Z) : Z :=
  match order with
  | LittleEndian => uintLE bs
  | BigEndian => uintLE (rev bs)
  end.

(** The values of [count] consecutive fields of [width] bytes. *)
Fixpoint decodeFields (order : ByteOrder) (width count : nat) (bs : list Z)
  : list Z :=
  match count with
  | O => []
  | S count' =>
      uintOf order (take width bs) :: decodeFields order width count' (drop width bs)
  end.

(** [binary.Read(r, order, &x)] for an unsigned integer of [width] bytes. *)
Definition binary_Read (order : ByteOrder) (width : nat) (r : list Z)
  : ioError + (Z * list Z) :=
  try! (bs, r') := ReadFull width r in
  inr (uintOf order bs, r').

(** [binary.Read(r, order, xs)] for a slice of [count] unsigned integers of
    [width] bytes each. *)
Definition binary_Read_slice (order : ByteOrder) (width count : nat)
    (r : list Z) : ioError + (list Z * list Z) :=
  try! (bs, r') := ReadFull (width * count) r in
  inr (decodeFields order width count bs, r').

(** [dictionary.read]; [native] is the byte order of the host. *)
Definition dictionary_read (native : ByteOrder) (r : list Z)
  : ioError + (dictionary * list Z) :=
  try! (size, r1) := binary_Read native 4 r in
  try! (us, r2) := binary_Read_slice native 4 (Z.to_nat size) r1 in
  inr ({| units := us |}, r2).

(** [guide.read]: the buffer has [size*2] bytes, the product taken in
    [uint32]. *)
Definition guide_read (native : ByteOrder) (r : list Z)
  : ioError + (guide * list Z) :=
  try! (size, r1) := binary_Read native 4 r in
  try! (bs, r2) := ReadFull (Z.to_nat (wrap32 (size * 2))) r1 in
  inr ({| gunits := bs |}, r2).

(** [guide.size]. *)
Definition guide_size (g : guide) : Z := Z.of_nat (length (gunits g)).

(** [wordsDawg.load]: the dictionary, then the guide, from one reader. *)
Definition load (native : ByteOrder) (r : list Z)
  : ioError + (wordsDawg * list Z) :=
  try! (d, r1) := dictionary_read native r in
  try! (g, r2) := guide_read native r1 in
  inr ({| dict := d; wguide := g |}, r2).

(** The loop of [loadParadigms] over the [count] paradigms still to read. *)
Fixpoint readParadigms (count : nat) (r : list Z)
  : ioError + (list (list Z) * list Z) :=
  match count with
  | O => inr ([], r)
  | S count' =>
      try! (plen, r1) := binary_Read LittleEndian 2 r in
      try! (para, r2) :=
        binary_Read_slice LittleEndian 2 (Z.to_nat plen) r1 in
      try! (rest, r3) := readParadigms count' r2 in
      inr (para :: rest, r3)
  end.

(** [Analyzer.loadParadigms]: the paradigms read from [raw], or the error;
    what is left of [raw] after the last paradigm is not looked at. *)
Definition loadParadigms (raw : list Z) : ioError + list (list Z) :=
  try! (n, r1) := binary_Read LittleEndian 2 raw in
  try! (ps, _) := readParadigms (Z.to_nat n) r1 in
  inr ps.

(** ** A small dictionary

    A dictionary in the format of the shipped one, over six keys: the words
    index holds [кошка], [кошки] (twice: genitive singular and nominative
    plural), [кошку], [красивая] and [по]; each key is the word, the
    separator and the base64 of the big-endian pair, with the line feed
    that ends it. The unit array is padded to a block of 256 units, as the
    DAWG builder leaves it. *)

Definition demoUnits : list Z :=
    [
     214016; 192720; 159935; 134353; 183505; 193744;
     217278; 215226; 214152; 189648; 220346; 69633;
     167121; 169168; 65601; 97345; 11448; 67649;
     65601; 71745; 61505; 63549; 11325; 14602;
     18608; 2147483648; 65537; 71745; 65601; 67649;
     127041; 7229; 103490; 3153; 57447; 85057;
     2314; 11325; 2147483648; 51261; 11325; 3338;
     2147483648; 72769; 3203; 68673; 69633; 96321;
     68673; 64631; 118849; 59453; 11325; 3338;
     2147483648; 228480; 181456; 215216; 131281; 220289;
     189648; 216248; 183504; 179378; 181456; 215216;
     145617; 7311; 68673; 65537; 69697; 80965;
     63549; 71745; 64631; 16445; 2147483648; 114754;
     167120; 90185; 68609; 29962; 71745; 2238;
     50237; 85057; 65601; 76865; 14397; 2147483648;
     0; 0; 5386; 53313
    ] ++ replicate 162%nat 0.

Definition demoGuide : list Z :=
    [
     208; 0; 186; 0; 208; 0; 136; 0; 128; 0; 190; 209; 209; 0; 208; 191;
     208; 0; 186; 0; 208; 0; 65; 0; 131; 0; 176; 209; 65; 0; 65; 0;
     1; 0; 65; 0; 65; 0; 65; 0; 61; 0; 61; 0; 10; 0; 0; 0;
     1; 184; 0; 0; 65; 0; 65; 0; 65; 0; 65; 0; 65; 0; 61; 0;
     103; 0; 61; 0; 61; 0; 81; 66; 0; 0; 10; 0; 0; 0; 61; 0;
     10; 0; 0; 0; 0; 0; 65; 0; 1; 0; 65; 0; 65; 0; 65; 0;
     65; 0; 61; 0; 119; 0; 61; 0; 10; 0; 0; 0; 0; 0; 208; 0;
     176; 0; 209; 0; 129; 0; 208; 0; 184; 0; 208; 0; 178; 0; 208; 0;
     176; 0; 209; 0; 143; 0; 1; 0; 65; 0; 65; 0; 69; 0; 65; 0;
     61; 0; 66; 0; 61; 0; 10; 0; 0; 0; 119; 0; 190; 0; 65; 0;
     65; 0; 0; 0; 65; 0; 1; 0; 61; 0; 73; 0; 65; 0; 65; 0;
     10; 0; 0; 0; 0; 0; 0; 0; 0; 0; 61; 0
    ] ++ replicate 324%nat 0.

Definition demoWords : wordsDawg :=
  {| dict := {| units := demoUnits |}; wguide := {| gunits := demoGuide |} |}.

Definition demoSuffixes : list string :=
  [""; "ка"; "ки"; "ке"; "ку"; "кой"; "ек"; "кам"; "ками"; "ках";
   "ый"; "ого"; "ому"; "ым"; "ом"; "ая"; "ой"; "ую"; "ые"; "ых"; "ыми"].

Definition demoGramtab : list string :=
  ["NOUN,inan,femn sing,nomn"; "NOUN,inan,femn sing,gent";
   "NOUN,inan,femn sing,datv"; "NOUN,inan,femn sing,accs";
   "NOUN,inan,femn sing,ablt"; "NOUN,inan,femn sing,loct";
   "NOUN,inan,femn plur,nomn"; "NOUN,inan,femn plur,gent";
   "NOUN,inan,femn plur,datv"; "NOUN,inan,femn plur,accs";
   "NOUN,inan,femn plur,ablt"; "NOUN,inan,femn plur,loct";
   "ADJF,Qual masc,sing,nomn"; "ADJF,Qual masc,sing,gent";
   "ADJF,Qual masc,sing,datv"; "ADJF,Qual anim,masc,sing,accs";
   "ADJF,Qual inan,masc,sing,accs"; "ADJF,Qual masc,sing,ablt";
   "ADJF,Qual masc,sing,loct"; "ADJF,Qual femn,sing,nomn";
   "ADJF,Qual femn,sing,gent"; "ADJF,Qual femn,sing,datv";
   "ADJF,Qual femn,sing,accs"; "ADJF,Qual femn,sing,ablt";
   "ADJF,Qual femn,sing,loct"; "ADJF,Qual plur,nomn";
   "ADJF,Qual plur,gent"; "ADJF,Qual plur,datv";
   "ADJF,Qual anim,plur,accs"; "ADJF,Qual inan,plur,accs";
   "ADJF,Qual plur,ablt"; "ADJF,Qual plur,loct";
   "PREP"].

(** Paradigm 0 declines [кошка] (stem [кош]), paradigm 1 [красивый] (stem
    [красив]), paradigm 2 is the preposition [по]. *)
Definition demoNoun : list Z :=
  [1; 2; 3; 4; 5; 3; 2; 6; 7; 6; 8; 9] ++ seqZ 0 12 ++ replicate 12%nat 0.

Definition demoAdjective : list Z :=
  [10; 11; 12; 11; 10; 13; 14; 15; 16; 16; 17; 16; 16;
   18; 19; 13; 19; 18; 20; 19] ++ seqZ 12 20 ++ replicate 20%nat 0.

Definition demoParadigms : list (list Z) :=
  [demoNoun; demoAdjective; [0; 32; 0]].

Definition demo : Analyzer :=
  {| words := demoWords; paradigms := demoParadigms;
     suffixes := demoSuffixes; gramtab := demoGramtab |}.

(** [unicode.ToLower] on Basic Latin and on the Cyrillic capitals
    U+0400..U+042F, the identity elsewhere: enough of the case tables for
    the examples below. *)
Definition ruLower (r : Z) : Z :=
  if (65 <=? r) && (r <=? 90) then r + 32
  else if (0x410 <=? r) && (r <=? 0x42F) then r + 32
  else if (0x400 <=? r) && (r <=? 0x40F) then r + 80
  else r.

(** *** Dictionaries that load but break an invariant

    Each of them is the small dictionary with one table changed. *)

(** The unit array as the words file may give it, without the padding up
    to a whole block: transitions out of its states can lead past its end. *)
Definition demoUnpadded : Analyzer :=
  {| words := {| dict := {| units := take 94 demoUnits |};
                 wguide := {| gunits := take 188 demoGuide |} |};
     paradigms := demoParadigms;
     suffixes := demoSuffixes; gramtab := demoGramtab |}.

(** No paradigm at all: every paradigm id of the index is out of range. *)
Definition demoNoParadigms : Analyzer :=
  {| words := demoWords; paradigms := [];
     suffixes := demoSuffixes; gramtab := demoGramtab |}.

(** A suffix table of one entry: the suffix ids of the paradigms are out of
    range. *)
Definition demoShortSuffixes : Analyzer :=
  {| words := demoWords; paradigms := demoParadigms;
     suffixes := take 1 demoSuffixes; gramtab := demoGramtab |}.

(** A gramtab of eleven tags: tag id 11 and above are out of range. *)
Definition demoShortGramtab : Analyzer :=
  {| words := demoWords; paradigms := demoParadigms;
     suffixes := demoSuffixes; gramtab := take 11 demoGramtab |}.

(** Paradigm 0 has the single form [кошки], while the index still records
    [кошки] as its form 1. *)
Definition demoOneForm : Analyzer :=
  {| words := demoWords; paradigms := <[0%nat := [2; 1; 0]]> demoParadigms;
     suffixes := demoSuffixes; gramtab := demoGramtab |}.


(** Paradigm 0 is empty. *)
Definition demoEmptyParadigm : Analyzer :=
  {| words := demoWords; paradigms := <[0%nat := []]> demoParadigms;
     suffixes := demoSuffixes; gramtab := demoGramtab |}.

(** The paradigm of [по] names the prefix [по] and the suffix [о], which
    overlap in the word. *)
Definition demoOverlap : Analyzer :=
  {| words := demoWords; paradigms := <[2%nat := [21; 32; 1]]> demoParadigms;
     suffixes := demoSuffixes ++ ["о"]; gramtab := demoGramtab |}.

(** ** Notions the properties are stated with *)

(** The offset as the specification writes it: the payload shifted left by
    the value of bit 9, that is by 0 or 1. *)
Definition offset_as_specified (u : Z) : Z :=
  Z.land (Z.shiftl (Z.shiftr u 10) (Z.land (Z.shiftr u 9) 1)) 0xFFFFFFFF.

(** The offset with the extension bit scaling by a whole byte. *)
Definition offset_by_byte (u : Z) : Z :=
  Z.land (Z.shiftl (Z.shiftr u 10) (8 * Z.land (Z.shiftr u 9) 1)) 0xFFFFFFFF.

(** De-duplication that keeps the first occurrence of every string, in the
    order of the first occurrences: the specification's "de-duplicate while
    preserving first-seen order". *)
Fixpoint dedupFirstSeen (l : list string) : list string :=
  match l with
  | [] => []
  | x :: l' => x :: filter (fun y => y <> x) (dedupFirstSeen l')
  end.

(** The forms at the indices [idxs], when every one of them can be built. *)
Definition formsAt (a : Analyzer) (para : list Z) (n : Z) (stem : string)
    (idxs : list Z) (fs : list string) : Prop :=
  Forall2 (fun i f => formAt a para n stem i = Val f) idxs fs.

(** A token that can be the head: not a service word, and tagged as a noun
    or a pronoun. *)
Definition isHead (lower : Z -> Z) (fuel : nat) (a : Analyzer) (w : string)
  : Prop :=
  isServiceWord w = false /\
  exists tag, Tag lower fuel a w = Val tag /\ tag <> "" /\
              isNounPOS (tagPOS tag) = true.

(** The bytes of an unsigned integer of [width] bytes, as
    [ByteOrder.PutUint16] / [PutUint32] write them. *)
Fixpoint putLE (width : nat) (x : Z) : list Z :=
  match width with
  | O => []
  | S width' => Z.land x 0xFF :: putLE width' (Z.shiftr x 8)
  end.

Definition putUint (order : ByteOrder) (width : nat) (x : Z) : list Z :=
  match order with
  | LittleEndian => putLE width x
  | BigEndian => rev (putLE width x)
  end.

Definition is_byte (b : Z) : Prop := 0 <= b < 256.

(** The layout that [dictionary.read] expects: the number of units, then
    the units. *)
Definition encodeUnits (order : ByteOrder) (us : list Z) : list Z :=
  putUint order 4 (Z.of_nat (length us))
  ++ concat (map (putUint order 4) us).

(** The layout that [guide.read] expects: the number of nodes, then two
    bytes per node. *)
Definition encodeGuide (order : ByteOrder) (nodes : Z) (bs : list Z)
  : list Z :=
  putUint order 4 nodes ++ bs.

(** The layout of [paradigms.array]: the number of paradigms, then for
    every paradigm its length and its values, all in 16 bits,
    little-endian. *)
Definition encodeParadigm (para : list Z) : list Z :=
  putLE 2 (Z.of_nat (length para)) ++ concat (map (putLE 2) para).

Definition encodeParadigms (ps : list (list Z)) : list Z :=
  putLE 2 (Z.of_nat (length ps)) ++ concat (map encodeParadigm ps).

(** A reader that, when it succeeds, has consumed a prefix of its input
    that it needs in full: on the input cut short inside that prefix it
    fails, and on the input cut after it, it gives the same value. *)
Definition reads_prefix {A} (f : list Z -> ioError + (A * list Z)) : Prop :=
  forall r x r',
    f r = inr (x, r') ->
    exists c,
      length r = (c + length r')%nat /\
      (forall k, (k < c)%nat -> exists e, f (take k r) = inl e) /\
      (forall k, (c <= k)%nat -> f (take k r) = inr (x, take (k - c) r')).

(** The stack of a completer, top first, and its key, last byte first,
    describe a walk in the dictionary from [start]: every index of the
    stack is reached from the one below it by the arc that the key names. *)
Fixpoint trail (d : dictionary) (start : Z) (rkey stack : list Z)
    {struct stack} : Prop :=
  match stack with
  | [] => False
  | s :: rest =>
      match rest, rkey with
      | [], [] => s = start
      | p :: _, l :: rkey' =>
          followChar d l p = Val (Some s) /\ trail d start rkey' rest
      | _, _ => False
      end
  end.

Definition on_trail (d : dictionary) (start : Z) (c : completer) : Prop :=
  trail d start (rev (Key c)) (indexStack c).

(** A key of the dictionary: its bytes lead from the root to a node that
    has a value. *)
Definition stored (d : dictionary) (key : list Z) : Prop :=
  exists t, followBytes d key 0 = Val (Some t) /\ hasValue d t = Val true.

(** A unit array laid out in whole blocks of 256 units, as the DAWG
    builder leaves it: it is not empty, its length is a multiple of 256,
    and the base [index XOR offset] of the root and of every unit that is
    not a leaf lies inside the array. *)
Definition block_padded (d : dictionary) : bool :=
  let n := Z.of_nat (length (units d)) in
  (0 <? n) && (n mod 256 =? 0) &&
  forallb (fun i =>
             match index (units d) i with
             | Val u =>
                 ((0 <? i) && Z.testbit u 31) ||
                 (Z.land (Z.lxor i (unitOffset u)) precisionMask <? n)
             | _ => true
             end)
          (seqZ 0 n).

(** A guide of bytes with two entries for every unit of the dictionary. *)
Definition guide_covers (d : dictionary) (g : guide) : bool :=
  (2 * Z.of_nat (length (units d)) <=? Z.of_nat (length (gunits g))) &&
  forallb (fun b => (0 <=? b) && (b <? 256)) (gunits g).

(** An index from which a transition can be taken: the root, or a unit
    that is not a leaf. *)
Definition leavable (d : dictionary) (i : Z) : Prop :=
  exists u, index (units d) i = Val u /\ (i = 0 \/ Z.testbit u 31 = false).

(** What a step on a block-padded dictionary returns: not a panic, and a
    completer whose stack can be walked on. *)
Definition safe_step (d : dictionary) {A} (r : result (A * completer))
  : Prop :=
  match r with
  | Val (_, c') => Forall (leavable d) (indexStack c')
  | Panic => False
  | OutOfFuel => True
  end.

(** The prefix and the suffix of form [i] of a paradigm, as the tables
    give them: [paradigmPrefixes[para[2*n+i]]] and [a.suffixes[para[i]]]. *)
Definition affixesAt (a : Analyzer) (para : list Z) (n i : Z)
    (prefix suffix : string) : Prop :=
  exists pid sid,
    index para (2 * n + i) = Val pid /\
    index paradigmPrefixes pid = Val prefix /\
    index para i = Val sid /\
    index (suffixes a) sid = Val suffix.

(** What a token of a phrase declined for a case and a number can be,
    with the gender and the animacy of the head: the token itself, or,
    for a token that is not a service word, what [inflect] returns for the
    case and the number, or what [inflectAdj] returns for them and for the
    gender and the animacy of the head. *)
Definition declinedAs (fuel : nat) (a : Analyzer)
    (cas number gender animacy w d : string) : Prop :=
  d = w \/
  (isServiceWord w = false /\
   (inflect fuel a w cas number "" "" = Val d \/
    inflectAdj fuel a w cas number gender animacy = Val d)).

(** The seen-set and the list of a loop of [PhraseFormsConcordant] go
    together: the list has no string twice and the set holds its
    strings. *)
Definition seen_ok (st : gset string * list string) : Prop :=
  NoDup st.2 /\ forall x, x ∈ st.1 <-> x ∈ st.2.

(** * Properties *)

(** ** Slice reads *)

Lemma index_Val {A} (s : list A) (i : Z) (x : A) :
  index s i = Val x <-> 0 <= i /\ s !! Z.to_nat i = Some x.
Proof.
  unfold index. destruct (Z.ltb_spec i 0).
  - split; [discriminate | lia].
  - destruct (s !! Z.to_nat i) eqn:E; split; intros H1;
      try discriminate; try (injection H1 as ->); try tauto.
    + destruct H1 as [_ H1]. congruence.
    + destruct H1 as [_ H1]. discriminate.
Qed.

Lemma index_in_range {A} (s : list A) (i : Z) :
  0 <= i < Z.of_nat (length s) -> exists x, index s i = Val x.
Proof.
  intros [H0 H1]. unfold index.
  destruct (Z.ltb_spec i 0); [lia |].
  destruct (lookup_lt_is_Some_2 s (Z.to_nat i)) as [x Hx]; [lia |].
  exists x. now rewrite Hx.
Qed.

Lemma index_out_of_range {A} (s : list A) (i : Z) :
  Z.of_nat (length s) <= i -> index s i = @Panic A.
Proof.
  intros H. unfold index.
  destruct (Z.ltb_spec i 0); [reflexivity |].
  rewrite (lookup_ge_None_2 s (Z.to_nat i)); [reflexivity | lia].
Qed.


(** A transition whose target lies past the end of the unit array is a
    panic, not a missing arc. *)
Lemma followChar_past_end (d : dictionary) (label idx u : Z) :
  index (units d) idx = Val u ->
  Z.of_nat (length (units d))
    <= Z.land (Z.lxor (Z.lxor idx (unitOffset u)) label) precisionMask ->
  followChar d label idx = Panic.
Proof.
  intros Hu Hnext. unfold followChar. rewrite Hu. simpl.
  now rewrite index_out_of_range.
Qed.

(** Within the array, it is an arc or a missing arc. *)
Lemma followChar_in_range (d : dictionary) (label idx u : Z) :
  index (units d) idx = Val u ->
  Z.land (Z.lxor (Z.lxor idx (unitOffset u)) label) precisionMask
    < Z.of_nat (length (units d)) ->
  exists r, followChar d label idx = Val r.
Proof.
  intros Hu Hnext. unfold followChar. rewrite Hu. simpl.
  destruct (index_in_range (units d)
              (Z.land (Z.lxor (Z.lxor idx (unitOffset u)) label)
                      precisionMask)) as [un Hun].
  { split; [| assumption]. apply Z.land_nonneg. right.
    unfold precisionMask. lia. }
  rewrite Hun. simpl.
  destruct (unitLabel un =? label); eauto.
Qed.

(** ** Fuel

    A result that is not [OutOfFuel] does not depend on the fuel: more
    fuel gives the same value or the same panic. *)

Lemma rbind_mono {A B} (r r' : result A) (k k' : A -> result B)
    (res : result B) :
  rbind r k = res ->
  res <> OutOfFuel ->
  (r <> OutOfFuel -> r' = r) ->
  (forall x, r = Val x -> k x <> OutOfFuel -> k' x = k x) ->
  rbind r' k' = res.
Proof.
  intros H Hres Hr Hk. destruct r as [x | |]; simpl in H.
  - rewrite Hr by discriminate. simpl. subst res. now apply Hk.
  - rewrite Hr by discriminate. assumption.
  - congruence.
Qed.

Lemma findTerminal_mono (d : dictionary) (g : guide) (fuel : nat) :
  forall fuel' c idx res,
    (fuel <= fuel')%nat ->
    findTerminal fuel d g c idx = res -> res <> OutOfFuel ->
    findTerminal fuel' d g c idx = res.
Proof.
  induction fuel as [| fuel IH]; intros fuel' c idx res Hle H Hres.
  - simpl in H. congruence.
  - destruct fuel' as [| fuel']; [lia |].
    cbn [findTerminal] in *.
    destruct (hasValue d idx) as [[|] | |]; cbn [rbind] in *;
      try assumption.
    destruct (child g idx) as [label | |]; cbn [rbind] in *;
      try assumption.
    destruct (followChar d label idx) as [[nxt |] | |]; cbn [rbind] in *;
      try assumption.
    apply IH; [lia | assumption ..].
Qed.

Lemma next_mono (d : dictionary) (g : guide) (fuel fuel' : nat)
    (c : completer) (res : result (bool * completer)) :
  (fuel <= fuel')%nat ->
  next fuel d g c = res -> res <> OutOfFuel ->
  next fuel' d g c = res.
Proof.
  intros Hle H Hres. unfold next in *.
  destruct (indexStack c) as [| idx stack]; [assumption |].
  destruct (negb (lastIndex c =? 0));
    [| now apply (findTerminal_mono d g fuel)].
  destruct (child g idx) as [childLabel | |]; cbn [rbind] in *;
    try assumption.
  destruct (negb (childLabel =? 0)).
  - destruct (follow d c childLabel idx) as [[idx' c'] | |];
      cbn [rbind] in *; try assumption.
    destruct (idx' =? 0); [assumption |].
    now apply (findTerminal_mono d g fuel).
  - destruct (ascend d g (Key c) (idx :: stack) (lastIndex c))
      as [[[idx' |] c'] | |]; cbn [rbind] in *; try assumption.
    now apply (findTerminal_mono d g fuel).
Qed.

Lemma collect_mono (d : dictionary) (g : guide) (inner inner' : nat)
    (fuel : nat) :
  (inner <= inner')%nat ->
  forall fuel' c acc res,
    (fuel <= fuel')%nat ->
    collect fuel inner d g c acc = res -> res <> OutOfFuel ->
    collect fuel' inner' d g c acc = res.
Proof.
  intros Hinner.
  induction fuel as [| fuel IH]; intros fuel' c acc res Hle H Hres.
  - simpl in H. congruence.
  - destruct fuel' as [| fuel']; [lia |].
    cbn [collect] in *.
    apply (rbind_mono _ _ _ _ _ H Hres).
    + intros Hn. now apply (next_mono d g inner).
    + intros [more c'] _ Hk. destruct more; [| reflexivity].
      apply IH; [lia | reflexivity | assumption].
Qed.

Lemma get_mono (fuel fuel' : nat) (w : wordsDawg) (word : string)
    (res : result (list wordEntry)) :
  (fuel <= fuel')%nat ->
  get fuel w word = res -> res <> OutOfFuel ->
  get fuel' w word = res.
Proof.
  intros Hle H Hres. unfold get in *.
  destruct (followBytes (dict w) (bytes word) 0) as [[idx |] | |];
    cbn [rbind] in *; try assumption.
  destruct (followChar (dict w) dawgPayloadSep idx) as [[idx' |] | |];
    cbn [rbind] in *; try assumption.
  now apply (collect_mono _ _ fuel fuel' fuel).
Qed.

Lemma inflect_mono (fuel fuel' : nat) (a : Analyzer)
    (word cas number gender animacy : string) (res : result string) :
  (fuel <= fuel')%nat ->
  inflect fuel a word cas number gender animacy = res ->
  res <> OutOfFuel ->
  inflect fuel' a word cas number gender animacy = res.
Proof.
  intros Hle H Hres. unfold inflect in *.
  apply (rbind_mono _ _ _ _ _ H Hres); [| reflexivity].
  intros Hn. now apply (get_mono fuel).
Qed.

Lemma WordForms_mono (lower : Z -> Z) (fuel fuel' : nat) (a : Analyzer)
    (w : string) (res : result (list string)) :
  (fuel <= fuel')%nat ->
  WordForms lower fuel a w = res -> res <> OutOfFuel ->
  WordForms lower fuel' a w = res.
Proof.
  intros Hle H Hres. unfold WordForms in *.
  destruct (String.eqb (ToLower lower (TrimSpace w)) ""); [assumption |].
  apply (rbind_mono _ _ _ _ _ H Hres); [| reflexivity].
  intros Hn. now apply (get_mono fuel).
Qed.

Lemma Tag_mono (lower : Z -> Z) (fuel fuel' : nat) (a : Analyzer)
    (w : string) (res : result string) :
  (fuel <= fuel')%nat ->
  Tag lower fuel a w = res -> res <> OutOfFuel ->
  Tag lower fuel' a w = res.
Proof.
  intros Hle H Hres. unfold Tag in *.
  apply (rbind_mono _ _ _ _ _ H Hres); [| reflexivity].
  intros Hn. now apply (get_mono fuel).
Qed.

(** ** The unit accessors *)

Lemma land_extensionBit (u : Z) :
  Z.land u extensionBit = if Z.testbit u 9 then 512 else 0.
Proof.
  apply Z.bits_inj'. intros n Hn.
  rewrite Z.land_spec. unfold extensionBit.
  rewrite Z.shiftl_1_l, Z.pow2_bits_eqb by lia.
  destruct (Z.eqb_spec 9 n) as [<- | Hne].
  - rewrite andb_true_r. destruct (Z.testbit u 9); reflexivity.
  - rewrite andb_false_r.
    destruct (Z.testbit u 9); [| now rewrite Z.bits_0].
    change 512 with (2 ^ 9). rewrite Z.pow2_bits_eqb by lia.
    symmetry. now apply Z.eqb_neq.
Qed.

Lemma land_shiftr_9_1 (u : Z) :
  Z.land (Z.shiftr u 9) 1 = if Z.testbit u 9 then 1 else 0.
Proof.
  change 1 with (Z.ones 1) at 1.
  rewrite Z.land_ones by lia.
  change (2 ^ 1) with 2. rewrite <- Z.bit0_mod.
  rewrite Z.shiftr_spec by lia. change (0 + 9) with 9.
  destruct (Z.testbit u 9); reflexivity.
Qed.

(** With bit 9 clear the payload is the offset; with bit 9 set it is
    scaled by 256. *)
Lemma offset_by_byte_cases (u : Z) :
  offset_by_byte u =
    if Z.testbit u 9
    then Z.land (Z.shiftl (Z.shiftr u 10) 8) 0xFFFFFFFF
    else Z.land (Z.shiftr u 10) 0xFFFFFFFF.
Proof.
  unfold offset_by_byte. rewrite land_shiftr_9_1.
  destruct (Z.testbit u 9); [reflexivity |].
  now rewrite Z.shiftl_0_r.
Qed.

Lemma unitOffset_by_byte (u : Z) : unitOffset u = offset_by_byte u.
Proof.
  unfold unitOffset, offset_by_byte.
  rewrite land_extensionBit, land_shiftr_9_1.
  destruct (Z.testbit u 9); reflexivity.
Qed.

(** C1, as stated, fails: on a unit with bit 9 and bit 10 set the decoded
    offset is 256, where the specified formula gives 2. *)
Lemma unitOffset_not_as_specified :
  0 <= 1536 < 2 ^ 32 /\ unitOffset 1536 = 256 /\ offset_as_specified 1536 = 2 /\
  unitOffset 1536 <> offset_as_specified 1536.
Proof. repeat split; try discriminate; reflexivity. Qed.

(** C1, amended: for every unit [u] the decoded offset is
    [((u >> 10) << (8 * ((u >> 9) & 1))) & 0xFFFFFFFF], the payload shifted
    left by 0 or by 8 bits depending on bit 9, and this is the offset that
    [followChar] (every transition) and [value] (every value read) use. *)
Theorem unitOffset_extension_shifts_by_8 :
  (forall u, unitOffset u = offset_by_byte u) /\
  (forall d label idx,
     followChar d label idx =
       let! u := index (units d) idx in
       let next := Z.land (Z.lxor (Z.lxor idx (offset_by_byte u)) label)
                          0xFFFFFFFF in
       let! un := index (units d) next in
       if unitLabel un =? label then Val (Some next) else Val None) /\
  (forall d idx,
     value d idx =
       let! u := index (units d) idx in
       let! v := index (units d)
                   (Z.land (Z.lxor idx (offset_by_byte u)) 0xFFFFFFFF) in
       Val (unitValue v)).
Proof.
  split; [exact unitOffset_by_byte |].
  split.
  - intros d label idx. unfold followChar.
    destruct (index (units d) idx) as [u | |]; simpl; [| reflexivity ..].
    now rewrite unitOffset_by_byte.
  - intros d idx. unfold value.
    destruct (index (units d) idx) as [u | |]; simpl; [| reflexivity ..].
    now rewrite unitOffset_by_byte.
Qed.


(** ** The accusative of adjectives *)

(** C7: [inflectAdj] resolves a requested accusative as specified: plural
    and singular masculine take the nominative for an inanimate head and
    the genitive otherwise, singular neuter takes the nominative, singular
    feminine keeps the accusative; any other case is passed on as it is; a
    plural request clears the gender; the animacy passed to [inflect] is
    always empty. *)
Theorem inflectAdj_accusative_rule (fuel : nat) (a : Analyzer)
    (word cas number gender animacy : string) :
  (inflectAdj fuel a word "accs" "plur" gender "inan"
     = inflect fuel a word "nomn" "plur" "" "") /\
  (animacy <> "inan" ->
   inflectAdj fuel a word "accs" "plur" gender animacy
     = inflect fuel a word "gent" "plur" "" "") /\
  (inflectAdj fuel a word "accs" "sing" "masc" "inan"
     = inflect fuel a word "nomn" "sing" "masc" "") /\
  (animacy <> "inan" ->
   inflectAdj fuel a word "accs" "sing" "masc" animacy
     = inflect fuel a word "gent" "sing" "masc" "") /\
  (inflectAdj fuel a word "accs" "sing" "neut" animacy
     = inflect fuel a word "nomn" "sing" "neut" "") /\
  (inflectAdj fuel a word "accs" "sing" "femn" animacy
     = inflect fuel a word "accs" "sing" "femn" "") /\
  (cas <> "accs" ->
   inflectAdj fuel a word cas "plur" gender animacy
     = inflect fuel a word cas "plur" "" "") /\
  (cas <> "accs" -> number <> "plur" ->
   inflectAdj fuel a word cas number gender animacy
     = inflect fuel a word cas number gender "") /\
  (exists c g, inflectAdj fuel a word cas number gender animacy
     = inflect fuel a word c number g "").
Proof.
  assert (Hne : forall x y : string, x <> y -> String.eqb x y = false)
    by (intros x y; apply String.eqb_neq).
  split; [reflexivity |].
  split; [intros H; unfold inflectAdj; now rewrite (Hne _ _ H) |].
  split; [reflexivity |].
  split; [intros H; unfold inflectAdj; now rewrite (Hne _ _ H) |].
  split; [reflexivity |].
  split; [reflexivity |].
  split; [intros H; unfold inflectAdj; now rewrite (Hne _ _ H) |].
  split.
  - intros H1 H2. unfold inflectAdj.
    now rewrite (Hne _ _ H1), (Hne _ _ H2).
  - unfold inflectAdj. eauto.
Qed.

(** The rule on the small dictionary: an accusative plural for an animate
    head is the genitive plural of [красивая]. *)
Lemma inflectAdj_accusative_rule_witness :
  inflectAdj 100 demo "красивая" "accs" "plur" "femn" "anim" = Val "красивых" /\
  inflectAdj 100 demo "красивая" "datv" "plur" "femn" "anim" = Val "красивым" /\
  inflectAdj 100 demo "красивая" "datv" "sing" "femn" "anim" = Val "красивой".
Proof.
  destruct (inflectAdj_accusative_rule 100 demo "красивая" "datv" "sing"
              "femn" "anim") as (_ & H2 & _ & _ & _ & _ & H7 & H8 & _).
  split; [| split].
  - rewrite H2; [reflexivity | discriminate].
  - rewrite H7; [reflexivity | discriminate].
  - rewrite H8; [reflexivity | discriminate | discriminate].
Defined.

(** ** Strings: prefixes, suffixes and slices *)

Lemma substring_0_0 (s : string) : substring 0 0 s = "".
Proof. destruct s; reflexivity. Qed.

Lemma substring_empty (n m : nat) : substring n m "" = "".
Proof. destruct n, m; reflexivity. Qed.

Lemma substring_full (s : string) : substring 0 (String.length s) s = s.
Proof. induction s as [| c s IH]; simpl; [reflexivity | now rewrite IH]. Qed.

Lemma append_String (c : ascii) (s t : string) :
  String c s +:+ t = String c (s +:+ t).
Proof. reflexivity. Qed.

Lemma append_empty_l (s : string) : "" +:+ s = s.
Proof. reflexivity. Qed.

Lemma substring_split (s : string) (a n m : nat) :
  substring a (n + m) s = substring a n s +:+ substring (a + n) m s.
Proof.
  revert a n. induction s as [| c s IH]; intros a n.
  - now rewrite !substring_empty.
  - destruct a as [| a]; simpl.
    + destruct n as [| n]; simpl; [reflexivity |].
      rewrite append_String. f_equal. apply (IH 0%nat n).
    + apply IH.
Qed.

(** A word that passes both checks of [extractStem], with affixes that do
    not overlap, is its prefix, the slice between the affixes, and its
    suffix. *)
Lemma affixes_rebuild (word prefix suffix : string) :
  HasPrefix word prefix = true ->
  HasSuffix word suffix = true ->
  (String.length prefix + String.length suffix <= String.length word)%nat ->
  prefix +:+
  substring (String.length prefix)
    (String.length word - String.length suffix - String.length prefix) word
  +:+ suffix = word.
Proof.
  intros Hp Hs Hlen.
  unfold HasPrefix in Hp. apply String.prefix_correct in Hp.
  unfold HasSuffix in Hs. apply andb_prop in Hs as [_ Hs].
  apply String.eqb_eq in Hs.
  set (lp := String.length prefix) in *.
  set (ls := String.length suffix) in *.
  set (lw := String.length word) in *.
  transitivity (substring 0 lw word); [| apply substring_full].
  replace lw with (lp + ((lw - ls - lp) + ls))%nat at 2 by lia.
  rewrite (substring_split word 0 lp), (substring_split word (0 + lp)).
  change (0 + lp)%nat with lp.
  replace (lp + (lw - ls - lp))%nat with (lw - ls)%nat by lia.
  now rewrite Hp, Hs.
Qed.

Lemma length_append (s t : string) :
  String.length (s +:+ t) = (String.length s + String.length t)%nat.
Proof.
  induction s as [| c s IH]; [reflexivity |].
  rewrite append_String. simpl. now rewrite IH.
Qed.

Lemma substring_append_l (s t : string) :
  substring 0 (String.length s) (s +:+ t) = s.
Proof.
  induction s as [| c s IH].
  - rewrite append_empty_l. apply substring_0_0.
  - rewrite append_String. simpl. now rewrite IH.
Qed.


Lemma HasPrefix_append (p t : string) : HasPrefix (p +:+ t) p = true.
Proof.
  unfold HasPrefix. apply String.prefix_correct. apply substring_append_l.
Qed.



Lemma len_nonneg (s : string) : 0 <= len s.
Proof. unfold len. lia. Qed.

(** ** Stem extraction *)

(** What a successful [extractStem] has read and checked. *)
Lemma extractStem_Some (a : Analyzer) (word : string) (para : list Z)
    (n fi : Z) (stem : string) :
  extractStem a word para n fi = Val (Some stem) ->
  exists sid suffix pid prefix,
    index para fi = Val sid /\
    index (suffixes a) sid = Val suffix /\
    index para (2 * n + fi) = Val pid /\
    index paradigmPrefixes pid = Val prefix /\
    HasPrefix word prefix = true /\
    HasSuffix word suffix = true /\
    len prefix + len suffix <= len word /\
    word = prefix +:+ stem +:+ suffix.
Proof.
  unfold extractStem. intros H.
  destruct (index para fi) as [sid | |] eqn:E1; simpl in H; try discriminate.
  destruct (index (suffixes a) sid) as [suffix | |] eqn:E2; simpl in H;
    try discriminate.
  destruct (index para (2 * n + fi)) as [pid | |] eqn:E3; simpl in H;
    try discriminate.
  destruct (index paradigmPrefixes pid) as [prefix | |] eqn:E4; simpl in H;
    try discriminate.
  destruct (HasPrefix word prefix) eqn:Hp; simpl in H; try discriminate.
  destruct (HasSuffix word suffix) eqn:Hs; simpl in H; try discriminate.
  unfold slice in H.
  destruct ((0 <=? len prefix) && (len prefix <=? len word - len suffix)
            && (len word - len suffix <=? len word)) eqn:Hb;
    simpl in H; try discriminate.
  apply andb_prop in Hb as [Hb _]. apply andb_prop in Hb as [_ Hb].
  apply Z.leb_le in Hb.
  match type of H with
  | (if ?c then _ else _) = _ => destruct c; try discriminate
  end.
  injection H as <-.
  exists sid, suffix, pid, prefix.
  do 6 (split; [first [assumption | reflexivity] |]).
  split; [lia |].
  symmetry. unfold len in *.
  replace (Z.to_nat (Z.of_nat (String.length prefix)))
    with (String.length prefix) by lia.
  replace (Z.to_nat (Z.of_nat (String.length word)
                     - Z.of_nat (String.length suffix)
                     - Z.of_nat (String.length prefix)))
    with (String.length word - String.length suffix
          - String.length prefix)%nat by lia.
  apply affixes_rebuild; [assumption .. | lia].
Qed.

(** The guard on the length of the stem never fires: once both checks have
    passed, [extractStem] returns a stem when the affixes fit in the word,
    and panics on the slice when they overlap. *)
Lemma extractStem_checks_passed (a : Analyzer) (word : string)
    (para : list Z) (n fi sid pid : Z) (suffix prefix : string) :
  index para fi = Val sid ->
  index (suffixes a) sid = Val suffix ->
  index para (2 * n + fi) = Val pid ->
  index paradigmPrefixes pid = Val prefix ->
  HasPrefix word prefix = true ->
  HasSuffix word suffix = true ->
  extractStem a word para n fi =
    if len prefix + len suffix <=? len word
    then Val (Some (substring (Z.to_nat (len prefix))
                      (Z.to_nat (len word - len suffix - len prefix)) word))
    else Panic.
Proof.
  intros H1 H2 H3 H4 Hp Hs. unfold extractStem.
  rewrite H1; simpl. rewrite H2; simpl. rewrite H3; simpl. rewrite H4; simpl.
  rewrite Hp, Hs. simpl. unfold slice.
  pose proof (len_nonneg prefix). pose proof (len_nonneg suffix).
  pose proof (len_nonneg word).
  destruct (Z.leb_spec (len prefix + len suffix) (len word)).
  - replace ((0 <=? len prefix) && (len prefix <=? len word - len suffix)
             && (len word - len suffix <=? len word)) with true.
    2:{ symmetry. rewrite !andb_true_iff, !Z.leb_le. lia. }
    simpl.
    match goal with
    | |- (if ?c then _ else _) = _ => destruct c eqn:Hc
    end; [| reflexivity].
    apply Z.ltb_lt in Hc.
    match type of Hc with len ?s < 0 => pose proof (len_nonneg s) end. lia.
  - replace ((0 <=? len prefix) && (len prefix <=? len word - len suffix)
             && (len word - len suffix <=? len word)) with false.
    2:{ symmetry. rewrite !andb_false_iff, !Z.leb_gt. lia. }
    reflexivity.
Qed.


(** C3 fails on the code: [по] begins with the prefix [по] and ends with
    the suffix [о], the two overlap, and the slice [word[4:2]] panics
    before the guard is reached; so does [WordForms] on a dictionary that
    gives [по] this paradigm. *)
Theorem extractStem_overlap_panics :
  HasPrefix "по" "по" = true /\
  HasSuffix "по" "о" = true /\
  len "по" + len "о" > len "по" /\
  extractStem demoOverlap "по" [21; 32; 1] 1 0 = Panic /\
  WordForms ruLower 100 demoOverlap "по" = Panic.
Proof. repeat split; vm_compute; reflexivity. Qed.

(** ** Dictionaries that break an invariant *)

(** C4 fails on the code: [Tag] has no check of the form index. With the
    one-form paradigm [[2; 1; 0]] (N = 1) and the entry (0, 1) of [кошки],
    [WordForms] returns nothing, while [Tag] reads [para[2]], the prefix
    id, as a tag id and returns the tag it names; with an empty paradigm
    the read is out of range and [Tag] panics. *)
Theorem Tag_lacks_form_index_check :
  get 100 (words demoOneForm) "кошки"
    = Val [{| paradigmID := 0; formIdx := 1 |};
           {| paradigmID := 0; formIdx := 6 |}] /\
  index (paradigms demoOneForm) 0 = Val [2; 1; 0] /\
  WordForms ruLower 100 demoOneForm "кошки" = Val [] /\
  Tag ruLower 100 demoOneForm "кошки" = Val "NOUN,inan,femn sing,nomn" /\
  index (paradigms demoEmptyParadigm) 0 = Val [] /\
  WordForms ruLower 100 demoEmptyParadigm "кошки" = Val [] /\
  Tag ruLower 100 demoEmptyParadigm "кошки" = Panic.
Proof. repeat split; vm_compute; reflexivity. Qed.

(** C5 fails on the code: the public operations index the tables without a
    check. A transition past the end of the unit array, a paradigm id, a
    suffix id and a tag id out of range each end in a panic; only [Tag]
    checks the tag id it reads. *)
Theorem public_operations_panic_on_malformed_data :
  (* a transition past the unit array *)
  length (units (dict (words demoUnpadded))) = 94%nat /\
  WordForms ruLower 100 demoUnpadded "a" = Panic /\
  Tag ruLower 100 demoUnpadded "a" = Panic /\
  PhraseFormsConcordant ruLower 100 demoUnpadded "a" = Panic /\
  (* a paradigm id out of range *)
  WordForms ruLower 100 demoNoParadigms "кошка" = Panic /\
  Tag ruLower 100 demoNoParadigms "кошка" = Panic /\
  (* a suffix id out of range *)
  WordForms ruLower 100 demoShortSuffixes "кошка" = Panic /\
  (* a tag id out of range: checked by Tag, not by inflect *)
  Tag ruLower 100 demoShortGramtab "кошка" = Val "NOUN,inan,femn sing,nomn" /\
  inflect 100 demoShortGramtab "кошка" "loct" "plur" "" "" = Panic /\
  PhraseFormsConcordant ruLower 100 demoShortGramtab "по кошка" = Panic.
Proof. repeat split; vm_compute; reflexivity. Qed.

(** ** The first element of a phrase's forms *)

(** C2 fails on the code for a single known token that is not form 0 of its
    paradigm: the phrase [кошки] is already trimmed and in lower case, it
    is one token, and the result is the list of [WordForms], which starts
    with the nominative [кошка]. *)
Theorem PhraseFormsConcordant_single_token_not_first :
  ToLower ruLower (TrimSpace "кошки") = "кошки" /\
  Fields "кошки" = ["кошки"] /\
  PhraseFormsConcordant ruLower 100 demo "кошки"
    = Val ["кошка"; "кошки"; "кошке"; "кошку"; "кошкой"; "кошек";
           "кошкам"; "кошками"; "кошках"] /\
  (let! res := PhraseFormsConcordant ruLower 100 demo "кошки" in
   Val (head res)) = Val (Some "кошка").
Proof. repeat split; vm_compute; reflexivity. Qed.

(** ** The forms of a word *)

Lemma dedupFirstSeen_elem (l : list string) (x : string) :
  x ∈ dedupFirstSeen l <-> x ∈ l.
Proof.
  induction l as [| y l IH]; simpl; [reflexivity |].
  rewrite !elem_of_cons, list_elem_of_filter, IH.
  destruct (decide (x = y)); tauto.
Qed.

Lemma dedupFirstSeen_NoDup (l : list string) : NoDup (dedupFirstSeen l).
Proof.
  induction l as [| y l IH]; simpl; constructor.
  - rewrite list_elem_of_filter. tauto.
  - now apply NoDup_filter.
Qed.

Lemma formsLoop_dedup (a : Analyzer) (para : list Z) (n : Z) (stem : string)
    (idxs : list Z) (fs : list string) :
  formsAt a para n stem idxs fs ->
  forall (seen : gset string) (forms : list string),
    (forall x, x ∈ seen <-> x ∈ forms) ->
    formsLoop a para n stem idxs seen forms
      = Val (forms ++ filter (fun x => x ∉ forms) (dedupFirstSeen fs)).
Proof.
  induction 1 as [| i f idxs fs Hf _ IH]; intros seen forms Hseen; simpl.
  - now rewrite app_nil_r.
  - rewrite Hf. simpl. destruct (decide (f ∈ seen)) as [Hin | Hnin].
    + rewrite (IH seen forms Hseen).
      apply (f_equal Val), (f_equal (app forms)).
      apply Hseen in Hin.
      rewrite filter_cons_False by tauto.
      rewrite list_filter_filter. apply list_filter_iff.
      intros x. split; [| tauto].
      intros Hx. split; [assumption |]. congruence.
    + rewrite (IH ({[f]} ∪ seen) (forms ++ [f])).
      2:{ intros x. rewrite elem_of_union, elem_of_singleton, elem_of_app,
            list_elem_of_singleton, Hseen. tauto. }
      rewrite <- app_assoc.
      apply (f_equal Val), (f_equal (app forms)). simpl.
      rewrite filter_cons_True by (rewrite <- Hseen; assumption).
      rewrite list_filter_filter. apply (f_equal (cons f)).
      apply list_filter_iff.
      intros x. rewrite elem_of_app, list_elem_of_singleton. tauto.
Qed.

Lemma filter_not_in_nil (l : list string) :
  filter (fun x => x ∉ ([] : list string)) l = l.
Proof.
  induction l as [| y l IH]; [reflexivity |].
  rewrite filter_cons_True by apply not_elem_of_nil. now rewrite IH.
Qed.

(** From the empty seen-set the loop returns the forms de-duplicated in
    first-seen order. *)
Lemma formsLoop_from_empty (a : Analyzer) (para : list Z) (n : Z)
    (stem : string) (idxs : list Z) (fs : list string) :
  formsAt a para n stem idxs fs ->
  formsLoop a para n stem idxs ∅ [] = Val (dedupFirstSeen fs).
Proof.
  intros Hfs. rewrite (formsLoop_dedup _ _ _ _ _ _ Hfs ∅ []).
  - simpl. now rewrite filter_not_in_nil.
  - intros x. rewrite elem_of_nil. set_solver.
Qed.

(** A loop that returns has built every form. *)
Lemma formsLoop_Val (a : Analyzer) (para : list Z) (n : Z) (stem : string)
    (idxs : list Z) :
  forall (seen : gset string) (forms res : list string),
    formsLoop a para n stem idxs seen forms = Val res ->
    exists fs, formsAt a para n stem idxs fs.
Proof.
  induction idxs as [| i idxs IH]; intros seen forms res H; simpl in H.
  - exists []. constructor.
  - destruct (formAt a para n stem i) as [f | |] eqn:Hf; simpl in H;
      try discriminate.
    destruct (decide (f ∈ seen)).
    + destruct (IH _ _ _ H) as [fs Hfs]. exists (f :: fs).
      now constructor.
    + destruct (IH _ _ _ H) as [fs Hfs]. exists (f :: fs).
      now constructor.
Qed.


Lemma formsAt_lookup (a : Analyzer) (para : list Z) (n : Z) (stem : string)
    (idxs : list Z) (fs : list string) (i : Z) (f : string) :
  formsAt a para n stem idxs fs ->
  i ∈ idxs -> formAt a para n stem i = Val f -> f ∈ fs.
Proof.
  induction 1 as [| j g idxs fs Hg _ IH]; intros Hi Hf.
  - inversion Hi.
  - apply elem_of_cons in Hi as [-> | Hi].
    + rewrite Hf in Hg. injection Hg as ->. left.
    + right. now apply IH.
Qed.

(** The form at the index of the word is the word: the round trip of stem
    extraction. *)
Lemma formAt_extractStem (a : Analyzer) (word : string) (para : list Z)
    (n fi : Z) (stem : string) :
  extractStem a word para n fi = Val (Some stem) ->
  formAt a para n stem fi = Val word.
Proof.
  intros H.
  destruct (extractStem_Some _ _ _ _ _ _ H)
    as (sid & suffix & pid & prefix & H1 & H2 & H3 & H4 & _ & _ & _ & Hw).
  unfold formAt. rewrite H3; simpl. rewrite H4; simpl.
  rewrite H1; simpl. rewrite H2; simpl. now rewrite Hw.
Qed.

(** [WordForms] on a word that the index knows, once the paradigm of its
    first entry is read. *)
Lemma WordForms_found (lower : Z -> Z) (fuel : nat) (a : Analyzer)
    (w word : string) (e : wordEntry) (es : list wordEntry) (para : list Z) :
  word = ToLower lower (TrimSpace w) ->
  word <> "" ->
  get fuel (words a) word = Val (e :: es) ->
  index (paradigms a) (paradigmID e) = Val para ->
  WordForms lower fuel a w =
    if Z.of_nat (length para) / 3 <=? formIdx e then Val []
    else
      let! r := extractStem a word para (Z.of_nat (length para) / 3)
                  (formIdx e) in
      match r with
      | None => Val []
      | Some stem =>
          formsLoop a para (Z.of_nat (length para) / 3) stem
            (seqZ 0 (Z.of_nat (length para) / 3)) ∅ []
      end.
Proof.
  intros -> Hne Hget Hpara. unfold WordForms.
  apply String.eqb_neq in Hne. rewrite Hne, Hget. simpl.
  now rewrite Hpara.
Qed.



(** C6: for the entry (paradigm, form index) that [WordForms] uses for the
    normalized word, if stem extraction succeeds then the form rebuilt at
    that index, prefix + stem + suffix, is the word, and the forms that
    [WordForms] returns contain the word. *)
Theorem WordForms_round_trip (lower : Z -> Z) (fuel : nat) (a : Analyzer)
    (w word : string) (e : wordEntry) (es : list wordEntry) (para : list Z)
    (stem : string) :
  word = ToLower lower (TrimSpace w) ->
  word <> "" ->
  get fuel (words a) word = Val (e :: es) ->
  index (paradigms a) (paradigmID e) = Val para ->
  formIdx e < Z.of_nat (length para) / 3 ->
  extractStem a word para (Z.of_nat (length para) / 3) (formIdx e)
    = Val (Some stem) ->
  formAt a para (Z.of_nat (length para) / 3) stem (formIdx e) = Val word /\
  (forall forms, WordForms lower fuel a w = Val forms -> word ∈ forms).
Proof.
  intros Hword Hne Hget Hpara Hfi Hstem.
  pose proof (formAt_extractStem _ _ _ _ _ _ Hstem) as Hform.
  split; [assumption |].
  intros forms H.
  rewrite (WordForms_found _ _ _ _ _ _ _ _ Hword Hne Hget Hpara) in H.
  destruct (Z.leb_spec (Z.of_nat (length para) / 3) (formIdx e)); [lia |].
  rewrite Hstem in H. simpl in H.
  destruct (formsLoop_Val _ _ _ _ _ _ _ _ H) as [fs Hfs].
  rewrite (formsLoop_from_empty _ _ _ _ _ _ Hfs) in H.
  injection H as <-.
  apply dedupFirstSeen_elem.
  apply (formsAt_lookup _ _ _ _ _ _ (formIdx e) _ Hfs); [| assumption].
  apply elem_of_seqZ.
  destruct (extractStem_Some _ _ _ _ _ _ Hstem) as (sid & _ & _ & _ & H1 & _).
  apply index_Val in H1. lia.
Qed.

(** The round trip on the small dictionary: [кошки] is form 1 of its
    paradigm, with the stem [кош]. *)
Lemma WordForms_round_trip_witness :
  formAt demo demoNoun 12 "кош" 1 = Val "кошки" /\
  "кошки" ∈ ["кошка"; "кошки"; "кошке"; "кошку"; "кошкой"; "кошек";
             "кошкам"; "кошками"; "кошках"].
Proof.
  destruct (WordForms_round_trip ruLower 100 demo "кошки" "кошки"
              {| paradigmID := 0; formIdx := 1 |}
              [{| paradigmID := 0; formIdx := 6 |}]
              demoNoun "кош") as [H1 H2].
  - vm_compute; reflexivity.
  - discriminate.
  - vm_compute; reflexivity.
  - vm_compute; reflexivity.
  - vm_compute; reflexivity.
  - vm_compute; reflexivity.
  - split; [exact H1 |]. apply H2. vm_compute; reflexivity.
Defined.

(** Whatever the dictionary, a list that [WordForms] returns has no string
    twice. *)
Lemma WordForms_NoDup (lower : Z -> Z) (fuel : nat) (a : Analyzer)
    (w : string) (forms : list string) :
  WordForms lower fuel a w = Val forms -> NoDup forms.
Proof.
  unfold WordForms. intros H.
  destruct (String.eqb (ToLower lower (TrimSpace w)) "");
    [injection H as <-; constructor |].
  destruct (get fuel (words a) (ToLower lower (TrimSpace w)))
    as [[| e es] | |]; cbn [rbind] in H; try discriminate;
    [injection H as <-; constructor |].
  destruct (index (paradigms a) (paradigmID e)) as [para | |];
    cbn [rbind] in H; try discriminate.
  destruct (Z.of_nat (length para) / 3 <=? formIdx e);
    [injection H as <-; constructor |].
  destruct (extractStem a (ToLower lower (TrimSpace w)) para
              (Z.of_nat (length para) / 3) (formIdx e))
    as [[stem |] | |]; cbn [rbind] in H; try discriminate;
    [| injection H as <-; constructor].
  destruct (formsLoop_Val _ _ _ _ _ _ _ _ H) as [fs Hfs].
  rewrite (formsLoop_from_empty _ _ _ _ _ _ Hfs) in H.
  injection H as <-. apply dedupFirstSeen_NoDup.
Qed.





(** ** Inflection *)

(** The forms before the first match are passed over. *)
Lemma inflectLoop_first_match (a : Analyzer) (para : list Z) (n : Z)
    (stem word cas number gender animacy : string)
    (before after : list Z) (i : Z) (tag : string) :
  Forall (fun j => exists t, tagAt a para n j = Val t /\
                    tagMatches t cas number gender animacy = false) before ->
  tagAt a para n i = Val tag ->
  tagMatches tag cas number gender animacy = true ->
  inflectLoop a para n stem word cas number gender animacy
              (before ++ i :: after)
    = formAt a para n stem i.
Proof.
  intros Hbefore Htag Hmatch.
  induction Hbefore as [| j before (t & Ht & Hno) _ IH]; simpl.
  - now rewrite Htag; simpl; rewrite Hmatch.
  - rewrite Ht; simpl. now rewrite Hno.
Qed.

Lemma inflectLoop_no_match (a : Analyzer) (para : list Z) (n : Z)
    (stem word cas number gender animacy : string) (idxs : list Z) :
  Forall (fun j => exists t, tagAt a para n j = Val t /\
                    tagMatches t cas number gender animacy = false) idxs ->
  inflectLoop a para n stem word cas number gender animacy idxs = Val word.
Proof.
  induction 1 as [| j idxs (t & Ht & Hno) _ IH]; simpl; [reflexivity |].
  rewrite Ht; simpl. now rewrite Hno.
Qed.

(** C8: [inflect] scans the forms of the paradigm in the order
    [i = 0..N] and returns the first one whose tag satisfies [tagMatches],
    for which an empty constraint is satisfied by every tag; an unknown
    word, a failed stem extraction and a scan without a match give the
    word back. *)
Theorem inflect_first_match (fuel : nat) (a : Analyzer)
    (word cas number gender animacy : string) :
  (forall tag,
     tagMatches tag cas number gender animacy = true <->
     (cas = "" \/ Contains tag cas = true) /\
     (number = "" \/ Contains tag number = true) /\
     (gender = "" \/ Contains tag gender = true) /\
     (animacy = "" \/ Contains tag animacy = true)) /\
  (get fuel (words a) word = Val [] ->
   inflect fuel a word cas number gender animacy = Val word) /\
  (forall e es para,
     get fuel (words a) word = Val (e :: es) ->
     index (paradigms a) (paradigmID e) = Val para ->
     extractStem a word para (Z.of_nat (length para) / 3) (formIdx e)
       = Val None ->
     inflect fuel a word cas number gender animacy = Val word) /\
  (forall e es para stem,
     get fuel (words a) word = Val (e :: es) ->
     index (paradigms a) (paradigmID e) = Val para ->
     extractStem a word para (Z.of_nat (length para) / 3) (formIdx e)
       = Val (Some stem) ->
     (forall i tag,
        0 <= i < Z.of_nat (length para) / 3 ->
        (forall j, 0 <= j < i ->
           exists t, tagAt a para (Z.of_nat (length para) / 3) j = Val t /\
                     tagMatches t cas number gender animacy = false) ->
        tagAt a para (Z.of_nat (length para) / 3) i = Val tag ->
        tagMatches tag cas number gender animacy = true ->
        inflect fuel a word cas number gender animacy
          = formAt a para (Z.of_nat (length para) / 3) stem i) /\
     ((forall j, 0 <= j < Z.of_nat (length para) / 3 ->
         exists t, tagAt a para (Z.of_nat (length para) / 3) j = Val t /\
                   tagMatches t cas number gender animacy = false) ->
      inflect fuel a word cas number gender animacy = Val word)).
Proof.
  split; [| split; [| split]].
  - intros tag. unfold tagMatches.
    rewrite !andb_true_iff, !orb_true_iff, !String.eqb_eq. tauto.
  - intros Hget. unfold inflect. now rewrite Hget.
  - intros e es para Hget Hpara Hstem. unfold inflect.
    rewrite Hget; simpl. rewrite Hpara; simpl. now rewrite Hstem.
  - intros e es para stem Hget Hpara Hstem.
    set (n := Z.of_nat (length para) / 3) in *.
    assert (Hunfold : inflect fuel a word cas number gender animacy =
              inflectLoop a para n stem word cas number gender animacy
                          (seqZ 0 n)).
    { unfold inflect. rewrite Hget; simpl. rewrite Hpara; simpl.
      fold n. now rewrite Hstem. }
    split.
    + intros i tag Hi Hbefore Htag Hmatch. rewrite Hunfold.
      fold n in Hi. clearbody n.
      replace (seqZ 0 n) with (seqZ 0 (i + Z.succ (n - i - 1)))
        by (f_equal; lia).
      rewrite seqZ_app by lia. rewrite (seqZ_cons (0 + i)) by lia.
      apply inflectLoop_first_match with (tag := tag); try assumption.
      apply Forall_forall. intros j Hj. apply elem_of_seqZ in Hj.
      apply Hbefore. lia.
    + intros Hnone. rewrite Hunfold. fold n in Hnone. clearbody n.
      apply inflectLoop_no_match.
      apply Forall_forall. intros j Hj. apply elem_of_seqZ in Hj.
      apply Hnone. lia.
Qed.

(** On the small dictionary: the dative singular of [кошка] is its form 2,
    after two forms whose tags do not match; a word that the index does
    not know comes back as it is. *)
Lemma inflect_first_match_witness :
  inflect 100 demo "кошка" "datv" "sing" "" "" = Val "кошке" /\
  inflect 100 demo "стол" "datv" "sing" "" "" = Val "стол".
Proof.
  split.
  - destruct (inflect_first_match 100 demo "кошка" "datv" "sing" "" "")
      as (_ & _ & _ & H).
    assert (Hget : get 100 (words demo) "кошка"
                   = Val [{| paradigmID := 0; formIdx := 0 |}])
      by (vm_compute; reflexivity).
    assert (Hpara : index (paradigms demo) 0 = Val demoNoun)
      by (vm_compute; reflexivity).
    assert (Hstem : extractStem demo "кошка" demoNoun
                      (Z.of_nat (length demoNoun) / 3) 0 = Val (Some "кош"))
      by (vm_compute; reflexivity).
    destruct (H _ _ _ _ Hget Hpara Hstem) as [Hfirst _].
    rewrite (Hfirst 2 "NOUN,inan,femn sing,datv").
    + vm_compute; reflexivity.
    + change (Z.of_nat (length demoNoun) / 3) with 12. lia.
    + intros j Hj. assert (Hcases : j = 0 \/ j = 1) by lia.
      destruct Hcases as [-> | ->]; eexists; split; vm_compute; reflexivity.
    + vm_compute; reflexivity.
    + vm_compute; reflexivity.
  - destruct (inflect_first_match 100 demo "стол" "datv" "sing" "" "")
      as (_ & H & _).
    apply H. vm_compute; reflexivity.
Defined.

(** ** Phrase concordance *)

Lemma addUnseen_extends (f : string) (st : gset string * list string) :
  exists rest, (addUnseen f st).2 = st.2 ++ rest /\ (length rest <= 1)%nat.
Proof.
  unfold addUnseen. destruct (decide (f ∈ st.1)).
  - exists []. rewrite app_nil_r. split; [reflexivity | simpl; lia].
  - exists [f]. split; [reflexivity | simpl; lia].
Qed.

(** A pass over the cases appends at most one phrase per case. *)
Lemma casesLoop_extends (fuel : nat) (a : Analyzer)
    (head : wordInfo) (ws : list string) (infos : list wordInfo)
    (number : string) (cases : list string) :
  forall st st',
    casesLoop fuel a head ws infos number cases st = Val st' ->
    exists rest, st'.2 = st.2 ++ rest /\ (length rest <= length cases)%nat.
Proof.
  induction cases as [| cas cases IH]; intros st st' H; simpl in H.
  - injection H as <-. exists []. rewrite app_nil_r. split; [reflexivity |].
    simpl. lia.
  - destruct (declinePhrase fuel a head cas number ws infos)
      as [declined | |]; simpl in H; try discriminate.
    destruct (IH _ _ H) as (rest & Hrest & Hlen).
    destruct (addUnseen_extends (Join declined) st) as (r1 & Hr1 & Hlen1).
    exists (r1 ++ rest). rewrite Hrest, Hr1, <- app_assoc.
    split; [reflexivity |]. rewrite length_app. simpl. lia.
Qed.

Lemma numbersLoop_extends (fuel : nat) (a : Analyzer)
    (head : wordInfo) (ws : list string) (infos : list wordInfo)
    (numbers cases : list string) :
  forall st st',
    numbersLoop fuel a head ws infos numbers cases st = Val st' ->
    exists rest, st'.2 = st.2 ++ rest /\
                 (length rest <= length numbers * length cases)%nat.
Proof.
  induction numbers as [| number numbers IH]; intros st st' H; simpl in H.
  - injection H as <-. exists []. rewrite app_nil_r. split; [reflexivity |].
    simpl. lia.
  - destruct (casesLoop fuel a head ws infos number cases st)
      as [st1 | |] eqn:E; simpl in H; try discriminate.
    destruct (casesLoop_extends _ _ _ _ _ _ _ _ _ E)
      as (r1 & Hr1 & Hlen1).
    destruct (IH _ _ H) as (rest & Hrest & Hlen).
    exists (r1 ++ rest). rewrite Hrest, Hr1, <- app_assoc.
    split; [reflexivity |]. rewrite length_app. simpl. lia.
Qed.

(** The scan returns the index it was given or one of a token it has seen,
    and the latter as soon as one of the tokens can be the head. *)
Lemma scanWords_headIdx (lower : Z -> Z) (fuel : nat) (a : Analyzer)
    (ws : list string) :
  forall i h0 infos h,
    scanWords lower fuel a ws i h0 = Val (infos, h) ->
    (h = h0 \/ i <= h) /\
    ((exists w, w ∈ ws /\ isHead lower fuel a w) -> i <= h).
Proof.
  induction ws as [| w ws IH]; intros i h0 infos h H.
  - injection H as <- <-. split; [now left |].
    intros (w & Hw & _). inversion Hw.
  - cbn [scanWords] in H.
    destruct (isServiceWord w) eqn:Hsv.
    { destruct (scanWords lower fuel a ws (i + 1) h0) as [[infos' h'] | |]
        eqn:E; cbn [rbind] in H; try discriminate.
      injection H as <- <-.
      destruct (IH _ _ _ _ E) as [H1 H2]. split; [lia |].
      intros (w' & Hw' & Hhead). apply elem_of_cons in Hw' as [-> | Hw'].
      - destruct Hhead as [Hns _]. congruence.
      - assert (i + 1 <= h') by (apply H2; eauto). lia. }
    destruct (Tag lower fuel a w) as [tag | |] eqn:Htag; cbn [rbind] in H;
      try discriminate.
    destruct (String.eqb tag "") eqn:Hempty.
    { destruct (scanWords lower fuel a ws (i + 1) h0) as [[infos' h'] | |]
        eqn:E; cbn [rbind] in H; try discriminate.
      injection H as <- <-.
      destruct (IH _ _ _ _ E) as [H1 H2]. split; [lia |].
      intros (w' & Hw' & Hhead). apply elem_of_cons in Hw' as [-> | Hw'].
      - destruct Hhead as (_ & tag' & Htag' & Hne & _).
        rewrite Htag in Htag'. injection Htag' as <-.
        apply String.eqb_eq in Hempty. contradiction.
      - assert (i + 1 <= h') by (apply H2; eauto). lia. }
    destruct (scanWords lower fuel a ws (i + 1)
                (if isNounPOS (tagPOS tag) then i else h0))
      as [[infos' h'] | |] eqn:E; cbn [rbind] in H; try discriminate.
    injection H as <- <-.
    destruct (IH _ _ _ _ E) as [H1 H2]. split.
    + destruct (isNounPOS (tagPOS tag)); lia.
    + intros (w' & Hw' & Hhead). apply elem_of_cons in Hw' as [-> | Hw'].
      * destruct Hhead as (_ & tag' & Htag' & _ & Hnoun).
        rewrite Htag in Htag'. injection Htag' as <-.
        rewrite Hnoun in H1. lia.
      * assert (i + 1 <= h') by (apply H2; eauto). lia.
Qed.

(** C10: for a phrase of two tokens or more, one of which can be the head,
    the result is the phrase, in lower case and trimmed, followed by at
    most twelve declined phrases (one per number and case), that is at
    most thirteen elements. *)
Theorem PhraseFormsConcordant_at_most_13 (lower : Z -> Z) (fuel : nat)
    (a : Analyzer) (p phrase : string) (res : list string) :
  phrase = ToLower lower (TrimSpace p) ->
  (2 <= length (Fields phrase))%nat ->
  (exists w, w ∈ Fields phrase /\ isHead lower fuel a w) ->
  PhraseFormsConcordant lower fuel a p = Val res ->
  (length res <= 13)%nat /\
  exists rest, res = phrase :: rest /\ (length rest <= 2 * 6)%nat.
Proof.
  intros -> Hlen Hhead H. unfold PhraseFormsConcordant in H.
  set (phrase := ToLower lower (TrimSpace p)) in *.
  destruct (Fields phrase) as [| w1 [| w2 ws]] eqn:Hws;
    [simpl in Hlen; lia | simpl in Hlen; lia |].
  destruct (scanWords lower fuel a (w1 :: w2 :: ws) 0 (-1))
    as [[infos h] | |] eqn:E; try discriminate.
  cbn [rbind] in H.
  destruct (scanWords_headIdx _ _ _ _ _ _ _ _ E) as [_ Hh].
  specialize (Hh Hhead).
  destruct (Z.eqb_spec h (-1)) as [-> | _]; [lia |].
  destruct (index infos h) as [head | |]; try discriminate.
  cbn [rbind] in H.
  destruct (numbersLoop fuel a head (w1 :: w2 :: ws) infos ["sing"; "plur"]
              ["nomn"; "gent"; "datv"; "accs"; "ablt"; "loct"]
              ({[phrase]}, [phrase])) as [st' | |] eqn:En; try discriminate.
  cbn [rbind] in H. injection H as <-.
  destruct (numbersLoop_extends _ _ _ _ _ _ _ _ _ En)
    as (rest & Hrest & Hrlen).
  simpl in Hrest, Hrlen. rewrite Hrest.
  split; [simpl; lia |].
  exists rest. split; [reflexivity | simpl; lia].
Qed.

(** On the small dictionary, for [красивая кошка], whose head is
    [кошка]: eleven phrases. *)
Lemma PhraseFormsConcordant_at_most_13_witness :
  (length ["красивая кошка"; "красивой кошки"; "красивой кошке";
           "красивую кошку"; "красивой кошкой"; "красивые кошки";
           "красивых кошек"; "красивым кошкам"; "красивые кошек";
           "красивыми кошками"; "красивых кошках"] <= 13)%nat.
Proof.
  apply (PhraseFormsConcordant_at_most_13 ruLower 100 demo
           " Красивая кошка " "красивая кошка").
  - vm_compute; reflexivity.
  - assert (E : Fields "красивая кошка" = ["красивая"; "кошка"])
      by (vm_compute; reflexivity).
    rewrite E. simpl. lia.
  - exists "кошка". split.
    + assert (E : Fields "красивая кошка" = ["красивая"; "кошка"])
        by (vm_compute; reflexivity).
      rewrite E. right. left.
    + split; [vm_compute; reflexivity |].
      exists "NOUN,inan,femn sing,nomn".
      split; [vm_compute; reflexivity |].
      split; [discriminate | vm_compute; reflexivity].
  - vm_compute; reflexivity.
Defined.

(** The pass without a head only appends to the list it is given. *)
Lemma flattenForms_extends (lower : Z -> Z) (fuel : nat) (a : Analyzer)
    (ws : list string) :
  forall st st',
    flattenForms lower fuel a ws st = Val st' ->
    exists rest, st'.2 = st.2 ++ rest.
Proof.
  assert (Hfold : forall (forms : list string) st,
            exists rest,
              (foldl (fun s f => addUnseen f s) st forms).2 = st.2 ++ rest).
  { induction forms as [| f forms IH]; intros st; simpl.
    - exists []. now rewrite app_nil_r.
    - destruct (IH (addUnseen f st)) as (rest & Hrest).
      destruct (addUnseen_extends f st) as (r1 & Hr1 & _).
      exists (r1 ++ rest). now rewrite Hrest, Hr1, <- app_assoc. }
  induction ws as [| w ws IH]; intros st st' H; cbn [flattenForms] in H.
  - injection H as <-. exists []. now rewrite app_nil_r.
  - destruct (isServiceWord w); [now apply IH |].
    destruct (WordForms lower fuel a w) as [forms | |]; cbn [rbind] in H;
      try discriminate.
    destruct (IH _ _ H) as (rest & Hrest).
    destruct (Hfold forms st) as (r1 & Hr1).
    exists (r1 ++ rest). now rewrite Hrest, Hr1, <- app_assoc.
Qed.

(** For a phrase of two tokens or more the first element of the result is
    the phrase, in lower case and trimmed, with or without a head. *)
Lemma PhraseFormsConcordant_multi_token_first (lower : Z -> Z) (fuel : nat)
    (a : Analyzer) (p : string) (res : list string) :
  (2 <= length (Fields (ToLower lower (TrimSpace p))))%nat ->
  PhraseFormsConcordant lower fuel a p = Val res ->
  exists rest, res = ToLower lower (TrimSpace p) :: rest.
Proof.
  intros Hlen H. unfold PhraseFormsConcordant in H.
  set (phrase := ToLower lower (TrimSpace p)) in *.
  destruct (Fields phrase) as [| w1 [| w2 ws]] eqn:Hws;
    [simpl in Hlen; lia | simpl in Hlen; lia |].
  destruct (scanWords lower fuel a (w1 :: w2 :: ws) 0 (-1))
    as [[infos h] | |]; try discriminate.
  cbn [rbind] in H.
  destruct (h =? -1).
  - destruct (flattenForms lower fuel a (w1 :: w2 :: ws)
                ({[phrase]}, [phrase])) as [st' | |] eqn:E;
      try discriminate.
    cbn [rbind] in H. injection H as <-.
    destruct (flattenForms_extends _ _ _ _ _ _ E) as (rest & Hrest).
    exists rest. now rewrite Hrest.
  - destruct (index infos h) as [head | |]; try discriminate.
    cbn [rbind] in H.
    destruct (numbersLoop fuel a head (w1 :: w2 :: ws) infos
                ["sing"; "plur"]
                ["nomn"; "gent"; "datv"; "accs"; "ablt"; "loct"]
                ({[phrase]}, [phrase])) as [st' | |] eqn:En;
      try discriminate.
    cbn [rbind] in H. injection H as <-.
    destruct (numbersLoop_extends _ _ _ _ _ _ _ _ _ En)
      as (rest & Hrest & _).
    exists rest. now rewrite Hrest.
Qed.

(** * Further properties of the code *)

(** ** Byte order *)

Lemma length_putLE (width : nat) (x : Z) : length (putLE width x) = width.
Proof.
  revert x. induction width as [| w IH]; intros x; simpl;
    [reflexivity | now rewrite IH].
Qed.

Lemma length_putUint (order : ByteOrder) (width : nat) (x : Z) :
  length (putUint order width x) = width.
Proof.
  destruct order; simpl; [| rewrite length_rev]; apply length_putLE.
Qed.

Lemma putLE_bytes (width : nat) (x : Z) : Forall is_byte (putLE width x).
Proof.
  revert x. induction width as [| w IH]; intros x; simpl; constructor.
  - unfold is_byte. change 0xFF with (Z.ones 8).
    rewrite Z.land_ones by lia. apply Z.mod_pos_bound. lia.
  - apply IH.
Qed.

Lemma lor_byte_low (b y : Z) :
  is_byte b -> Z.land (Z.lor b (Z.shiftl y 8)) 0xFF = b.
Proof.
  intros Hb. change 0xFF with (Z.ones 8).
  rewrite Z.land_ones by lia.
  apply Z.bits_inj'. intros n Hn.
  destruct (Z.ltb_spec n 8).
  - rewrite Z.mod_pow2_bits_low by lia.
    rewrite Z.lor_spec, Z.shiftl_spec_low by lia. apply orb_false_r.
  - rewrite Z.mod_pow2_bits_high by lia.
    symmetry. apply (Z.bits_above_log2 b n); [unfold is_byte in Hb; lia |].
    destruct (Z.eq_dec b 0) as [-> | Hne]; [simpl; lia |].
    apply Z.log2_lt_pow2; [unfold is_byte in Hb; lia |].
    unfold is_byte in Hb.
    apply Z.lt_le_trans with (2 ^ 8); [lia |].
    apply Z.pow_le_mono_r; lia.
Qed.

Lemma lor_byte_high (b y : Z) :
  is_byte b -> Z.shiftr (Z.lor b (Z.shiftl y 8)) 8 = y.
Proof.
  intros Hb. rewrite Z.shiftr_lor, Z.shiftr_shiftl_l by lia.
  replace (8 - 8) with 0 by lia. rewrite Z.shiftl_0_r.
  rewrite Z.shiftr_div_pow2 by lia.
  rewrite Z.div_small by (unfold is_byte in Hb; lia).
  apply Z.lor_0_l.
Qed.

(** Writing the value that a run of bytes denotes gives the bytes back. *)
Lemma putLE_uintLE (bs : list Z) :
  Forall is_byte bs -> putLE (length bs) (uintLE bs) = bs.
Proof.
  induction 1 as [| b bs Hb _ IH]; simpl; [reflexivity |].
  now rewrite lor_byte_low, lor_byte_high, IH.
Qed.

Lemma uintLE_range (bs : list Z) :
  Forall is_byte bs -> 0 <= uintLE bs < 2 ^ (8 * Z.of_nat (length bs)).
Proof.
  induction 1 as [| b bs Hb _ IH]; [simpl; lia |].
  cbn [uintLE length].
  assert (Hlor : Z.lor b (Z.shiftl (uintLE bs) 8) = b + 256 * uintLE bs).
  { rewrite <- Z.add_nocarry_lor.
    - rewrite Z.shiftl_mul_pow2 by lia. change (2 ^ 8) with 256. lia.
    - apply Z.bits_inj'. intros n Hn. rewrite Z.land_spec, Z.bits_0.
      destruct (Z.ltb_spec n 8).
      + rewrite Z.shiftl_spec_low by lia. apply andb_false_r.
      + replace (Z.testbit b n) with false; [reflexivity |].
        symmetry. destruct (Z.eq_dec b 0) as [-> | Hne];
          [apply Z.bits_0 |].
        unfold is_byte in Hb. apply Z.bits_above_log2; [lia |].
        apply Z.log2_lt_pow2; [lia |].
        apply Z.lt_le_trans with (2 ^ 8); [lia |].
        apply Z.pow_le_mono_r; lia. }
  rewrite Hlor.
  replace (8 * Z.of_nat (S (length bs)))
    with (8 + 8 * Z.of_nat (length bs)) by lia.
  rewrite Z.pow_add_r by lia. change (2 ^ 8) with 256.
  unfold is_byte in Hb. nia.
Qed.

(** Reading the bytes written for a value that fits gives the value. *)
Lemma uintLE_putLE (width : nat) (x : Z) :
  0 <= x < 2 ^ (8 * Z.of_nat width) -> uintLE (putLE width x) = x.
Proof.
  revert x. induction width as [| w IH]; intros x Hx.
  - simpl in *. lia.
  - cbn [putLE uintLE].
    replace (8 * Z.of_nat (S w)) with (8 + 8 * Z.of_nat w) in Hx by lia.
    rewrite Z.pow_add_r in Hx by lia. change (2 ^ 8) with 256 in Hx.
    rewrite IH.
    2:{ rewrite Z.shiftr_div_pow2 by lia. change (2 ^ 8) with 256.
        split; [apply Z.div_pos; lia |].
        apply Z.div_lt_upper_bound; lia. }
    change 0xFF with (Z.ones 8). rewrite Z.land_ones by lia.
    rewrite <- Z.add_nocarry_lor.
    + rewrite Z.shiftl_mul_pow2, Z.shiftr_div_pow2 by lia.
      change (2 ^ 8) with 256. pose proof (Z.div_mod x 256). lia.
    + apply Z.bits_inj'. intros n Hn. rewrite Z.land_spec, Z.bits_0.
      destruct (Z.ltb_spec n 8).
      * rewrite Z.shiftl_spec_low by lia. apply andb_false_r.
      * rewrite Z.mod_pow2_bits_high by lia. reflexivity.
Qed.

Lemma uintOf_putUint (order : ByteOrder) (width : nat) (x : Z) :
  0 <= x < 2 ^ (8 * Z.of_nat width) ->
  uintOf order (putUint order width x) = x.
Proof.
  intros Hx. destruct order; simpl; [| rewrite rev_involutive];
    now apply uintLE_putLE.
Qed.

Lemma putUint_uintOf (order : ByteOrder) (bs : list Z) :
  Forall is_byte bs -> putUint order (length bs) (uintOf order bs) = bs.
Proof.
  intros Hbs. destruct order; simpl; [now apply putLE_uintLE |].
  rewrite <- (length_rev bs), putLE_uintLE, rev_involutive;
    [reflexivity |].
  now apply Forall_rev.
Qed.

Lemma uintOf_range (order : ByteOrder) (bs : list Z) :
  Forall is_byte bs -> 0 <= uintOf order bs < 2 ^ (8 * Z.of_nat (length bs)).
Proof.
  intros Hbs. destruct order; simpl; [now apply uintLE_range |].
  rewrite <- (length_rev bs). apply uintLE_range. now apply Forall_rev.
Qed.

(** ** Reading from the reader *)

Lemma ReadFull_app (bs rest : list Z) :
  ReadFull (length bs) (bs ++ rest) = inr (bs, rest).
Proof.
  unfold ReadFull. destruct bs as [| b bs]; [reflexivity |].
  cbn [length app take drop].
  rewrite take_app_length, drop_app_length.
  destruct (Nat.ltb_spec (S (length (bs ++ rest))) (S (length bs)))
    as [Hlt | _]; [| reflexivity].
  rewrite length_app in Hlt. lia.
Qed.

Lemma ReadFull_inr (n : nat) (r bs rest : list Z) :
  ReadFull n r = inr (bs, rest) -> r = bs ++ rest /\ length bs = n.
Proof.
  unfold ReadFull. destruct n as [| n].
  - intros H. injection H as <- <-. split; reflexivity.
  - destruct r as [| b r]; [discriminate |].
    destruct (Nat.ltb_spec (length (b :: r)) (S n)) as [| Hge];
      [discriminate |].
    intros Heq. injection Heq as <- <-.
    split; [symmetry; apply (take_drop (S n) (b :: r)) |].
    simpl. rewrite length_take. simpl in Hge. lia.
Qed.

Lemma ReadFull_short (n : nat) (r : list Z) :
  (length r < n)%nat -> exists e, ReadFull n r = inl e.
Proof.
  intros Hlt. unfold ReadFull. destruct n as [| n]; [lia |].
  destruct r as [| b r]; [eauto |].
  destruct (Nat.ltb_spec (length (b :: r)) (S n)); [eauto | lia].
Qed.

Lemma decodeFields_length (order : ByteOrder) (width count : nat)
    (bs : list Z) :
  length (decodeFields order width count bs) = count.
Proof.
  revert bs. induction count as [| n IH]; intros bs; simpl;
    [reflexivity | now rewrite IH].
Qed.

Lemma decodeFields_put (order : ByteOrder) (width : nat) (xs : list Z) :
  Forall (fun x => 0 <= x < 2 ^ (8 * Z.of_nat width)) xs ->
  decodeFields order width (length xs) (concat (map (putUint order width) xs))
    = xs.
Proof.
  induction 1 as [| x xs Hx _ IH]; [reflexivity |].
  cbn [length map concat decodeFields].
  rewrite take_app_length', drop_app_length'
    by (symmetry; apply length_putUint) || apply length_putUint.
  now rewrite uintOf_putUint, IH.
Qed.

Lemma put_decodeFields (order : ByteOrder) (width count : nat)
    (bs : list Z) :
  Forall is_byte bs ->
  length bs = (width * count)%nat ->
  concat (map (putUint order width) (decodeFields order width count bs)) = bs
  /\ Forall (fun x => 0 <= x < 2 ^ (8 * Z.of_nat width))
            (decodeFields order width count bs).
Proof.
  revert bs. induction count as [| n IH]; intros bs Hbs Hlen.
  - rewrite Nat.mul_0_r in Hlen. apply length_zero_iff_nil in Hlen.
    subst bs. split; [reflexivity | constructor].
  - cbn [decodeFields map concat].
    assert (Hw : length (take width bs) = width)
      by (rewrite length_take; lia).
    destruct (IH (drop width bs)) as [IH1 IH2].
    { now apply Forall_drop. }
    { rewrite length_drop. lia. }
    assert (Hb : Forall is_byte (take width bs)) by now apply Forall_take.
    pose proof (putUint_uintOf order _ Hb) as Hput.
    pose proof (uintOf_range order _ Hb) as Hrange.
    rewrite Hw in Hput, Hrange.
    split.
    + rewrite IH1, Hput. apply take_drop.
    + constructor; assumption.
Qed.

Lemma length_concat_put (order : ByteOrder) (width : nat) (xs : list Z) :
  length (concat (map (putUint order width) xs)) = (width * length xs)%nat.
Proof.
  induction xs as [| x xs IH]; simpl; [lia |].
  rewrite length_app, length_putUint, IH. lia.
Qed.

(** A value and what follows it are read from the bytes written for it. *)
Lemma binary_Read_put (order : ByteOrder) (width : nat) (x : Z)
    (rest : list Z) :
  0 <= x < 2 ^ (8 * Z.of_nat width) ->
  binary_Read order width (putUint order width x ++ rest) = inr (x, rest).
Proof.
  intros Hx. unfold binary_Read.
  rewrite <- (length_putUint order width x) at 1.
  rewrite ReadFull_app. cbn [ebind]. now rewrite uintOf_putUint.
Qed.

Lemma binary_Read_inr (order : ByteOrder) (width : nat) (r : list Z)
    (x : Z) (rest : list Z) :
  Forall is_byte r ->
  binary_Read order width r = inr (x, rest) ->
  r = putUint order width x ++ rest /\ 0 <= x < 2 ^ (8 * Z.of_nat width).
Proof.
  intros Hr H. unfold binary_Read in H.
  destruct (ReadFull width r) as [e | [bs r']] eqn:E; [discriminate |].
  simpl in H. injection H as <- <-.
  apply ReadFull_inr in E as [-> Hlen].
  apply Forall_app in Hr as [Hbs _].
  rewrite <- Hlen. split; [now rewrite putUint_uintOf |].
  now apply uintOf_range.
Qed.

Lemma binary_Read_slice_put (order : ByteOrder) (width : nat)
    (xs rest : list Z) :
  Forall (fun x => 0 <= x < 2 ^ (8 * Z.of_nat width)) xs ->
  binary_Read_slice order width (length xs)
    (concat (map (putUint order width) xs) ++ rest) = inr (xs, rest).
Proof.
  intros Hxs. unfold binary_Read_slice.
  rewrite <- (length_concat_put order width xs).
  rewrite ReadFull_app. simpl.
  now rewrite decodeFields_put.
Qed.

Lemma binary_Read_slice_inr (order : ByteOrder) (width count : nat)
    (r xs rest : list Z) :
  Forall is_byte r ->
  binary_Read_slice order width count r = inr (xs, rest) ->
  r = concat (map (putUint order width) xs) ++ rest /\
  length xs = count /\
  Forall (fun x => 0 <= x < 2 ^ (8 * Z.of_nat width)) xs.
Proof.
  intros Hr H. unfold binary_Read_slice in H.
  destruct (ReadFull (width * count) r) as [e | [bs r']] eqn:E;
    [discriminate |].
  cbn [ebind] in H. injection H as <- <-.
  apply ReadFull_inr in E as [-> Hlen].
  apply Forall_app in Hr as [Hbs _].
  destruct (put_decodeFields order width count bs Hbs Hlen) as [H1 H2].
  rewrite H1. split; [reflexivity |].
  split; [apply decodeFields_length | assumption].
Qed.

(** ** The layout of the files *)

(** [dictionary.read] succeeds exactly on the inputs that begin with a
    unit count in 32 bits followed by that many units of 32 bits; it
    returns these units and leaves the reader after them. *)
Lemma dictionary_read_layout (order : ByteOrder) (raw : list Z)
    (d : dictionary) (rest : list Z) :
  Forall is_byte raw ->
  (dictionary_read order raw = inr (d, rest) <->
   raw = encodeUnits order (units d) ++ rest /\
   Z.of_nat (length (units d)) < 2 ^ 32 /\
   Forall (fun u => 0 <= u < 2 ^ 32) (units d)).
Proof.
  intros Hraw. unfold dictionary_read, encodeUnits. split.
  - intros H.
    destruct (binary_Read order 4 raw) as [e | [sz r1]] eqn:E1;
      [discriminate |].
    cbn [ebind] in H.
    destruct (binary_Read_slice order 4 (Z.to_nat sz) r1)
      as [e | [us r2]] eqn:E2; [discriminate |].
    cbn [ebind] in H. injection H as <- <-. cbn [units].
    apply binary_Read_inr in E1 as [-> Hsz]; [| assumption].
    apply Forall_app in Hraw as [_ Hr1].
    apply binary_Read_slice_inr in E2 as (-> & Hlen & Hus); [| assumption].
    rewrite Hlen, Z2Nat.id by lia.
    rewrite <- app_assoc. repeat split; try assumption; lia.
  - destruct d as [us]. cbn [units]. intros (-> & Hlen & Hus).
    rewrite <- app_assoc.
    rewrite binary_Read_put by (split; [lia | assumption]).
    cbn [ebind]. rewrite Nat2Z.id.
    now rewrite binary_Read_slice_put.
Qed.

(** [guide.read] succeeds exactly on the inputs that begin with a node
    count in 32 bits followed by the bytes of the guide; their number is
    twice the node count reduced modulo 2^32. *)
Lemma guide_read_layout (order : ByteOrder) (raw : list Z)
    (g : guide) (rest : list Z) :
  Forall is_byte raw ->
  (guide_read order raw = inr (g, rest) <->
   exists nodes,
     0 <= nodes < 2 ^ 32 /\
     raw = encodeGuide order nodes (gunits g) ++ rest /\
     Z.of_nat (length (gunits g)) = (nodes * 2) mod 2 ^ 32).
Proof.
  intros Hraw. unfold guide_read, encodeGuide. split.
  - intros H.
    destruct (binary_Read order 4 raw) as [e | [sz r1]] eqn:E1;
      [discriminate |].
    cbn [ebind] in H.
    destruct (ReadFull (Z.to_nat (wrap32 (sz * 2))) r1)
      as [e | [bs r2]] eqn:E2; [discriminate |].
    cbn [ebind] in H. injection H as <- <-. cbn [gunits].
    apply binary_Read_inr in E1 as [-> Hsz]; [| assumption].
    apply ReadFull_inr in E2 as [-> Hlen].
    exists sz. rewrite <- app_assoc. repeat split; try lia.
    rewrite Hlen. unfold wrap32. rewrite Z2Nat.id; [reflexivity |].
    apply Z.mod_pos_bound. lia.
  - destruct g as [bs]. cbn [gunits]. intros (nodes & Hn & -> & Hlen).
    rewrite <- app_assoc.
    rewrite binary_Read_put by (split; [lia | apply Hn]).
    cbn [ebind]. unfold wrap32. rewrite <- Hlen, Nat2Z.id.
    now rewrite ReadFull_app.
Qed.

(** [wordsDawg.load] succeeds exactly on a dictionary blob followed by a
    guide blob, and leaves the reader after the guide. *)
Theorem load_layout (order : ByteOrder) (raw : list Z) (w : wordsDawg)
    (rest : list Z) :
  Forall is_byte raw ->
  (load order raw = inr (w, rest) <->
   exists nodes,
     0 <= nodes < 2 ^ 32 /\
     raw = encodeUnits order (units (dict w))
           ++ encodeGuide order nodes (gunits (wguide w)) ++ rest /\
     Z.of_nat (length (units (dict w))) < 2 ^ 32 /\
     Forall (fun u => 0 <= u < 2 ^ 32) (units (dict w)) /\
     Z.of_nat (length (gunits (wguide w))) = (nodes * 2) mod 2 ^ 32).
Proof.
  intros Hraw. unfold load. split.
  - intros H.
    destruct (dictionary_read order raw) as [e | [d r1]] eqn:E1;
      [discriminate |].
    cbn [ebind] in H.
    destruct (guide_read order r1) as [e | [g r2]] eqn:E2; [discriminate |].
    cbn [ebind] in H. injection H as <- <-. cbn [dict wguide].
    apply (dictionary_read_layout order raw d r1 Hraw) in E1
      as (-> & Hlen & Hus).
    apply Forall_app in Hraw as [_ Hr1].
    apply (guide_read_layout order r1 g r2 Hr1) in E2
      as (nodes & Hn & -> & Hg).
    exists nodes. repeat split; try assumption; lia.
  - destruct w as [d g]. cbn [dict wguide].
    intros (nodes & Hn & -> & Hlen & Hus & Hg).
    assert (E1 : dictionary_read order
                   (encodeUnits order (units d)
                    ++ encodeGuide order nodes (gunits g) ++ rest)
                 = inr (d, encodeGuide order nodes (gunits g) ++ rest)).
    { apply dictionary_read_layout; [assumption |]. now repeat split. }
    rewrite E1. cbn [ebind].
    assert (E2 : guide_read order (encodeGuide order nodes (gunits g) ++ rest)
                 = inr (g, rest)).
    { apply guide_read_layout.
      - apply Forall_app in Hraw as [_ Hr]. exact Hr.
      - exists nodes. now repeat split. }
    now rewrite E2.
Qed.

Lemma readParadigms_inr (count : nat) :
  forall r ps rest,
    Forall is_byte r ->
    readParadigms count r = inr (ps, rest) ->
    r = concat (map encodeParadigm ps) ++ rest /\
    length ps = count /\
    Forall (fun p => Z.of_nat (length p) < 2 ^ 16 /\
                     Forall (fun x => 0 <= x < 2 ^ 16) p) ps.
Proof.
  induction count as [| n IH]; intros r ps rest Hr H; cbn [readParadigms] in H.
  - injection H as <- <-. repeat split. constructor.
  - destruct (binary_Read LittleEndian 2 r) as [e | [plen r1]] eqn:E1;
      [discriminate |].
    cbn [ebind] in H.
    destruct (binary_Read_slice LittleEndian 2 (Z.to_nat plen) r1)
      as [e | [para r2]] eqn:E2; [discriminate |].
    cbn [ebind] in H.
    destruct (readParadigms n r2) as [e | [ps' r3]] eqn:E3; [discriminate |].
    cbn [ebind] in H. injection H as <- <-.
    apply binary_Read_inr in E1 as [-> Hplen]; [| assumption].
    apply Forall_app in Hr as [_ Hr1].
    apply binary_Read_slice_inr in E2 as (-> & Hlen & Hpara); [| assumption].
    apply Forall_app in Hr1 as [_ Hr2].
    destruct (IH _ _ _ Hr2 E3) as (-> & Hn & Hps).
    change (8 * Z.of_nat 2) with 16 in Hplen, Hpara.
    assert (Hlen' : Z.of_nat (length para) = plen) by lia.
    split; [| split].
    + cbn [map concat]. unfold encodeParadigm. rewrite Hlen'.
      now rewrite <- !app_assoc.
    + cbn [length]. now rewrite Hn.
    + constructor; [| assumption]. split; [lia | assumption].
Qed.

Lemma readParadigms_encode (ps : list (list Z)) (rest : list Z) :
  Forall (fun p => Z.of_nat (length p) < 2 ^ 16 /\
                   Forall (fun x => 0 <= x < 2 ^ 16) p) ps ->
  readParadigms (length ps) (concat (map encodeParadigm ps) ++ rest)
    = inr (ps, rest).
Proof.
  induction 1 as [| p ps [Hlen Hp] _ IH]; [reflexivity |].
  cbn [length map concat readParadigms]. unfold encodeParadigm at 1.
  rewrite <- !app_assoc.
  change (putLE 2) with (putUint LittleEndian 2).
  rewrite binary_Read_put by (change (8 * Z.of_nat 2) with 16; lia).
  cbn [ebind]. rewrite Nat2Z.id.
  rewrite binary_Read_slice_put by exact Hp.
  cbn [ebind]. change (putUint LittleEndian 2) with (putLE 2).
  now rewrite IH.
Qed.

(** [loadParadigms] succeeds exactly on the inputs that begin with the
    documented layout of [paradigms.array]: a count, then for every
    paradigm its length and its values, all in 16 bits little-endian. It
    returns these paradigms; what follows them in the input is ignored. *)
Theorem loadParadigms_layout (raw : list Z) (ps : list (list Z)) :
  Forall is_byte raw ->
  (loadParadigms raw = inr ps <->
   exists rest,
     raw = encodeParadigms ps ++ rest /\
     Z.of_nat (length ps) < 2 ^ 16 /\
     Forall (fun p => Z.of_nat (length p) < 2 ^ 16 /\
                      Forall (fun x => 0 <= x < 2 ^ 16) p) ps).
Proof.
  intros Hraw. unfold loadParadigms, encodeParadigms. split.
  - intros H.
    destruct (binary_Read LittleEndian 2 raw) as [e | [n r1]] eqn:E1;
      [discriminate |].
    cbn [ebind] in H.
    destruct (readParadigms (Z.to_nat n) r1) as [e | [ps' r2]] eqn:E2;
      [discriminate |].
    cbn [ebind] in H. injection H as <-.
    apply binary_Read_inr in E1 as [-> Hn]; [| assumption].
    apply Forall_app in Hraw as [_ Hr1].
    apply readParadigms_inr in E2 as (-> & Hlen & Hps); [| assumption].
    exists r2. rewrite Hlen, Z2Nat.id by lia.
    change (putUint LittleEndian 2) with (putLE 2).
    rewrite <- app_assoc. repeat split; try assumption.
    change (8 * Z.of_nat 2) with 16 in Hn. lia.
  - intros (rest & -> & Hlen & Hps). rewrite <- app_assoc.
    change (putLE 2) with (putUint LittleEndian 2).
    rewrite binary_Read_put by (change (8 * Z.of_nat 2) with 16; lia).
    cbn [ebind]. rewrite Nat2Z.id.
    now rewrite readParadigms_encode.
Qed.

(** ** Truncated files *)

Lemma reads_prefix_ReadFull (n : nat) : reads_prefix (ReadFull n).
Proof.
  intros r bs r' H. apply ReadFull_inr in H as [-> Hlen].
  exists n. split; [rewrite length_app; lia |]. split.
  - intros k Hk. apply ReadFull_short. rewrite length_take. lia.
  - intros k Hk. rewrite take_app, Hlen.
    rewrite take_ge by lia. rewrite <- Hlen at 1. apply ReadFull_app.
Qed.

Lemma reads_prefix_bind {A B} (f : list Z -> ioError + (A * list Z))
    (g : A -> list Z -> ioError + (B * list Z)) :
  reads_prefix f -> (forall x, reads_prefix (g x)) ->
  reads_prefix (fun r => ebind (f r) (fun p => g (fst p) (snd p))).
Proof.
  intros Hf Hg r y r2 H.
  destruct (f r) as [e | [x r1]] eqn:E; [discriminate |].
  cbn [ebind fst snd] in H.
  destruct (Hf _ _ _ E) as (c1 & Hl1 & Hshort1 & Hlong1).
  destruct (Hg x _ _ _ H) as (c2 & Hl2 & Hshort2 & Hlong2).
  exists (c1 + c2)%nat. split; [lia |]. split.
  - intros k Hk. destruct (Nat.lt_ge_cases k c1) as [Hlt | Hge].
    + destruct (Hshort1 k Hlt) as [e He]. rewrite He. eauto.
    + rewrite (Hlong1 k Hge). cbn [ebind fst snd].
      apply Hshort2. lia.
  - intros k Hk. rewrite (Hlong1 k) by lia. cbn [ebind fst snd].
    rewrite (Hlong2 (k - c1)%nat) by lia.
    now replace (k - c1 - c2)%nat with (k - (c1 + c2))%nat by lia.
Qed.

Lemma reads_prefix_ext {A} (f g : list Z -> ioError + (A * list Z)) :
  (forall r, f r = g r) -> reads_prefix f -> reads_prefix g.
Proof.
  intros Hext Hf r x r' H. rewrite <- Hext in H.
  destruct (Hf _ _ _ H) as (c & Hl & Hs & Hlg).
  exists c. split; [assumption |]. split.
  - intros k Hk. rewrite <- Hext. now apply Hs.
  - intros k Hk. rewrite <- Hext. now apply Hlg.
Qed.

Lemma reads_prefix_ret {A} (x : A) :
  reads_prefix (fun r => inr (x, r)).
Proof.
  intros r y r' H. injection H as <- <-. exists 0%nat.
  split; [reflexivity |]. split; [intros k Hk; lia |].
  intros k _. now rewrite Nat.sub_0_r.
Qed.

Lemma reads_prefix_binary_Read (order : ByteOrder) (width : nat) :
  reads_prefix (binary_Read order width).
Proof.
  apply (reads_prefix_ext
           (fun r => ebind (ReadFull width r)
                       (fun p => (fun bs r' => inr (uintOf order bs, r'))
                                   (fst p) (snd p)))).
  - intros r. unfold binary_Read. now destruct (ReadFull width r) as [| []].
  - apply (reads_prefix_bind (ReadFull width)
             (fun bs r' => inr (uintOf order bs, r')));
      [apply reads_prefix_ReadFull |].
    intros bs. apply reads_prefix_ret.
Qed.

Lemma reads_prefix_binary_Read_slice (order : ByteOrder)
    (width count : nat) :
  reads_prefix (binary_Read_slice order width count).
Proof.
  apply (reads_prefix_ext
           (fun r => ebind (ReadFull (width * count) r)
                       (fun p => (fun bs r' =>
                                    inr (decodeFields order width count bs, r'))
                                   (fst p) (snd p)))).
  - intros r. unfold binary_Read_slice.
    now destruct (ReadFull (width * count) r) as [| []].
  - apply (reads_prefix_bind (ReadFull (width * count))
             (fun bs r' => inr (decodeFields order width count bs, r')));
      [apply reads_prefix_ReadFull |].
    intros bs. apply reads_prefix_ret.
Qed.

Lemma reads_prefix_dictionary_read (order : ByteOrder) :
  reads_prefix (dictionary_read order).
Proof.
  apply (reads_prefix_ext
           (fun r =>
              ebind (binary_Read order 4 r)
                (fun p =>
                   (fun sz r1 =>
                      ebind (binary_Read_slice order 4 (Z.to_nat sz) r1)
                        (fun q => (fun us r2 => inr ({| units := us |}, r2))
                                    (fst q) (snd q)))
                     (fst p) (snd p)))).
  - intros r. unfold dictionary_read.
    destruct (binary_Read order 4 r) as [| [sz r1]]; [reflexivity |].
    cbn [ebind fst snd].
    now destruct (binary_Read_slice order 4 (Z.to_nat sz) r1) as [| []].
  - apply (reads_prefix_bind (binary_Read order 4)
             (fun sz r1 =>
                ebind (binary_Read_slice order 4 (Z.to_nat sz) r1)
                  (fun q => (fun us r2 => inr ({| units := us |}, r2))
                              (fst q) (snd q))));
      [apply reads_prefix_binary_Read |].
    intros sz.
    apply (reads_prefix_bind (binary_Read_slice order 4 (Z.to_nat sz))
             (fun us r2 => inr ({| units := us |}, r2)));
      [apply reads_prefix_binary_Read_slice |].
    intros us. apply reads_prefix_ret.
Qed.

Lemma reads_prefix_guide_read (order : ByteOrder) :
  reads_prefix (guide_read order).
Proof.
  apply (reads_prefix_ext
           (fun r =>
              ebind (binary_Read order 4 r)
                (fun p =>
                   (fun sz r1 =>
                      ebind (ReadFull (Z.to_nat (wrap32 (sz * 2))) r1)
                        (fun q => (fun bs r2 => inr ({| gunits := bs |}, r2))
                                    (fst q) (snd q)))
                     (fst p) (snd p)))).
  - intros r. unfold guide_read.
    destruct (binary_Read order 4 r) as [| [sz r1]]; [reflexivity |].
    cbn [ebind fst snd].
    now destruct (ReadFull (Z.to_nat (wrap32 (sz * 2))) r1) as [| []].
  - apply (reads_prefix_bind (binary_Read order 4)
             (fun sz r1 =>
                ebind (ReadFull (Z.to_nat (wrap32 (sz * 2))) r1)
                  (fun q => (fun bs r2 => inr ({| gunits := bs |}, r2))
                              (fst q) (snd q))));
      [apply reads_prefix_binary_Read |].
    intros sz.
    apply (reads_prefix_bind (ReadFull (Z.to_nat (wrap32 (sz * 2))))
             (fun bs r2 => inr ({| gunits := bs |}, r2)));
      [apply reads_prefix_ReadFull |].
    intros bs. apply reads_prefix_ret.
Qed.

Lemma reads_prefix_load (order : ByteOrder) : reads_prefix (load order).
Proof.
  apply (reads_prefix_ext
           (fun r =>
              ebind (dictionary_read order r)
                (fun p =>
                   (fun d r1 =>
                      ebind (guide_read order r1)
                        (fun q => (fun g r2 =>
                                     inr ({| dict := d; wguide := g |}, r2))
                                    (fst q) (snd q)))
                     (fst p) (snd p)))).
  - intros r. unfold load.
    destruct (dictionary_read order r) as [| [d r1]]; [reflexivity |].
    cbn [ebind fst snd].
    now destruct (guide_read order r1) as [| []].
  - apply (reads_prefix_bind (dictionary_read order)
             (fun d r1 =>
                ebind (guide_read order r1)
                  (fun q => (fun g r2 =>
                               inr ({| dict := d; wguide := g |}, r2))
                              (fst q) (snd q))));
      [apply reads_prefix_dictionary_read |].
    intros d.
    apply (reads_prefix_bind (guide_read order)
             (fun g r2 => inr ({| dict := d; wguide := g |}, r2)));
      [apply reads_prefix_guide_read |].
    intros g. apply reads_prefix_ret.
Qed.

Lemma reads_prefix_readParadigms (count : nat) :
  reads_prefix (readParadigms count).
Proof.
  induction count as [| n IH]; [apply reads_prefix_ret |].
  apply (reads_prefix_ext
           (fun r =>
              ebind (binary_Read LittleEndian 2 r)
                (fun p =>
                   (fun plen r1 =>
                      ebind (binary_Read_slice LittleEndian 2
                               (Z.to_nat plen) r1)
                        (fun q =>
                           (fun para r2 =>
                              ebind (readParadigms n r2)
                                (fun s => (fun rest r3 =>
                                             inr (para :: rest, r3))
                                            (fst s) (snd s)))
                             (fst q) (snd q)))
                     (fst p) (snd p)))).
  - intros r. cbn [readParadigms].
    destruct (binary_Read LittleEndian 2 r) as [| [plen r1]];
      [reflexivity |].
    cbn [ebind fst snd].
    destruct (binary_Read_slice LittleEndian 2 (Z.to_nat plen) r1)
      as [| [para r2]]; [reflexivity |].
    cbn [ebind fst snd].
    now destruct (readParadigms n r2) as [| []].
  - apply (reads_prefix_bind (binary_Read LittleEndian 2)
             (fun plen r1 =>
                ebind (binary_Read_slice LittleEndian 2 (Z.to_nat plen) r1)
                  (fun q =>
                     (fun para r2 =>
                        ebind (readParadigms n r2)
                          (fun s => (fun rest r3 => inr (para :: rest, r3))
                                      (fst s) (snd s)))
                       (fst q) (snd q))));
      [apply reads_prefix_binary_Read |].
    intros plen.
    apply (reads_prefix_bind
             (binary_Read_slice LittleEndian 2 (Z.to_nat plen))
             (fun para r2 =>
                ebind (readParadigms n r2)
                  (fun s => (fun rest r3 => inr (para :: rest, r3))
                              (fst s) (snd s))));
      [apply reads_prefix_binary_Read_slice |].
    intros para.
    apply (reads_prefix_bind (readParadigms n)
             (fun rest r3 => inr (para :: rest, r3))); [exact IH |].
    intros rest. apply reads_prefix_ret.
Qed.

(** A words file that loads needs all the bytes that [load] has consumed:
    cut short anywhere inside them it fails to load, and whatever follows
    them does not change the result. *)
Theorem load_truncated (order : ByteOrder) (raw : list Z) (w : wordsDawg)
    (rest : list Z) (k : nat) :
  load order raw = inr (w, rest) ->
  ((k < length raw - length rest)%nat ->
   exists e, load order (take k raw) = inl e) /\
  ((length raw - length rest <= k)%nat ->
   exists rest', load order (take k raw) = inr (w, rest')).
Proof.
  intros H.
  destruct (reads_prefix_load order _ _ _ H) as (c & Hl & Hshort & Hlong).
  replace (length raw - length rest)%nat with c by lia.
  split; [apply Hshort |]. intros Hk. rewrite (Hlong k Hk). eauto.
Qed.

(** A paradigms file cut short inside what [loadParadigms] reads fails to
    load. *)
Theorem loadParadigms_truncated (ps : list (list Z)) (rest : list Z)
    (k : nat) :
  Forall is_byte (encodeParadigms ps ++ rest) ->
  loadParadigms (encodeParadigms ps ++ rest) = inr ps ->
  (k < length (encodeParadigms ps))%nat ->
  exists e, loadParadigms (take k (encodeParadigms ps ++ rest)) = inl e.
Proof.
  intros Hbytes H Hk. unfold loadParadigms in *.
  set (raw := encodeParadigms ps ++ rest) in *.
  destruct (binary_Read LittleEndian 2 raw) as [e | [n r1]] eqn:E1;
    [discriminate |].
  cbn [ebind] in H.
  destruct (readParadigms (Z.to_nat n) r1) as [e | [ps' r2]] eqn:E2;
    [discriminate |].
  cbn [ebind] in H. injection H as ->.
  destruct (reads_prefix_binary_Read _ _ _ _ _ E1) as (c1 & Hl1 & Hs1 & Hg1).
  destruct (reads_prefix_readParadigms _ _ _ _ E2) as (c2 & Hl2 & Hs2 & Hg2).
  assert (Hc : (c1 + c2)%nat = length (encodeParadigms ps)).
  { pose proof E1 as E1'. apply binary_Read_inr in E1' as [Hraw _];
      [| assumption].
    assert (Hb1 : Forall is_byte r1).
    { rewrite Hraw in Hbytes. now apply Forall_app in Hbytes as [_ ?]. }
    pose proof E2 as E2'.
    apply readParadigms_inr in E2' as (Hr1 & Hlen & _); [| assumption].
    unfold encodeParadigms.
    rewrite length_app, length_putLE.
    assert (length r1 = (length (concat (map encodeParadigm ps))
                         + length r2)%nat)
      by (rewrite Hr1 at 1; apply length_app).
    assert (c1 = 2%nat).
    { rewrite Hraw, length_app, length_putUint in Hl1. lia. }
    lia. }
  destruct (Nat.lt_ge_cases k c1) as [Hlt | Hge].
  - destruct (Hs1 k Hlt) as [e He]. rewrite He. eauto.
  - rewrite (Hg1 k Hge). cbn [ebind].
    destruct (Hs2 (k - c1)%nat) as [e He]; [lia |]. rewrite He. eauto.
Qed.

(** Every element of a list given in full satisfies a bound. *)
Ltac solve_Forall :=
  repeat (apply Forall_cons_2; [unfold is_byte; simpl; lia |]);
  apply Forall_nil_2.

(** A node count of 2^31 or more does not fit the [uint32] product
    [size*2]: the guide that [guide.read] returns then has
    [2*nodes - 2^32] bytes, fewer than two per node, and is empty for a
    count of exactly 2^31. *)
Theorem guide_read_wraps (order : ByteOrder) (nodes : Z) (bs rest : list Z) :
  2 ^ 31 <= nodes < 2 ^ 32 ->
  Z.of_nat (length bs) = 2 * nodes - 2 ^ 32 ->
  guide_read order (putUint order 4 nodes ++ bs ++ rest)
    = inr ({| gunits := bs |}, rest) /\
  Z.of_nat (length bs) < 2 * nodes.
Proof.
  intros Hn Hlen. split; [| lia].
  unfold guide_read.
  rewrite binary_Read_put by (change (8 * Z.of_nat 4) with 32; lia).
  cbn [ebind]. unfold wrap32.
  replace ((nodes * 2) mod 2 ^ 32) with (Z.of_nat (length bs)).
  - rewrite Nat2Z.id. now rewrite ReadFull_app.
  - rewrite Hlen. symmetry.
    replace (nodes * 2) with ((2 * nodes - 2 ^ 32) + 1 * 2 ^ 32) by lia.
    rewrite Z.mod_add by lia. apply Z.mod_small. lia.
Qed.

(** A count of 2^31 nodes, little-endian, followed by anything: an empty
    guide. *)
Lemma guide_read_wraps_witness :
  guide_read LittleEndian ([0; 0; 0; 128] ++ [] ++ [7; 7])
    = inr ({| gunits := [] |}, [7; 7]) /\
  Z.of_nat (length ([] : list Z)) < 2 * 2147483648.
Proof.
  apply (guide_read_wraps LittleEndian 2147483648 [] [7; 7]).
  - lia.
  - reflexivity.
Defined.

(** A words file of one unit and one guide node, followed by one byte. *)
Lemma load_layout_witness :
  load LittleEndian [1; 0; 0; 0; 0; 4; 0; 0; 1; 0; 0; 0; 97; 0; 9]
    = inr ({| dict := {| units := [1024] |};
              wguide := {| gunits := [97; 0] |} |}, [9]).
Proof.
  apply load_layout.
  - solve_Forall.
  - exists 1. cbn [dict wguide units gunits].
    split; [lia |]. split; [reflexivity |]. split; [simpl; lia |].
    split; [solve_Forall | reflexivity].
Defined.

Lemma load_truncated_witness :
  (exists e, load LittleEndian
               (take 13 [1; 0; 0; 0; 0; 4; 0; 0; 1; 0; 0; 0; 97; 0; 9])
             = inl e) /\
  (exists rest', load LittleEndian
                   (take 14 [1; 0; 0; 0; 0; 4; 0; 0; 1; 0; 0; 0; 97; 0; 9])
                 = inr ({| dict := {| units := [1024] |};
                           wguide := {| gunits := [97; 0] |} |}, rest')).
Proof.
  split.
  - apply (load_truncated LittleEndian _
             {| dict := {| units := [1024] |};
                wguide := {| gunits := [97; 0] |} |} [9] 13);
      [reflexivity | simpl; lia].
  - apply (load_truncated LittleEndian _
             {| dict := {| units := [1024] |};
                wguide := {| gunits := [97; 0] |} |} [9] 14);
      [reflexivity | simpl; lia].
Defined.

(** Two paradigms, of three values and of none, followed by one byte. *)
Lemma loadParadigms_layout_witness :
  loadParadigms [2; 0; 3; 0; 1; 0; 2; 0; 0; 1; 0; 0; 7]
    = inr [[1; 2; 256]; []].
Proof.
  apply loadParadigms_layout.
  - solve_Forall.
  - exists [7]. split; [reflexivity |]. split; [simpl; lia |].
    repeat (apply Forall_cons_2; [split; [simpl; lia | solve_Forall] |]).
    apply Forall_nil_2.
Defined.

Lemma loadParadigms_truncated_witness :
  exists e,
    loadParadigms (take 11 (encodeParadigms [[1; 2; 256]; []] ++ [7]))
      = inl e.
Proof.
  apply (loadParadigms_truncated [[1; 2; 256]; []] [7] 11).
  - change (encodeParadigms [[1; 2; 256]; []] ++ [7])
      with [2; 0; 3; 0; 1; 0; 2; 0; 0; 1; 0; 0; 7].
    solve_Forall.
  - reflexivity.
  - simpl. lia.
Defined.

(** ** Walking the dictionary *)

(** Following a run of bytes is following its first part and then, from
    where that leads, its second part. *)
Lemma followBytes_app (d : dictionary) (b1 b2 : list Z) (idx : Z) :
  followBytes d (b1 ++ b2) idx =
    let! r := followBytes d b1 idx in
    match r with
    | Some mid => followBytes d b2 mid
    | None => Val None
    end.
Proof.
  revert idx. induction b1 as [| ch b1 IH]; intros idx; [reflexivity |].
  cbn [app followBytes].
  destruct (followChar d ch idx) as [[nxt |] | |]; cbn [rbind];
    [apply IH | reflexivity ..].
Qed.

Lemma followChar_Some (d : dictionary) (label idx nxt : Z) :
  followChar d label idx = Val (Some nxt) ->
  exists u un,
    index (units d) idx = Val u /\
    nxt = Z.land (Z.lxor (Z.lxor idx (unitOffset u)) label) precisionMask /\
    index (units d) nxt = Val un /\
    unitLabel un = label.
Proof.
  unfold followChar. intros H.
  destruct (index (units d) idx) as [u | |] eqn:E1; cbn [rbind] in H;
    try discriminate.
  destruct (index (units d)
              (Z.land (Z.lxor (Z.lxor idx (unitOffset u)) label)
                      precisionMask)) as [un | |] eqn:E2;
    cbn [rbind] in H; try discriminate.
  destruct (Z.eqb_spec (unitLabel un) label) as [Hl |]; [| discriminate].
  injection H as <-. exists u, un. repeat split; assumption.
Qed.

(** A unit whose label field is a byte is not a leaf, and its low byte is
    that byte. *)
Lemma unitLabel_byte (un label : Z) :
  0 <= label < 256 ->
  unitLabel un = label ->
  Z.testbit un 31 = false /\ Z.land un 0xFF = label.
Proof.
  intros Hl Hlab.
  assert (Hbit : forall n, 0 <= n ->
            Z.testbit label n
            = Z.testbit un n && ((n =? 31) || (n <? 8))).
  { intros n Hn. rewrite <- Hlab. unfold unitLabel.
    rewrite Z.land_spec, Z.lor_spec. f_equal. f_equal.
    - unfold isLeafBit. rewrite Z.shiftl_1_l, Z.pow2_bits_eqb by lia.
      apply Z.eqb_sym.
    - change 0xFF with (Z.ones 8). destruct (Z.ltb_spec n 8).
      + apply Z.ones_spec_low. lia.
      + apply Z.ones_spec_high. lia. }
  assert (Hhigh : forall n, 8 <= n -> Z.testbit label n = false).
  { intros n Hn. destruct (Z.eq_dec label 0) as [-> | Hne];
      [apply Z.bits_0 |].
    apply Z.bits_above_log2; [lia |].
    apply Z.log2_lt_pow2; [lia |].
    apply Z.lt_le_trans with (2 ^ 8); [lia |].
    apply Z.pow_le_mono_r; lia. }
  split.
  - pose proof (Hbit 31 ltac:(lia)) as H31.
    rewrite Hhigh in H31 by lia. simpl in H31.
    rewrite andb_true_r in H31. now symmetry.
  - apply Z.bits_inj'. intros n Hn. rewrite Z.land_spec.
    change 0xFF with (Z.ones 8). destruct (Z.ltb_spec n 8) as [Hlt | Hge].
    + rewrite Z.ones_spec_low by lia. rewrite andb_true_r.
      rewrite Hbit by lia.
      apply Z.ltb_lt in Hlt. rewrite Hlt, orb_true_r, andb_true_r.
      reflexivity.
    + rewrite Z.ones_spec_high by lia. rewrite andb_false_r.
      symmetry. apply Hhigh. lia.
Qed.

(** An arc that [followChar] finds leads to a unit inside the array, at
    the index [idx XOR offset XOR label], whose label field is the label
    asked for; for a byte label that unit is not a leaf: its bit 31 is
    clear and its low byte is the label. *)
Theorem followChar_lands_on_label (d : dictionary) (label idx nxt : Z) :
  0 <= label < 256 ->
  followChar d label idx = Val (Some nxt) ->
  0 <= nxt < Z.of_nat (length (units d)) /\
  exists un,
    index (units d) nxt = Val un /\
    Z.testbit un 31 = false /\
    Z.land un 0xFF = label.
Proof.
  intros Hl H.
  destruct (followChar_Some _ _ _ _ H) as (u & un & _ & _ & Hun & Hlab).
  split.
  { apply index_Val in Hun as [H0 Hlk].
    apply lookup_lt_Some in Hlk. lia. }
  exists un. split; [assumption |].
  now apply unitLabel_byte.
Qed.

Lemma followChar_lands_on_label_witness :
  0 <= 1 < Z.of_nat (length (units (dict demoWords))) /\
  exists un,
    index (units (dict demoWords)) 1 = Val un /\
    Z.testbit un 31 = false /\
    Z.land un 0xFF = 0xD0.
Proof.
  apply (followChar_lands_on_label (dict demoWords) 0xD0 0 1).
  - lia.
  - vm_compute; reflexivity.
Defined.

(** ** Completions *)

Lemma rev_removelast (key : list Z) : rev (removelast key) = tl (rev key).
Proof.
  induction key as [| b key IH] using rev_ind; [reflexivity |].
  rewrite removelast_last, rev_app_distr. reflexivity.
Qed.

Lemma trail_push (d : dictionary) (start : Z) (rkey stack : list Z)
    (l p s : Z) (rest : list Z) :
  stack = p :: rest ->
  followChar d l p = Val (Some s) ->
  trail d start rkey stack ->
  trail d start (l :: rkey) (s :: stack).
Proof. intros -> Hf Htr. split; assumption. Qed.

Lemma trail_followBytes (d : dictionary) (start : Z) (stack : list Z) :
  forall rkey top rest,
    stack = top :: rest ->
    trail d start rkey stack ->
    followBytes d (rev rkey) start = Val (Some top).
Proof.
  induction stack as [| s stack IH]; intros rkey top rest Hst Htr;
    [discriminate |].
  injection Hst as -> ->.
  destruct rest as [| p rest'].
  - destruct rkey; simpl in Htr; [| contradiction]. subst. reflexivity.
  - destruct rkey as [| l rkey']; simpl in Htr; [contradiction |].
    destruct Htr as [Hf Htr]. cbn [rev].
    rewrite followBytes_app, (IH rkey' p rest' eq_refl Htr). cbn [rbind].
    cbn [followBytes]. now rewrite Hf.
Qed.

Lemma follow_trail (d : dictionary) (start : Z) (c c' : completer)
    (label idx idx' : Z) (rest : list Z) :
  indexStack c = idx :: rest ->
  on_trail d start c ->
  follow d c label idx = Val (idx', c') ->
  idx' = 0 \/
  (on_trail d start c' /\ exists rest', indexStack c' = idx' :: rest').
Proof.
  unfold follow, on_trail. intros Hst Htr H.
  destruct (followChar d label idx) as [[nxt |] | |] eqn:E;
    cbn [rbind] in H; try discriminate.
  - injection H as <- <-. right. cbn [Key indexStack]. split; [| eauto].
    rewrite rev_app_distr. cbn [rev app].
    now apply (trail_push d start _ _ label idx nxt rest).
  - injection H as <- <-. now left.
Qed.

Lemma findTerminal_trail (d : dictionary) (g : guide) (start : Z)
    (fuel : nat) :
  forall c idx rest c',
    indexStack c = idx :: rest ->
    on_trail d start c ->
    findTerminal fuel d g c idx = Val (true, c') ->
    on_trail d start c' /\
    hasValue d (lastIndex c') = Val true /\
    exists rest', indexStack c' = lastIndex c' :: rest'.
Proof.
  induction fuel as [| fuel IH]; intros c idx rest c' Hst Htr H;
    [discriminate |].
  cbn [findTerminal] in H.
  destruct (hasValue d idx) as [[|] | |] eqn:Ehv; cbn [rbind] in H;
    try discriminate.
  - injection H as <-. unfold on_trail in *. cbn [Key indexStack lastIndex].
    split; [assumption |]. split; [assumption |]. eauto.
  - destruct (child g idx) as [label | |]; cbn [rbind] in H;
      try discriminate.
    destruct (followChar d label idx) as [[nxt |] | |] eqn:Ef;
      cbn [rbind] in H; try discriminate.
    apply (IH {| Key := Key c ++ [label];
                 indexStack := nxt :: indexStack c;
                 lastIndex := lastIndex c |} nxt (indexStack c) c');
      [reflexivity | | assumption].
    unfold on_trail in *. cbn [Key indexStack].
    rewrite rev_app_distr. cbn [rev app].
    now apply (trail_push d start _ _ label idx nxt rest).
Qed.

Lemma ascend_trail (d : dictionary) (g : guide) (start : Z)
    (stack : list Z) :
  forall key last idx' c',
    trail d start (rev key) stack ->
    ascend d g key stack last = Val (Some idx', c') ->
    on_trail d start c' /\ exists rest', indexStack c' = idx' :: rest'.
Proof.
  induction stack as [| idx stack IH]; intros key last idx' c' Htr H;
    [discriminate |].
  cbn [ascend] in H.
  destruct (sibling g idx) as [sl | |]; cbn [rbind] in H; try discriminate.
  destruct stack as [| top stack']; [discriminate |].
  destruct (rev key) as [| l rkey'] eqn:Erk; simpl in Htr; [contradiction |].
  destruct Htr as [_ Htr].
  assert (Hrk : rev (removelast key) = rkey')
    by (rewrite rev_removelast, Erk; reflexivity).
  destruct (negb (sl =? 0)).
  - set (c1 := {| Key := removelast key; indexStack := top :: stack';
                  lastIndex := last |}) in *.
    destruct (follow d c1 sl top) as [[i2 c2] | |] eqn:Ef;
      cbn [rbind] in H; try discriminate.
    destruct (Z.eqb_spec i2 0) as [| Hne]; [discriminate |].
    injection H as <- <-.
    destruct (follow_trail d start c1 c2 sl top i2 stack' eq_refl) as [| Hok];
      [unfold on_trail, c1; cbn [Key indexStack]; now rewrite Hrk
      | assumption | contradiction | exact Hok].
  - apply (IH (removelast key) last idx' c'); [now rewrite Hrk | assumption].
Qed.

Lemma next_trail (d : dictionary) (g : guide) (start : Z) (fuel : nat)
    (c c' : completer) :
  on_trail d start c ->
  next fuel d g c = Val (true, c') ->
  on_trail d start c' /\
  hasValue d (lastIndex c') = Val true /\
  exists rest', indexStack c' = lastIndex c' :: rest'.
Proof.
  intros Htr H. unfold next in H.
  destruct (indexStack c) as [| idx stack] eqn:Hst; [discriminate |].
  destruct (negb (lastIndex c =? 0)).
  - destruct (child g idx) as [childLabel | |]; cbn [rbind] in H;
      try discriminate.
    destruct (negb (childLabel =? 0)).
    + destruct (follow d c childLabel idx) as [[i2 c2] | |] eqn:Ef;
        cbn [rbind] in H; try discriminate.
      destruct (Z.eqb_spec i2 0) as [| Hne]; [discriminate |].
      destruct (follow_trail d start c c2 childLabel idx i2 stack Hst Htr Ef)
        as [| [Htr2 [rest2 Hst2]]]; [contradiction |].
      now apply (findTerminal_trail d g start fuel c2 i2 rest2 c').
    + destruct (ascend d g (Key c) (idx :: stack) (lastIndex c))
        as [[[i2 |] c2] | |] eqn:Ea; cbn [rbind] in H; try discriminate.
      destruct (ascend_trail d g start (idx :: stack) (Key c) (lastIndex c)
                  i2 c2) as [Htr2 [rest2 Hst2]];
        [unfold on_trail in Htr; now rewrite Hst in Htr | assumption |].
      now apply (findTerminal_trail d g start fuel c2 i2 rest2 c').
  - now apply (findTerminal_trail d g start fuel c idx stack c').
Qed.

(** After a successful [next] the completer stands on a node that has a
    value: it is the top of the stack and [lastIndex], and the key is the
    run of bytes that leads to it from the start node. *)
Theorem next_key_leads_to_terminal (d : dictionary) (g : guide)
    (fuel : nat) (idx : Z) (c c' : completer) :
  on_trail d idx c ->
  next fuel d g c = Val (true, c') ->
  followBytes d (Key c') idx = Val (Some (lastIndex c')) /\
  hasValue d (lastIndex c') = Val true /\
  length (indexStack c') = S (length (Key c')).
Proof.
  intros Htr H.
  destruct (next_trail d g idx fuel c c' Htr H)
    as (Htr' & Hhv & rest' & Hst').
  split; [| split; [assumption |]].
  - rewrite <- (rev_involutive (Key c')).
    now apply (trail_followBytes d idx (indexStack c') _ _ rest').
  - unfold on_trail in Htr'.
    rewrite <- (length_rev (Key c')).
    clear -Htr'. revert Htr'.
    generalize (rev (Key c')) as rkey. generalize (indexStack c') as st.
    induction st as [| s st IH]; intros rkey Htr;
      [simpl in Htr; contradiction |].
    destruct st as [| p st'].
    + destruct rkey; simpl in Htr; [reflexivity | contradiction].
    + destruct rkey as [| l rkey']; simpl in Htr; [contradiction |].
      destruct Htr as [_ Htr]. specialize (IH rkey' Htr).
      cbn [length] in *. lia.
Qed.

(** From the node behind the payload separator of [кошки] the first
    completion is the key [AAAAAQ==] and its line feed. *)
Lemma next_key_leads_to_terminal_witness :
  followBytes (dict demoWords) [65; 65; 65; 65; 65; 81; 61; 61; 10] 26
    = Val (Some 36) /\
  hasValue (dict demoWords) 36 = Val true /\
  length [36; 37; 31; 33; 35; 30; 29; 28; 27; 26]
    = S (length [65; 65; 65; 65; 65; 81; 61; 61; 10]).
Proof.
  apply (next_key_leads_to_terminal (dict demoWords) (wguide demoWords)
           100 26 (start newCompleter 26 [])
           {| Key := [65; 65; 65; 65; 65; 81; 61; 61; 10];
              indexStack := [36; 37; 31; 33; 35; 30; 29; 28; 27; 26];
              lastIndex := 36 |}).
  - reflexivity.
  - vm_compute; reflexivity.
Defined.

(** ** The entries of a word *)

Lemma collect_sound (d : dictionary) (g : guide) (idx : Z)
    (fuel inner : nat) :
  forall c acc es,
    on_trail d idx c ->
    collect fuel inner d g c acc = Val es ->
    forall e, e ∈ es ->
      e ∈ acc \/
      exists key t,
        decodeEntry key = Some e /\
        followBytes d key idx = Val (Some t) /\
        hasValue d t = Val true.
Proof.
  induction fuel as [| fuel IH]; intros c acc es Htr H e He;
    [discriminate |].
  cbn [collect] in H.
  destruct (next inner d g c) as [[[|] c1] | |] eqn:En; cbn [rbind] in H;
    try discriminate.
  - destruct (next_trail d g idx inner c c1 Htr En)
      as (Htr1 & Hhv & rest1 & Hst1).
    assert (Hkey : followBytes d (Key c1) idx = Val (Some (lastIndex c1))).
    { rewrite <- (rev_involutive (Key c1)).
      now apply (trail_followBytes d idx (indexStack c1) _ _ rest1). }
    destruct (IH _ _ _ Htr1 H e He) as [Hin | Hnew]; [| now right].
    destruct (decodeEntry (Key c1)) as [e1 |] eqn:Ed; [| now left].
    apply elem_of_app in Hin as [Hin | Hin]; [now left |].
    apply list_elem_of_singleton in Hin as ->.
    right. exists (Key c1), (lastIndex c1). now repeat split.
  - injection H as <-. now left.
Qed.

(** Every entry that [get] returns for a word is the decoded payload of a
    key that the dictionary stores: the bytes of the word, the separator
    and that payload lead from the root to a node that has a value. *)
Theorem get_sound (fuel : nat) (w : wordsDawg) (word : string)
    (es : list wordEntry) (e : wordEntry) :
  get fuel w word = Val es ->
  e ∈ es ->
  exists key,
    decodeEntry key = Some e /\
    stored (dict w) (bytes word ++ dawgPayloadSep :: key).
Proof.
  unfold get. intros H He.
  destruct (followBytes (dict w) (bytes word) 0) as [[idx |] | |] eqn:E1;
    cbn [rbind] in H; try discriminate;
    [| injection H as <-; inversion He].
  destruct (followChar (dict w) dawgPayloadSep idx) as [[idx' |] | |] eqn:E2;
    cbn [rbind] in H; try discriminate;
    [| injection H as <-; inversion He].
  destruct (collect_sound (dict w) (wguide w) idx' fuel fuel
              (start newCompleter idx' []) [] es) with (e := e)
    as [Hin | (key & t & Hd & Hf & Hhv)];
    [reflexivity | assumption | assumption | inversion Hin |].
  exists key. split; [assumption |]. exists t. split; [| assumption].
  rewrite followBytes_app, E1. cbn [rbind followBytes].
  rewrite E2. cbn [rbind]. assumption.
Qed.

Lemma get_sound_witness :
  exists key,
    decodeEntry key = Some {| paradigmID := 0; formIdx := 6 |} /\
    stored (dict demoWords) (bytes "кошки" ++ dawgPayloadSep :: key).
Proof.
  apply (get_sound 100 demoWords "кошки"
           [{| paradigmID := 0; formIdx := 1 |};
            {| paradigmID := 0; formIdx := 6 |}]).
  - vm_compute; reflexivity.
  - right. left.
Defined.

Lemma decodeQuanta_bytes :
  forall n s out, (length s <= n)%nat ->
    decodeQuanta s = Some out -> Forall is_byte out.
Proof.
  assert (Hq : forall v0 v1 v2 v3, Forall is_byte (quantum v0 v1 v2 v3)).
  { intros. unfold quantum. change 0xFF with (Z.ones 8).
    repeat (apply Forall_cons_2;
            [unfold is_byte; rewrite Z.land_ones by lia;
             apply Z.mod_pos_bound; lia |]).
    apply Forall_nil_2. }
  induction n as [| n IH]; intros s out Hlen H.
  - destruct s; [| simpl in Hlen; lia]. injection H as <-. constructor.
  - destruct s as [| c0 [| c1 [| c2 [| c3 rest]]]]; try discriminate.
    { injection H as <-. constructor. }
    cbn [decodeQuanta] in H.
    destruct (b64val c0) as [v0 |]; [| discriminate].
    destruct (b64val c1) as [v1 |]; [| discriminate].
    destruct (b64val c2) as [v2 |].
    + destruct (b64val c3) as [v3 |].
      * destruct (decodeQuanta rest) as [out' |] eqn:E; [| discriminate].
        injection H as <-.
        apply (Forall_app_2 _ (quantum v0 v1 v2 v3) out'); [apply Hq |].
        apply (IH rest); [simpl in Hlen; lia | assumption].
      * destruct ((c3 =? 61) && bool_decide (rest = [])); [| discriminate].
        injection H as <-.
        apply (Forall_take _ 2 (quantum v0 v1 v2 0)), Hq.
    + destruct ((c2 =? 61) && (c3 =? 61) && bool_decide (rest = []));
        [| discriminate].
      injection H as <-.
      apply (Forall_take _ 1 (quantum v0 v1 0 0)), Hq.
Qed.

Lemma be16_range (hi lo : Z) :
  is_byte hi -> is_byte lo -> 0 <= be16 hi lo < 65536.
Proof.
  intros Hhi Hlo.
  assert (H : be16 hi lo = uintLE [lo; hi]).
  { unfold be16. cbn [uintLE]. rewrite Z.shiftl_0_l, Z.lor_0_r.
    apply Z.lor_comm. }
  rewrite H.
  apply (uintLE_range [lo; hi]).
  repeat (apply Forall_cons_2; [assumption |]). apply Forall_nil_2.
Qed.

Lemma decodeEntry_range (key : list Z) (e : wordEntry) :
  decodeEntry key = Some e ->
  0 <= paradigmID e < 65536 /\ 0 <= formIdx e < 65536.
Proof.
  unfold decodeEntry. intros H.
  match type of H with
  | match base64_DecodeString ?k with _ => _ end = _ =>
      destruct (base64_DecodeString k) as [out |] eqn:E; [| discriminate]
  end.
  unfold base64_DecodeString in E.
  apply (decodeQuanta_bytes _ _ _ (Nat.le_refl _)) in E.
  destruct out as [| d0 [| d1 [| d2 [| d3 out']]]]; try discriminate.
  injection H as <-. cbn [paradigmID formIdx].
  inversion E as [| ? ? H0 E1]; subst.
  inversion E1 as [| ? ? H1 E2]; subst.
  inversion E2 as [| ? ? H2 E3]; subst.
  inversion E3 as [| ? ? H3 E4]; subst.
  split; now apply be16_range.
Qed.

Lemma collect_range (d : dictionary) (g : guide) (fuel inner : nat) :
  forall c acc es,
    Forall (fun e => 0 <= paradigmID e < 65536 /\ 0 <= formIdx e < 65536)
           acc ->
    collect fuel inner d g c acc = Val es ->
    Forall (fun e => 0 <= paradigmID e < 65536 /\ 0 <= formIdx e < 65536) es.
Proof.
  induction fuel as [| fuel IH]; intros c acc es Hacc H; [discriminate |].
  cbn [collect] in H.
  destruct (next inner d g c) as [[[|] c1] | |]; cbn [rbind] in H;
    try discriminate.
  - apply (IH _ _ _) in H; [assumption |].
    destruct (decodeEntry (Key c1)) as [e1 |] eqn:Ed; [| assumption].
    apply Forall_app. split; [assumption |].
    apply Forall_cons_2; [| apply Forall_nil_2].
    now apply (decodeEntry_range (Key c1)).
  - now injection H as <-.
Qed.

(** The paradigm id and the form index of every entry that [get] returns
    are 16-bit values, whatever the units and the guide hold. *)
Theorem get_entries_16bit (fuel : nat) (w : wordsDawg) (word : string)
    (es : list wordEntry) :
  get fuel w word = Val es ->
  Forall (fun e => 0 <= paradigmID e < 65536 /\ 0 <= formIdx e < 65536) es.
Proof.
  unfold get. intros H.
  destruct (followBytes (dict w) (bytes word) 0) as [[idx |] | |];
    cbn [rbind] in H; try discriminate;
    [| injection H as <-; constructor].
  destruct (followChar (dict w) dawgPayloadSep idx) as [[idx' |] | |];
    cbn [rbind] in H; try discriminate;
    [| injection H as <-; constructor].
  apply (collect_range _ _ _ _ _ _ _ (Forall_nil_2 _) H).
Qed.

Lemma get_entries_16bit_witness :
  Forall (fun e => 0 <= paradigmID e < 65536 /\ 0 <= formIdx e < 65536)
         [{| paradigmID := 0; formIdx := 1 |};
          {| paradigmID := 0; formIdx := 6 |}].
Proof.
  apply (get_entries_16bit 100 demoWords "кошки").
  vm_compute; reflexivity.
Defined.

(** ** Lookups that cannot panic *)

Lemma lxor_byte_in_block (base label n : Z) :
  0 <= base < n -> n mod 256 = 0 -> 0 <= label < 256 ->
  0 <= Z.lxor base label < n.
Proof.
  intros Hb Hn Hl.
  assert (H0 : 0 <= Z.lxor base label) by (apply Z.lxor_nonneg; lia).
  split; [assumption |].
  assert (Hdiv : Z.lxor base label / 256 = base / 256).
  { change 256 with (2 ^ 8). rewrite <- !Z.shiftr_div_pow2 by lia.
    rewrite Z.shiftr_lxor.
    rewrite (Z.shiftr_div_pow2 label) by lia.
    change (2 ^ 8) with 256. rewrite (Z.div_small label) by lia.
    apply Z.lxor_0_r. }
  pose proof (Z.div_mod (Z.lxor base label) 256 ltac:(lia)) as Hx.
  pose proof (Z.mod_pos_bound (Z.lxor base label) 256 ltac:(lia)).
  pose proof (Z.div_mod base 256 ltac:(lia)) as Hbd.
  pose proof (Z.mod_pos_bound base 256 ltac:(lia)).
  pose proof (Z.div_mod n 256 ltac:(lia)) as Hnd.
  rewrite Hn in Hnd. rewrite Hdiv in Hx.
  assert (base / 256 < n / 256) by nia.
  nia.
Qed.

Lemma block_padded_spec (d : dictionary) :
  block_padded d = true ->
  0 < Z.of_nat (length (units d)) /\
  Z.of_nat (length (units d)) mod 256 = 0 /\
  forall i u,
    index (units d) i = Val u ->
    i = 0 \/ Z.testbit u 31 = false ->
    Z.land (Z.lxor i (unitOffset u)) precisionMask
      < Z.of_nat (length (units d)).
Proof.
  unfold block_padded. intros H.
  apply andb_prop in H as [H Hall]. apply andb_prop in H as [Hpos Hmod].
  apply Z.ltb_lt in Hpos. apply Z.eqb_eq in Hmod.
  split; [assumption |]. split; [assumption |].
  intros i u Hu Hnl.
  rewrite forallb_forall in Hall.
  pose proof Hu as Hu'. apply index_Val in Hu' as [Hi Hlk].
  apply lookup_lt_Some in Hlk.
  specialize (Hall i). rewrite Hu in Hall.
  assert (Hin : In i (seqZ 0 (Z.of_nat (length (units d))))).
  { apply list_elem_of_In, elem_of_seqZ. lia. }
  apply Hall in Hin. apply orb_prop in Hin as [Hleaf | Hlt].
  - apply andb_prop in Hleaf as [Hi0 Hbit]. apply Z.ltb_lt in Hi0.
    destruct Hnl as [-> | Hnl]; [lia | congruence].
  - now apply Z.ltb_lt.
Qed.

Lemma leavable_in_range (d : dictionary) (i : Z) :
  leavable d i -> 0 <= i < Z.of_nat (length (units d)).
Proof.
  intros (u & Hu & _). apply index_Val in Hu as [Hi Hlk].
  apply lookup_lt_Some in Hlk. lia.
Qed.

Lemma followChar_safe (d : dictionary) (label idx : Z) :
  block_padded d = true ->
  leavable d idx ->
  0 <= label < 256 ->
  exists r, followChar d label idx = Val r /\
            forall nxt, r = Some nxt -> leavable d nxt.
Proof.
  intros Hd (u & Hu & Hnl) Hl.
  destruct (block_padded_spec d Hd) as (Hpos & Hmod & Hbase).
  specialize (Hbase idx u Hu Hnl).
  assert (Hnext : Z.land (Z.lxor (Z.lxor idx (unitOffset u)) label)
                         precisionMask
                  = Z.lxor (Z.land (Z.lxor idx (unitOffset u)) precisionMask)
                           label).
  { apply Z.bits_inj'. intros n Hn.
    rewrite Z.land_spec, !Z.lxor_spec, Z.land_spec.
    unfold precisionMask. change 0xFFFFFFFF with (Z.ones 32).
    destruct (Z.ltb_spec n 32).
    - rewrite Z.ones_spec_low by lia. rewrite !andb_true_r.
      now rewrite ?Z.lxor_spec.
    - rewrite Z.ones_spec_high by lia. rewrite !andb_false_r.
      rewrite ?Z.lxor_spec. simpl. symmetry.
      destruct (Z.eq_dec label 0) as [-> | Hne]; [apply Z.bits_0 |].
      apply Z.bits_above_log2; [lia |].
      apply Z.log2_lt_pow2; [lia |].
      apply Z.lt_le_trans with (2 ^ 8); [lia |].
      apply Z.pow_le_mono_r; lia. }
  assert (Hrange : 0 <= Z.land (Z.lxor (Z.lxor idx (unitOffset u)) label)
                               precisionMask
                   < Z.of_nat (length (units d))).
  { rewrite Hnext. apply lxor_byte_in_block; try assumption.
    split; [| assumption]. apply Z.land_nonneg. right.
    unfold precisionMask. lia. }
  destruct (index_in_range (units d) _ Hrange) as [un Hun].
  unfold followChar. rewrite Hu. cbn [rbind]. rewrite Hun. cbn [rbind].
  destruct (Z.eqb_spec (unitLabel un) label) as [Hlab | _].
  - eexists. split; [reflexivity |]. intros nxt Hn. injection Hn as <-.
    exists un. split; [assumption |]. right.
    now destruct (unitLabel_byte un label Hl Hlab) as [Hbit _].
  - eexists. split; [reflexivity |]. discriminate.
Qed.

Lemma followBytes_safe (d : dictionary) (b : list Z) :
  block_padded d = true ->
  Forall is_byte b ->
  forall idx, leavable d idx ->
    exists r, followBytes d b idx = Val r /\
              forall t, r = Some t -> leavable d t.
Proof.
  intros Hd Hb. induction Hb as [| ch b Hch _ IH]; intros idx Hidx.
  - eexists. split; [reflexivity |]. intros t Ht. now injection Ht as <-.
  - cbn [followBytes].
    destruct (followChar_safe d ch idx Hd Hidx Hch) as ([nxt |] & Hf & Hn).
    + rewrite Hf. cbn [rbind]. apply IH. now apply Hn.
    + rewrite Hf. cbn [rbind]. eexists. split; [reflexivity |].
      discriminate.
Qed.

Lemma guide_entry_safe (d : dictionary) (g : guide) (idx off : Z) :
  guide_covers d g = true ->
  0 <= idx < Z.of_nat (length (units d)) ->
  0 <= off <= 1 ->
  exists l, index (gunits g) (wrap32 (wrap32 (idx * 2) + off)) = Val l /\
            0 <= l < 256.
Proof.
  unfold guide_covers. intros Hg Hidx Hoff.
  apply andb_prop in Hg as [Hlen Hbytes]. apply Z.leb_le in Hlen.
  rewrite forallb_forall in Hbytes.
  assert (Hw : 0 <= wrap32 (wrap32 (idx * 2) + off) <= idx * 2 + off).
  { unfold wrap32.
    pose proof (Z.mod_pos_bound (idx * 2) (2 ^ 32) ltac:(lia)).
    pose proof (Z.mod_le (idx * 2) (2 ^ 32) ltac:(lia) ltac:(lia)).
    pose proof (Z.mod_pos_bound ((idx * 2) mod 2 ^ 32 + off) (2 ^ 32)
                  ltac:(lia)).
    pose proof (Z.mod_le ((idx * 2) mod 2 ^ 32 + off) (2 ^ 32)
                  ltac:(lia) ltac:(lia)).
    lia. }
  destruct (index_in_range (gunits g) (wrap32 (wrap32 (idx * 2) + off)))
    as [l Hl]; [lia |].
  exists l. split; [assumption |].
  apply index_Val in Hl as [_ Hlk].
  apply list_elem_of_lookup_2, list_elem_of_In, Hbytes in Hlk.
  apply andb_prop in Hlk as [H1 H2].
  apply Z.leb_le in H1. apply Z.ltb_lt in H2. lia.
Qed.

Lemma child_safe (d : dictionary) (g : guide) (idx : Z) :
  guide_covers d g = true ->
  0 <= idx < Z.of_nat (length (units d)) ->
  exists l, child g idx = Val l /\ 0 <= l < 256.
Proof.
  intros Hg Hidx. unfold child.
  destruct (guide_entry_safe d g idx 0 Hg Hidx ltac:(lia)) as (l & Hl & Hb).
  exists l. split; [| assumption].
  rewrite Z.add_0_r in Hl. unfold wrap32 in *.
  now rewrite Z.mod_mod in Hl by lia.
Qed.

Lemma sibling_safe (d : dictionary) (g : guide) (idx : Z) :
  guide_covers d g = true ->
  0 <= idx < Z.of_nat (length (units d)) ->
  exists l, sibling g idx = Val l /\ 0 <= l < 256.
Proof.
  intros Hg Hidx. unfold sibling.
  apply (guide_entry_safe d g idx 1 Hg Hidx). lia.
Qed.

Lemma hasValue_safe (d : dictionary) (idx : Z) :
  leavable d idx -> exists b, hasValue d idx = Val b.
Proof.
  intros (u & Hu & _). unfold hasValue. rewrite Hu. cbn [rbind]. eauto.
Qed.


Section Safe.

Variables (d : dictionary) (g : guide).
Hypothesis Hd : block_padded d = true.
Hypothesis Hg : guide_covers d g = true.

Lemma follow_safe (c : completer) (label idx : Z) :
  Forall (leavable d) (indexStack c) ->
  leavable d idx ->
  0 <= label < 256 ->
  safe_step d (follow d c label idx) /\
  forall i c', follow d c label idx = Val (i, c') -> i <> 0 -> leavable d i.
Proof.
  intros Hst Hidx Hl. unfold follow.
  destruct (followChar_safe d label idx Hd Hidx Hl) as ([nxt |] & Hf & Hn);
    rewrite Hf; cbn [rbind safe_step indexStack].
  - split.
    + apply Forall_cons_2; [now apply Hn | assumption].
    + intros i c' H _. injection H as <- <-. now apply Hn.
  - split; [assumption |]. intros i c' H Hne. injection H as <- <-.
    contradiction.
Qed.

Lemma findTerminal_safe (fuel : nat) :
  forall c idx,
    Forall (leavable d) (indexStack c) ->
    leavable d idx ->
    safe_step d (findTerminal fuel d g c idx).
Proof.
  induction fuel as [| fuel IH]; intros c idx Hst Hidx; [exact I |].
  cbn [findTerminal].
  destruct (hasValue_safe d idx Hidx) as [hv Hhv]. rewrite Hhv.
  cbn [rbind]. destruct hv; [exact Hst |].
  destruct (child_safe d g idx Hg (leavable_in_range d idx Hidx))
    as (label & Hc & Hl).
  rewrite Hc. cbn [rbind].
  destruct (followChar_safe d label idx Hd Hidx Hl) as ([nxt |] & Hf & Hn);
    rewrite Hf; cbn [rbind].
  - apply IH; [| now apply Hn]. cbn [indexStack].
    apply Forall_cons_2; [now apply Hn | assumption].
  - exact Hst.
Qed.

Lemma ascend_safe (stack : list Z) :
  forall key last,
    Forall (leavable d) stack ->
    safe_step d (ascend d g key stack last) /\
    forall i c', ascend d g key stack last = Val (Some i, c') ->
                 leavable d i.
Proof.
  induction stack as [| idx stack IH]; intros key last Hst.
  - split; [constructor | discriminate].
  - cbn [ascend]. apply Forall_cons in Hst as [Hidx Hst].
    destruct (sibling_safe d g idx Hg (leavable_in_range d idx Hidx))
      as (sl & Hs & Hl).
    rewrite Hs. cbn [rbind].
    destruct stack as [| top stack'].
    + split; [constructor | discriminate].
    + pose proof Hst as Hst'. apply Forall_cons in Hst' as [Htop _].
      destruct (negb (sl =? 0)); [| now apply IH].
      set (c1 := {| Key := removelast key; indexStack := top :: stack';
                    lastIndex := last |}).
      destruct (follow_safe c1 sl top Hst Htop Hl) as [Hsafe Hnz].
      destruct (follow d c1 sl top) as [[i2 c2] | |];
        cbn [rbind safe_step] in *;
        [| contradiction | split; [exact I | discriminate]].
      destruct (Z.eqb_spec i2 0) as [-> | Hne].
      * split; [exact Hsafe | discriminate].
      * split; [exact Hsafe |]. intros i c' H. injection H as <- <-.
        now apply (Hnz i2 c2).
Qed.

Lemma next_safe (fuel : nat) (c : completer) :
  Forall (leavable d) (indexStack c) ->
  safe_step d (next fuel d g c).
Proof.
  intros Hst. unfold next.
  destruct (indexStack c) as [| idx stack] eqn:Est;
    [cbn [safe_step]; rewrite Est; constructor |].
  pose proof Hst as Hst'. apply Forall_cons in Hst' as [Hidx _].
  rewrite <- Est in Hst.
  destruct (negb (lastIndex c =? 0));
    [| now apply findTerminal_safe].
  destruct (child_safe d g idx Hg (leavable_in_range d idx Hidx))
    as (childLabel & Hc & Hl).
  rewrite Hc. cbn [rbind].
  destruct (negb (childLabel =? 0)).
  - destruct (follow_safe c childLabel idx Hst Hidx Hl) as [Hsafe Hnz].
    destruct (follow d c childLabel idx) as [[i2 c2] | |];
      cbn [rbind safe_step] in *; [| contradiction | exact I].
    destruct (Z.eqb_spec i2 0) as [-> | Hne]; [exact Hsafe |].
    apply findTerminal_safe; [exact Hsafe | now apply (Hnz i2 c2)].
  - rewrite Est in Hst.
    destruct (ascend_safe (idx :: stack) (Key c) (lastIndex c) Hst)
      as [Hsafe Hsome].
    destruct (ascend d g (Key c) (idx :: stack) (lastIndex c))
      as [[[i2 |] c2] | |]; cbn [rbind safe_step] in *;
      [| exact Hsafe | contradiction | exact I].
    apply findTerminal_safe; [exact Hsafe | now apply (Hsome i2 c2)].
Qed.

Lemma collect_safe (inner fuel : nat) :
  forall c acc,
    Forall (leavable d) (indexStack c) ->
    collect fuel inner d g c acc <> Panic.
Proof.
  induction fuel as [| fuel IH]; intros c acc Hst; [discriminate |].
  cbn [collect].
  pose proof (next_safe inner c Hst) as Hn.
  destruct (next inner d g c) as [[[|] c1] | |]; cbn [rbind safe_step] in *;
    try contradiction; try discriminate.
  now apply IH.
Qed.

End Safe.

(** On a unit array laid out in whole blocks, with a guide that has its
    two bytes for every unit, [get] does not panic, whatever the word: it
    returns entries, or is still running when the fuel ends. *)
Theorem get_never_panics (fuel : nat) (w : wordsDawg) (word : string) :
  block_padded (dict w) = true ->
  guide_covers (dict w) (wguide w) = true ->
  get fuel w word <> Panic.
Proof.
  intros Hd Hg. unfold get.
  assert (Hroot : leavable (dict w) 0).
  { destruct (block_padded_spec _ Hd) as (Hpos & _ & _).
    destruct (index_in_range (units (dict w)) 0) as [u Hu]; [lia |].
    exists u. split; [assumption | now left]. }
  assert (Hbytes : Forall is_byte (bytes word)).
  { unfold bytes. apply Forall_map, Forall_forall. intros ch _.
    unfold is_byte, byte_val. cbn.
    pose proof (N_ascii_bounded ch). lia. }
  destruct (followBytes_safe (dict w) (bytes word) Hd Hbytes 0 Hroot)
    as ([idx |] & Hf & Hidx); rewrite Hf; cbn [rbind]; [| discriminate].
  destruct (followChar_safe (dict w) dawgPayloadSep idx Hd
              (Hidx idx eq_refl)) as ([idx' |] & Hf' & Hidx');
    [unfold dawgPayloadSep; lia | | ]; rewrite Hf'; cbn [rbind];
    [| discriminate].
  apply collect_safe; try assumption.
  cbn [start indexStack].
  apply Forall_cons_2; [now apply Hidx' | apply Forall_nil_2].
Qed.

(** The small dictionary is laid out this way, so that no word can make a
    lookup in it panic. *)
Lemma get_never_panics_witness :
  get 100 demoWords "ыыыыыыы" <> Panic /\ get 100 demoWords "a" <> Panic.
Proof.
  split; apply get_never_panics; vm_compute; reflexivity.
Defined.

(** ** Tags *)

Lemma prefix_append (p s : string) :
  String.prefix p s = true -> exists rest, s = p +:+ rest.
Proof.
  revert s. induction p as [| c p IH]; intros s H.
  - exists s. reflexivity.
  - destruct s as [| c' s]; [discriminate |]. cbn [String.prefix] in H.
    destruct (ascii_dec c c') as [<- | ]; [| discriminate].
    destruct (IH s H) as [rest ->]. exists rest. reflexivity.
Qed.

(** [Contains] is the occurrence of a run of bytes. *)
Lemma Contains_spec (s sub : string) :
  Contains s sub = true <-> exists a b, s = a +:+ sub +:+ b.
Proof.
  split.
  - induction s as [| c s IH]; cbn [Contains]; intros H.
    + rewrite orb_false_r in H. apply prefix_append in H as [rest ->].
      exists "", rest. reflexivity.
    + apply orb_prop in H as [H | H].
      * apply prefix_append in H as [rest ->]. exists "", rest. reflexivity.
      * destruct (IH H) as (a & b & ->). exists (String c a), b.
        reflexivity.
  - intros (a & b & ->). induction a as [| c a IH].
    + rewrite append_empty_l.
      destruct (sub +:+ b) eqn:E; cbn [Contains]; rewrite <- E;
        change (String.prefix sub (sub +:+ b)) with (HasPrefix (sub +:+ b) sub);
        now rewrite HasPrefix_append.
    + rewrite append_String. cbn [Contains]. rewrite IH. apply orb_true_r.
Qed.

Lemma IndexAny_split (s : string) (i : nat) :
  IndexAny_comma_space s = Some i ->
  IndexAny_comma_space (substring 0 i s) = None /\
  exists c rest,
    s = substring 0 i s +:+ String c rest /\
    (byte_val c = 44 \/ byte_val c = 32).
Proof.
  revert i. induction s as [| c s IH]; intros i H; [discriminate |].
  cbn [IndexAny_comma_space] in H.
  destruct ((byte_val c =? 44) || (byte_val c =? 32)) eqn:E.
  - injection H as <-. split; [reflexivity |].
    exists c, s. split; [reflexivity |].
    apply orb_prop in E as [E | E]; apply Z.eqb_eq in E; tauto.
  - destruct (IndexAny_comma_space s) as [j |] eqn:Ej; [| discriminate].
    injection H as <-. destruct (IH j eq_refl) as (Hnone & c' & rest & Hs & Hc).
    split.
    + cbn [substring IndexAny_comma_space]. now rewrite E, Hnone.
    + exists c', rest. split; [| assumption].
      cbn [substring]. rewrite append_String. now rewrite <- Hs.
Qed.

(** [tagPOS] returns the part of the tag before its first comma or space:
    the result holds neither, and the tag is the result itself or the
    result followed by a comma or a space and the rest. *)
Theorem tagPOS_is_first_token (tag : string) :
  IndexAny_comma_space (tagPOS tag) = None /\
  (tagPOS tag = tag \/
   exists c rest,
     tag = tagPOS tag +:+ String c rest /\
     (byte_val c = 44 \/ byte_val c = 32)) /\
  tagPOS (tagPOS tag) = tagPOS tag.
Proof.
  destruct (IndexAny_comma_space tag) as [i |] eqn:E.
  - assert (Ht : tagPOS tag = substring 0 i tag)
      by (unfold tagPOS; now rewrite E).
    destruct (IndexAny_split tag i E) as (Hnone & c & rest & Hs & Hc).
    rewrite !Ht. split; [assumption |]. split; [right; eauto |].
    unfold tagPOS. now rewrite Hnone.
  - assert (Ht : tagPOS tag = tag) by (unfold tagPOS; now rewrite E).
    rewrite !Ht. split; [assumption |]. split; [now left | reflexivity].
Qed.

(** [tagGrammeme] returns the first candidate that occurs in the tag, and
    the empty string when none does. *)
Theorem tagGrammeme_first_match (tag : string) (candidates : list string) :
  (exists before after,
     candidates = before ++ tagGrammeme tag candidates :: after /\
     Contains tag (tagGrammeme tag candidates) = true /\
     Forall (fun c => Contains tag c = false) before) \/
  (tagGrammeme tag candidates = "" /\
   Forall (fun c => Contains tag c = false) candidates).
Proof.
  induction candidates as [| g rest IH]; cbn [tagGrammeme].
  - right. split; [reflexivity | constructor].
  - destruct (Contains tag g) eqn:E.
    + left. exists [], rest. repeat split; [assumption | constructor].
    + destruct IH as [(before & after & Hc & Hin & Hb) | [Hnone Hall]].
      * left. exists (g :: before), after. split; [now rewrite Hc at 1 |].
        split; [assumption |]. now constructor.
      * right. split; [assumption |]. now constructor.
Qed.

(** [Tag] never makes a tag up: it returns the empty string or a tag of
    the gramtab. *)
Theorem Tag_from_gramtab (lower : Z -> Z) (fuel : nat) (a : Analyzer)
    (w tag : string) :
  Tag lower fuel a w = Val tag -> tag = "" \/ tag ∈ gramtab a.
Proof.
  unfold Tag. intros H.
  destruct (get fuel (words a) (ToLower lower (TrimSpace w)))
    as [[| e es] | |]; cbn [rbind] in H; try discriminate.
  { injection H as <-. now left. }
  destruct (index (paradigms a) (paradigmID e)) as [para | |];
    cbn [rbind] in H; try discriminate.
  destruct (index para (Z.of_nat (length para) / 3 + formIdx e))
    as [tagID | |]; cbn [rbind] in H; try discriminate.
  destruct (Z.of_nat (length (gramtab a)) <=? tagID).
  { injection H as <-. now left. }
  right. apply index_Val in H as [_ H].
  now apply list_elem_of_lookup_2 in H.
Qed.

Lemma Tag_from_gramtab_witness :
  "NOUN,inan,femn sing,accs" = "" \/
  "NOUN,inan,femn sing,accs" ∈ gramtab demo.
Proof.
  apply (Tag_from_gramtab ruLower 100 demo "кошку").
  vm_compute; reflexivity.
Defined.

(** ** The shape of the forms *)





(** The forms depend on the lexeme alone: two words whose first entries
    name the same paradigm and that have the same stem get the same
    list, in the same order. *)
Theorem WordForms_same_lexeme (lower : Z -> Z) (fuel : nat) (a : Analyzer)
    (w1 w2 : string) (e1 e2 : wordEntry) (es1 es2 : list wordEntry)
    (para : list Z) (stem : string) :
  ToLower lower (TrimSpace w1) <> "" ->
  ToLower lower (TrimSpace w2) <> "" ->
  get fuel (words a) (ToLower lower (TrimSpace w1)) = Val (e1 :: es1) ->
  get fuel (words a) (ToLower lower (TrimSpace w2)) = Val (e2 :: es2) ->
  paradigmID e1 = paradigmID e2 ->
  index (paradigms a) (paradigmID e1) = Val para ->
  extractStem a (ToLower lower (TrimSpace w1)) para
    (Z.of_nat (length para) / 3) (formIdx e1) = Val (Some stem) ->
  extractStem a (ToLower lower (TrimSpace w2)) para
    (Z.of_nat (length para) / 3) (formIdx e2) = Val (Some stem) ->
  formIdx e1 < Z.of_nat (length para) / 3 ->
  formIdx e2 < Z.of_nat (length para) / 3 ->
  WordForms lower fuel a w1 = WordForms lower fuel a w2.
Proof.
  intros Hne1 Hne2 Hget1 Hget2 Hpid Hpara Hs1 Hs2 Hf1 Hf2.
  rewrite (WordForms_found _ _ _ _ _ _ _ _ eq_refl Hne1 Hget1 Hpara).
  rewrite Hpid in Hpara.
  rewrite (WordForms_found _ _ _ _ _ _ _ _ eq_refl Hne2 Hget2 Hpara).
  destruct (Z.leb_spec (Z.of_nat (length para) / 3) (formIdx e1)); [lia |].
  destruct (Z.leb_spec (Z.of_nat (length para) / 3) (formIdx e2)); [lia |].
  now rewrite Hs1, Hs2.
Qed.

Lemma WordForms_same_lexeme_witness :
  WordForms ruLower 100 demo "кошка" = WordForms ruLower 100 demo " Кошку".
Proof.
  apply (WordForms_same_lexeme ruLower 100 demo "кошка" " Кошку"
           {| paradigmID := 0; formIdx := 0 |}
           {| paradigmID := 0; formIdx := 3 |} [] [] demoNoun "кош").
  - discriminate.
  - vm_compute; discriminate.
  - vm_compute; reflexivity.
  - vm_compute; reflexivity.
  - reflexivity.
  - vm_compute; reflexivity.
  - vm_compute; reflexivity.
  - vm_compute; reflexivity.
  - vm_compute; reflexivity.
  - vm_compute; reflexivity.
Defined.

(** ** Blank input *)

Lemma trimLeft_fuel_blank (fuel : nat) (s : list Z) :
  Forall (fun b => IsSpace b = true /\ b < 0x80) s ->
  trimLeft_fuel fuel s = [].
Proof.
  revert s. induction fuel as [| fuel IH]; intros s Hs;
    [now destruct s |].
  destruct Hs as [| b s [Hsp Hb] Hs]; [reflexivity |].
  cbn [trimLeft_fuel decodeRune].
  destruct (Z.ltb_spec b 0x80); [| lia].
  rewrite Hsp. cbn [drop]. now apply IH.
Qed.

Lemma TrimSpace_blank (s : string) :
  Forall (fun b => IsSpace b = true /\ b < 0x80) (bytes s) ->
  TrimSpace s = "".
Proof.
  intros Hs. unfold TrimSpace. now rewrite trimLeft_fuel_blank.
Qed.

(** Input made of ASCII white space only, the empty string included, has
    no forms: [WordForms] and [PhraseFormsConcordant] both return the
    empty list, whatever the dictionary holds, and without reading it. *)
Theorem blank_input_has_no_forms (lower : Z -> Z) (fuel : nat)
    (a : Analyzer) (s : string) :
  Forall (fun b => IsSpace b = true /\ b < 0x80) (bytes s) ->
  WordForms lower fuel a s = Val [] /\
  PhraseFormsConcordant lower fuel a s = Val [].
Proof.
  intros Hs. unfold WordForms, PhraseFormsConcordant.
  rewrite (TrimSpace_blank s Hs). split; reflexivity.
Qed.

Lemma blank_input_has_no_forms_witness :
  WordForms ruLower 0 demoNoParadigms "   " = Val [] /\
  PhraseFormsConcordant ruLower 0 demoNoParadigms "   " = Val [].
Proof.
  apply (blank_input_has_no_forms ruLower 0 demoNoParadigms "   ").
  repeat constructor.
Defined.

(** ** What inflection can return *)

Lemma inflectLoop_Val (a : Analyzer) (para : list Z) (n : Z)
    (stem word cas number gender animacy : string) (idxs : list Z)
    (r : string) :
  inflectLoop a para n stem word cas number gender animacy idxs = Val r ->
  r = word \/
  exists i tag,
    i ∈ idxs /\ tagAt a para n i = Val tag /\
    tagMatches tag cas number gender animacy = true /\
    formAt a para n stem i = Val r.
Proof.
  induction idxs as [| i idxs IH]; cbn [inflectLoop]; intros H.
  - injection H as <-. now left.
  - destruct (tagAt a para n i) as [tag | |] eqn:Htag; cbn [rbind] in H;
      try discriminate.
    destruct (tagMatches tag cas number gender animacy) eqn:Hm.
    + right. exists i, tag. split; [left |]. repeat split; assumption.
    + destruct (IH H) as [-> | (j & tag' & Hj & Hrest)]; [now left |].
      right. exists j, tag'. split; [now right | assumption].
Qed.

Lemma append_cancel_l (p s t : string) : p +:+ s = p +:+ t -> s = t.
Proof.
  induction p as [| c p IH]; intros H.
  - now rewrite !append_empty_l in H.
  - rewrite !append_String in H. injection H as H. now apply IH.
Qed.

Lemma append_cancel_r (u s t : string) : s +:+ u = t +:+ u -> s = t.
Proof.
  revert t. induction s as [| c s IH]; intros [| c' t] H.
  - reflexivity.
  - apply (f_equal String.length) in H. rewrite !length_append in H.
    simpl in H. lia.
  - apply (f_equal String.length) in H. rewrite !length_append in H.
    simpl in H. lia.
  - rewrite !append_String in H. injection H as -> H.
    now rewrite (IH t H).
Qed.

Lemma formAt_affixes (a : Analyzer) (para : list Z) (n : Z) (stem : string)
    (i : Z) (f : string) :
  formAt a para n stem i = Val f ->
  exists prefix suffix,
    affixesAt a para n i prefix suffix /\ f = prefix +:+ stem +:+ suffix.
Proof.
  unfold formAt. intros H.
  destruct (index para (2 * n + i)) as [pid | |] eqn:E3; cbn [rbind] in H;
    try discriminate.
  destruct (index paradigmPrefixes pid) as [prefix | |] eqn:E4;
    cbn [rbind] in H; try discriminate.
  destruct (index para i) as [sid | |] eqn:E1; cbn [rbind] in H;
    try discriminate.
  destruct (index (suffixes a) sid) as [suffix | |] eqn:E2;
    cbn [rbind] in H; try discriminate.
  injection H as <-. exists prefix, suffix.
  split; [| reflexivity]. exists pid, sid.
  repeat split; first [assumption | reflexivity].
Qed.

(** [inflect] never leaves the lexeme. What it returns is the word, or a
    form of the paradigm of the word's first entry built on the stem of
    the word: the word is the prefix and the suffix of its own form, as
    the tables give them, around a stem, which is the only string that
    fits between them; the result is the prefix and the suffix of a form
    [i] of the same paradigm around that same stem; and the tag of form
    [i], a tag of the gramtab, has every grammeme asked for. *)
Theorem inflect_keeps_stem (fuel : nat) (a : Analyzer)
    (word cas number gender animacy r : string) :
  inflect fuel a word cas number gender animacy = Val r ->
  r = word \/
  exists e es para stem prefix suffix i prefix' suffix' tag,
    get fuel (words a) word = Val (e :: es) /\
    index (paradigms a) (paradigmID e) = Val para /\
    affixesAt a para (Z.of_nat (length para) / 3) (formIdx e)
              prefix suffix /\
    word = prefix +:+ stem +:+ suffix /\
    (forall stem', word = prefix +:+ stem' +:+ suffix -> stem' = stem) /\
    0 <= i < Z.of_nat (length para) / 3 /\
    affixesAt a para (Z.of_nat (length para) / 3) i prefix' suffix' /\
    r = prefix' +:+ stem +:+ suffix' /\
    tagAt a para (Z.of_nat (length para) / 3) i = Val tag /\
    prefix' ∈ paradigmPrefixes /\ suffix' ∈ suffixes a /\
    tag ∈ gramtab a /\
    tagMatches tag cas number gender animacy = true.
Proof.
  unfold inflect. intros H.
  destruct (get fuel (words a) word) as [[| e es] | |] eqn:Hget;
    cbn [rbind] in H; try discriminate; [injection H as <-; now left |].
  destruct (index (paradigms a) (paradigmID e)) as [para | |] eqn:Hpara;
    cbn [rbind] in H; try discriminate.
  destruct (extractStem a word para (Z.of_nat (length para) / 3) (formIdx e))
    as [[stem |] | |] eqn:Hstem; cbn [rbind] in H; try discriminate;
    [| injection H as <-; now left].
  apply inflectLoop_Val in H as [-> | (i & tag & Hi & Htag & Hm & Hf)];
    [now left |].
  right.
  destruct (extractStem_Some _ _ _ _ _ _ Hstem)
    as (sid & suffix & pid & prefix & H1 & H2 & H3 & H4 & _ & _ & _ & Hw).
  destruct (formAt_affixes _ _ _ _ _ _ Hf)
    as (prefix' & suffix' & Haff & Hr).
  exists e, es, para, stem, prefix, suffix, i, prefix', suffix', tag.
  split; [first [assumption | reflexivity] |].
  split; [first [assumption | reflexivity] |].
  split; [exists pid, sid; repeat split; assumption |].
  split; [assumption |].
  split.
  { intros stem' Hw'. rewrite Hw in Hw' at 1.
    apply append_cancel_l in Hw'. now apply append_cancel_r in Hw'. }
  split; [apply elem_of_seqZ in Hi; lia |].
  split; [assumption |]. split; [assumption |]. split; [assumption |].
  destruct Haff as (pid' & sid' & A1 & A2 & A3 & A4).
  split; [apply index_Val in A2 as [_ A2];
          now apply list_elem_of_lookup_2 in A2 |].
  split; [apply index_Val in A4 as [_ A4];
          now apply list_elem_of_lookup_2 in A4 |].
  split; [| assumption].
  unfold tagAt in Htag.
  destruct (index para (Z.of_nat (length para) / 3 + i)) as [tid | |];
    cbn [rbind] in Htag; try discriminate.
  apply index_Val in Htag as [_ Htag].
  now apply list_elem_of_lookup_2 in Htag.
Qed.

Lemma inflect_keeps_stem_witness :
  "кошками" = "кошка" \/
  exists e es para stem prefix suffix i prefix' suffix' tag,
    get 100 (words demo) "кошка" = Val (e :: es) /\
    index (paradigms demo) (paradigmID e) = Val para /\
    affixesAt demo para (Z.of_nat (length para) / 3) (formIdx e)
              prefix suffix /\
    "кошка" = prefix +:+ stem +:+ suffix /\
    (forall stem', "кошка" = prefix +:+ stem' +:+ suffix -> stem' = stem) /\
    0 <= i < Z.of_nat (length para) / 3 /\
    affixesAt demo para (Z.of_nat (length para) / 3) i prefix' suffix' /\
    "кошками" = prefix' +:+ stem +:+ suffix' /\
    tagAt demo para (Z.of_nat (length para) / 3) i = Val tag /\
    prefix' ∈ paradigmPrefixes /\ suffix' ∈ suffixes demo /\
    tag ∈ gramtab demo /\
    tagMatches tag "ablt" "plur" "" "" = true.
Proof.
  apply (inflect_keeps_stem 100 demo "кошка" "ablt" "plur" "" "").
  vm_compute; reflexivity.
Defined.

(** ** The guard of [extractStem] *)

(** [extractStem] reports failure exactly when the word lacks the prefix
    or the suffix of its form: the test on the length of the stem that
    follows the slice never decides anything. *)
Theorem extractStem_fails_only_on_affixes (a : Analyzer) (word : string)
    (para : list Z) (n fi : Z) :
  extractStem a word para n fi = Val None <->
  exists sid suffix pid prefix,
    index para fi = Val sid /\
    index (suffixes a) sid = Val suffix /\
    index para (2 * n + fi) = Val pid /\
    index paradigmPrefixes pid = Val prefix /\
    (HasPrefix word prefix = false \/ HasSuffix word suffix = false).
Proof.
  split.
  - intros H.
    destruct (index para fi) as [sid | |] eqn:E1;
      [| unfold extractStem in H; rewrite E1 in H; discriminate ..].
    destruct (index (suffixes a) sid) as [suffix | |] eqn:E2;
      [| unfold extractStem in H; rewrite E1 in H; cbn [rbind] in H;
         rewrite E2 in H; discriminate ..].
    destruct (index para (2 * n + fi)) as [pid | |] eqn:E3;
      [| unfold extractStem in H; rewrite E1 in H; cbn [rbind] in H;
         rewrite E2 in H; cbn [rbind] in H; rewrite E3 in H;
         discriminate ..].
    destruct (index paradigmPrefixes pid) as [prefix | |] eqn:E4;
      [| unfold extractStem in H; rewrite E1 in H; cbn [rbind] in H;
         rewrite E2 in H; cbn [rbind] in H; rewrite E3 in H;
         cbn [rbind] in H; rewrite E4 in H; discriminate ..].
    exists sid, suffix, pid, prefix.
    do 4 (split; [first [assumption | reflexivity] |]).
    destruct (HasPrefix word prefix) eqn:Hp; [| now left].
    destruct (HasSuffix word suffix) eqn:Hs; [| now right].
    rewrite (extractStem_checks_passed a word para n fi sid pid suffix prefix
               E1 E2 E3 E4 Hp Hs) in H.
    destruct (len prefix + len suffix <=? len word); discriminate.
  - intros (sid & suffix & pid & prefix & E1 & E2 & E3 & E4 & Hor).
    unfold extractStem. rewrite E1; cbn [rbind]. rewrite E2; cbn [rbind].
    rewrite E3; cbn [rbind]. rewrite E4; cbn [rbind].
    destruct Hor as [-> | ->]; [reflexivity |].
    now rewrite orb_true_r.
Qed.

(** ** The scan for the head *)

(** The head found in the tail is the head of the whole list, one place
    further. *)
Lemma head_shift (lower : Z -> Z) (fuel : nat) (a : Analyzer)
    (w : string) (ws : list string) (info : wordInfo)
    (infos : list wordInfo) (i h : Z) :
  (i + 1 <= h /\
   exists w' info',
     ws !! Z.to_nat (h - (i + 1)) = Some w' /\
     infos !! Z.to_nat (h - (i + 1)) = Some info' /\
     isHead lower fuel a w' /\
     isNounPOS (pos info') = true /\
     forall j w'', (Z.to_nat (h - (i + 1)) < j)%nat ->
                   ws !! j = Some w'' ->
                   ~ isHead lower fuel a w'') ->
  i <= h /\
  exists w' info',
    (w :: ws) !! Z.to_nat (h - i) = Some w' /\
    (info :: infos) !! Z.to_nat (h - i) = Some info' /\
    isHead lower fuel a w' /\
    isNounPOS (pos info') = true /\
    forall j w'', (Z.to_nat (h - i) < j)%nat ->
                  (w :: ws) !! j = Some w'' ->
                  ~ isHead lower fuel a w''.
Proof.
  intros (Hle & w' & info' & Hw & Hi & Hh & Hn & Hafter).
  split; [lia |]. exists w', info'.
  replace (Z.to_nat (h - i)) with (S (Z.to_nat (h - (i + 1)))) by lia.
  do 4 (split; [assumption |]).
  intros [| j] w'' Hj Hl; [lia |]. apply (Hafter j); [lia | assumption].
Qed.

Lemma scanWords_spec (lower : Z -> Z) (fuel : nat) (a : Analyzer)
    (ws : list string) :
  forall i h0 infos h,
    scanWords lower fuel a ws i h0 = Val (infos, h) ->
    length infos = length ws /\
    ((h = h0 /\ forall w, w ∈ ws -> ~ isHead lower fuel a w) \/
     (i <= h /\
      exists w info,
        ws !! Z.to_nat (h - i) = Some w /\
        infos !! Z.to_nat (h - i) = Some info /\
        isHead lower fuel a w /\
        isNounPOS (pos info) = true /\
        forall j w', (Z.to_nat (h - i) < j)%nat -> ws !! j = Some w' ->
                     ~ isHead lower fuel a w')).
Proof.
  induction ws as [| w ws IH]; intros i h0 infos h H.
  - injection H as <- <-. split; [reflexivity |]. left.
    split; [reflexivity |]. intros w Hw. inversion Hw.
  - cbn [scanWords] in H.
    destruct (isServiceWord w) eqn:Hsv.
    { destruct (scanWords lower fuel a ws (i + 1) h0) as [[infos' h'] | |]
        eqn:E; cbn [rbind] in H; try discriminate.
      injection H as <- <-.
      destruct (IH _ _ _ _ E) as [Hlen [[-> Hno] | Hyes]].
      - split; [simpl; now rewrite Hlen |]. left. split; [reflexivity |].
        intros w' Hw'. apply elem_of_cons in Hw' as [-> | Hw'];
          [| now apply Hno].
        intros [Hns _]. congruence.
      - split; [simpl; now rewrite Hlen |]. right.
        now apply head_shift. }
    destruct (Tag lower fuel a w) as [tag | |] eqn:Htag; cbn [rbind] in H;
      try discriminate.
    destruct (String.eqb tag "") eqn:Hempty.
    { destruct (scanWords lower fuel a ws (i + 1) h0) as [[infos' h'] | |]
        eqn:E; cbn [rbind] in H; try discriminate.
      injection H as <- <-.
      destruct (IH _ _ _ _ E) as [Hlen [[-> Hno] | Hyes]].
      - split; [simpl; now rewrite Hlen |]. left. split; [reflexivity |].
        intros w' Hw'. apply elem_of_cons in Hw' as [-> | Hw'];
          [| now apply Hno].
        intros (_ & tag' & Htag' & Hne & _).
        rewrite Htag in Htag'. injection Htag' as <-.
        apply String.eqb_eq in Hempty. contradiction.
      - split; [simpl; now rewrite Hlen |]. right.
        now apply head_shift. }
    destruct (scanWords lower fuel a ws (i + 1)
                (if isNounPOS (tagPOS tag) then i else h0))
      as [[infos' h'] | |] eqn:E; cbn [rbind] in H; try discriminate.
    injection H as <- <-.
    destruct (IH _ _ _ _ E) as [Hlen [[-> Hno] | Hyes]].
    + split; [simpl; now rewrite Hlen |].
      destruct (isNounPOS (tagPOS tag)) eqn:Hnoun.
      * right. split; [lia |].
        exists w, {| pos := tagPOS tag;
                     animacy := tagGrammeme tag ["anim"; "inan"];
                     gender := tagGrammeme tag ["masc"; "femn"; "neut"] |}.
        replace (Z.to_nat (i - i)) with 0%nat by lia.
        split; [reflexivity |]. split; [reflexivity |].
        split.
        { split; [assumption |]. exists tag. split; [assumption |].
          split; [| assumption].
          intros ->. discriminate. }
        split; [assumption |].
        intros [| j] w' Hj Hl; [lia |].
        apply Hno. apply (list_elem_of_lookup_2 ws j w'). exact Hl.
      * left. split; [reflexivity |].
        intros w' Hw'. apply elem_of_cons in Hw' as [-> | Hw'];
          [| now apply Hno].
        intros (_ & tag' & Htag' & _ & Hn).
        rewrite Htag in Htag'. injection Htag' as <-. congruence.
    + split; [simpl; now rewrite Hlen |]. right.
      now apply head_shift.
Qed.

(** The first loop of [PhraseFormsConcordant] gives every token its info
    and picks the rightmost token that can be the head: either no token
    is a noun or a pronoun and the index is [-1], or the index is that of
    a noun or pronoun, the info stored at it says so, and no token after
    it can be the head. *)
Theorem scanWords_head_is_rightmost (lower : Z -> Z) (fuel : nat)
    (a : Analyzer) (ws : list string) (infos : list wordInfo) (h : Z) :
  scanWords lower fuel a ws 0 (-1) = Val (infos, h) ->
  length infos = length ws /\
  ((h = -1 /\ forall w, w ∈ ws -> ~ isHead lower fuel a w) \/
   (0 <= h /\
    exists w info,
      ws !! Z.to_nat h = Some w /\
      index infos h = Val info /\
      isHead lower fuel a w /\
      isNounPOS (pos info) = true /\
      forall j w', (Z.to_nat h < j)%nat -> ws !! j = Some w' ->
                   ~ isHead lower fuel a w')).
Proof.
  intros H. destruct (scanWords_spec _ _ _ _ _ _ _ _ H) as [Hlen Hcases].
  split; [assumption |].
  destruct Hcases as [Hno | (Hle & w & info & Hw & Hi & Hrest)];
    [now left |].
  right. split; [assumption |]. exists w, info.
  rewrite Z.sub_0_r in *. split; [assumption |].
  split; [| assumption].
  apply index_Val. split; [| assumption].
  apply lookup_lt_Some in Hi. lia.
Qed.

Lemma scanWords_head_is_rightmost_witness :
  length [ {| pos := "ADJF"; animacy := ""; gender := "femn" |};
           {| pos := "NOUN"; animacy := "inan"; gender := "femn" |};
           noInfo ] = length ["красивая"; "кошка"; "в"] /\
  ((1 = -1 /\
    forall w, w ∈ ["красивая"; "кошка"; "в"] -> ~ isHead ruLower 100 demo w) \/
   (0 <= 1 /\
    exists w info,
      ["красивая"; "кошка"; "в"] !! Z.to_nat 1 = Some w /\
      index [ {| pos := "ADJF"; animacy := ""; gender := "femn" |};
              {| pos := "NOUN"; animacy := "inan"; gender := "femn" |};
              noInfo ] 1 = Val info /\
      isHead ruLower 100 demo w /\
      isNounPOS (pos info) = true /\
      forall j w', (Z.to_nat 1 < j)%nat ->
                   ["красивая"; "кошка"; "в"] !! j = Some w' ->
                   ~ isHead ruLower 100 demo w')).
Proof.
  apply (scanWords_head_is_rightmost ruLower 100 demo
           ["красивая"; "кошка"; "в"]).
  vm_compute; reflexivity.
Defined.

(** ** The phrases returned *)

Lemma addUnseen_seen_ok (f : string) (st : gset string * list string) :
  seen_ok st -> seen_ok (addUnseen f st).
Proof.
  intros [Hnd Hseen]. unfold addUnseen.
  destruct (decide (f ∈ st.1)) as [Hin | Hnin]; [now split |].
  split; cbn [fst snd].
  - apply NoDup_app. split; [assumption |].
    split; [| apply NoDup_singleton].
    intros x Hx Hxf. apply list_elem_of_singleton in Hxf as ->.
    apply Hnin. now apply Hseen.
  - intros x. rewrite elem_of_union, elem_of_singleton, elem_of_app,
      list_elem_of_singleton, Hseen. tauto.
Qed.

Lemma addUnseen_elem (f x : string) (st : gset string * list string) :
  x ∈ (addUnseen f st).2 -> x ∈ st.2 \/ x = f.
Proof.
  unfold addUnseen. destruct (decide (f ∈ st.1)); [now left |].
  cbn [snd]. rewrite elem_of_app, list_elem_of_singleton. tauto.
Qed.

Lemma foldl_addUnseen_seen_ok (forms : list string) :
  forall st, seen_ok st -> seen_ok (foldl (fun s f => addUnseen f s) st forms).
Proof.
  induction forms as [| f forms IH]; intros st Hst; [assumption |].
  cbn [foldl]. apply IH. now apply addUnseen_seen_ok.
Qed.

Lemma foldl_addUnseen_elem (forms : list string) (x : string) :
  forall st,
    x ∈ (foldl (fun s f => addUnseen f s) st forms).2 ->
    x ∈ st.2 \/ x ∈ forms.
Proof.
  induction forms as [| f forms IH]; intros st Hx; [now left |].
  cbn [foldl] in Hx. destruct (IH _ Hx) as [Hx' | Hx'].
  - destruct (addUnseen_elem _ _ _ Hx') as [? | ->]; [now left |].
    right. left.
  - right. now right.
Qed.

Lemma casesLoop_seen_ok (fuel : nat) (a : Analyzer) (head : wordInfo)
    (ws : list string) (infos : list wordInfo) (number : string)
    (cases : list string) :
  forall st st',
    casesLoop fuel a head ws infos number cases st = Val st' ->
    seen_ok st -> seen_ok st'.
Proof.
  induction cases as [| cas cases IH]; intros st st' H Hst;
    cbn [casesLoop] in H.
  - now injection H as <-.
  - destruct (declinePhrase fuel a head cas number ws infos)
      as [declined | |]; cbn [rbind] in H; try discriminate.
    apply (IH _ _ H). now apply addUnseen_seen_ok.
Qed.

Lemma casesLoop_elem (fuel : nat) (a : Analyzer) (head : wordInfo)
    (ws : list string) (infos : list wordInfo) (number : string)
    (cases : list string) (x : string) :
  forall st st',
    casesLoop fuel a head ws infos number cases st = Val st' ->
    x ∈ st'.2 ->
    x ∈ st.2 \/
    exists cas declined,
      cas ∈ cases /\
      declinePhrase fuel a head cas number ws infos = Val declined /\
      x = Join declined.
Proof.
  induction cases as [| cas cases IH]; intros st st' H Hx;
    cbn [casesLoop] in H.
  - injection H as <-. now left.
  - destruct (declinePhrase fuel a head cas number ws infos)
      as [declined | |] eqn:Hd; cbn [rbind] in H; try discriminate.
    destruct (IH _ _ H Hx) as [Hx' | (cas' & declined' & Hc & Hrest)].
    + destruct (addUnseen_elem _ _ _ Hx') as [? | ->]; [now left |].
      right. exists cas, declined. split; [left |]. now split.
    + right. exists cas', declined'. split; [now right | assumption].
Qed.

Lemma numbersLoop_seen_ok (fuel : nat) (a : Analyzer) (head : wordInfo)
    (ws : list string) (infos : list wordInfo)
    (numbers cases : list string) :
  forall st st',
    numbersLoop fuel a head ws infos numbers cases st = Val st' ->
    seen_ok st -> seen_ok st'.
Proof.
  induction numbers as [| number numbers IH]; intros st st' H Hst;
    cbn [numbersLoop] in H.
  - now injection H as <-.
  - destruct (casesLoop fuel a head ws infos number cases st)
      as [st1 | |] eqn:E; cbn [rbind] in H; try discriminate.
    apply (IH _ _ H). now apply (casesLoop_seen_ok _ _ _ _ _ _ _ _ _ E).
Qed.

Lemma numbersLoop_elem (fuel : nat) (a : Analyzer) (head : wordInfo)
    (ws : list string) (infos : list wordInfo)
    (numbers cases : list string) (x : string) :
  forall st st',
    numbersLoop fuel a head ws infos numbers cases st = Val st' ->
    x ∈ st'.2 ->
    x ∈ st.2 \/
    exists cas number declined,
      cas ∈ cases /\ number ∈ numbers /\
      declinePhrase fuel a head cas number ws infos = Val declined /\
      x = Join declined.
Proof.
  induction numbers as [| number numbers IH]; intros st st' H Hx;
    cbn [numbersLoop] in H.
  - injection H as <-. now left.
  - destruct (casesLoop fuel a head ws infos number cases st)
      as [st1 | |] eqn:E; cbn [rbind] in H; try discriminate.
    destruct (IH _ _ H Hx)
      as [Hx' | (cas' & number' & declined' & Hc & Hn & Hrest)].
    + destruct (casesLoop_elem _ _ _ _ _ _ _ _ _ _ E Hx')
        as [? | (cas & declined & Hc & Hd & ->)]; [now left |].
      right. exists cas, number, declined.
      split; [assumption |]. split; [left |]. now split.
    + right. exists cas', number', declined'.
      split; [assumption |]. split; [now right | assumption].
Qed.

Lemma flattenForms_seen_ok (lower : Z -> Z) (fuel : nat) (a : Analyzer)
    (ws : list string) :
  forall st st',
    flattenForms lower fuel a ws st = Val st' -> seen_ok st -> seen_ok st'.
Proof.
  induction ws as [| w ws IH]; intros st st' H Hst; cbn [flattenForms] in H.
  - now injection H as <-.
  - destruct (isServiceWord w); [now apply (IH _ _ H) |].
    destruct (WordForms lower fuel a w) as [forms | |]; cbn [rbind] in H;
      try discriminate.
    apply (IH _ _ H). now apply foldl_addUnseen_seen_ok.
Qed.

Lemma flattenForms_elem (lower : Z -> Z) (fuel : nat) (a : Analyzer)
    (ws : list string) (x : string) :
  forall st st',
    flattenForms lower fuel a ws st = Val st' ->
    x ∈ st'.2 ->
    x ∈ st.2 \/
    exists w forms,
      w ∈ ws /\ isServiceWord w = false /\
      WordForms lower fuel a w = Val forms /\ x ∈ forms.
Proof.
  induction ws as [| w ws IH]; intros st st' H Hx; cbn [flattenForms] in H.
  - injection H as <-. now left.
  - destruct (isServiceWord w) eqn:Hsv.
    + destruct (IH _ _ H Hx) as [? | (w' & forms & Hw' & Hrest)];
        [now left |].
      right. exists w', forms. split; [now right | assumption].
    + destruct (WordForms lower fuel a w) as [forms | |] eqn:Hf;
        cbn [rbind] in H; try discriminate.
      destruct (IH _ _ H Hx) as [Hx' | (w' & forms' & Hw' & Hrest)].
      * destruct (foldl_addUnseen_elem _ _ _ Hx') as [? | Hin];
          [now left |].
        right. exists w, forms. split; [left |]. repeat split; assumption.
      * right. exists w', forms'. split; [now right | assumption].
Qed.

Lemma declineWord_declinedAs (fuel : nat) (a : Analyzer) (head : wordInfo)
    (cas number w : string) (info : wordInfo) (d : string) :
  declineWord fuel a head cas number w info = Val d ->
  declinedAs fuel a cas number (gender head) (animacy head) w d.
Proof.
  unfold declineWord, declinedAs. intros H.
  destruct (isServiceWord w) eqn:Hsv; [injection H as <-; now left |].
  destruct (isNounPOS (pos info)); [right; split; [reflexivity | now left] |].
  destruct (isAdjPOS (pos info)); [| injection H as <-; now left].
  right. split; [reflexivity | now right].
Qed.

Lemma declinePhrase_declinedAs (fuel : nat) (a : Analyzer)
    (head : wordInfo) (cas number : string) (ws : list string) :
  forall infos declined,
    length infos = length ws ->
    declinePhrase fuel a head cas number ws infos = Val declined ->
    Forall2 (declinedAs fuel a cas number (gender head) (animacy head))
            ws declined.
Proof.
  induction ws as [| w ws IH]; intros [| info infos] declined Hlen H;
    try discriminate; cbn [declinePhrase] in H.
  - injection H as <-. constructor.
  - destruct (declineWord fuel a head cas number w info) as [d | |] eqn:Hd;
      cbn [rbind] in H; try discriminate.
    destruct (declinePhrase fuel a head cas number ws infos)
      as [ds | |] eqn:Hds; cbn [rbind] in H; try discriminate.
    injection H as <-. constructor.
    + now apply declineWord_declinedAs in Hd.
    + apply (IH infos); [simpl in Hlen; lia | assumption].
Qed.

(** Every info of the scan is the empty one or the one read off the tag
    of its token. *)
Lemma scanWords_infos (lower : Z -> Z) (fuel : nat) (a : Analyzer)
    (ws : list string) :
  forall i h0 infos h,
    scanWords lower fuel a ws i h0 = Val (infos, h) ->
    forall k info,
      infos !! k = Some info ->
      info = noInfo \/
      exists w tag,
        ws !! k = Some w /\ Tag lower fuel a w = Val tag /\
        info = {| pos := tagPOS tag;
                  animacy := tagGrammeme tag ["anim"; "inan"];
                  gender := tagGrammeme tag ["masc"; "femn"; "neut"] |}.
Proof.
  induction ws as [| w ws IH]; intros i h0 infos h H k info Hk.
  - injection H as <- <-. inversion Hk.
  - cbn [scanWords] in H.
    destruct (isServiceWord w).
    { destruct (scanWords lower fuel a ws (i + 1) h0) as [[infos' h'] | |]
        eqn:E; cbn [rbind] in H; try discriminate.
      injection H as <- <-. destruct k as [| k].
      - injection Hk as <-. now left.
      - exact (IH _ _ _ _ E k info Hk). }
    destruct (Tag lower fuel a w) as [tag | |] eqn:Htag; cbn [rbind] in H;
      try discriminate.
    destruct (String.eqb tag "").
    { destruct (scanWords lower fuel a ws (i + 1) h0) as [[infos' h'] | |]
        eqn:E; cbn [rbind] in H; try discriminate.
      injection H as <- <-. destruct k as [| k].
      - injection Hk as <-. now left.
      - exact (IH _ _ _ _ E k info Hk). }
    destruct (scanWords lower fuel a ws (i + 1)
                (if isNounPOS (tagPOS tag) then i else h0))
      as [[infos' h'] | |] eqn:E; cbn [rbind] in H; try discriminate.
    injection H as <- <-. destruct k as [| k].
    + injection Hk as <-. right. exists w, tag.
      split; [reflexivity |]. split; [assumption | reflexivity].
    + exact (IH _ _ _ _ E k info Hk).
Qed.

(** The two ways through [PhraseFormsConcordant] for a phrase of two
    tokens or more. *)
Lemma PhraseFormsConcordant_multi (lower : Z -> Z) (fuel : nat)
    (a : Analyzer) (p : string) (res : list string) :
  (2 <= length (Fields (ToLower lower (TrimSpace p))))%nat ->
  PhraseFormsConcordant lower fuel a p = Val res ->
  exists infos h st',
    scanWords lower fuel a (Fields (ToLower lower (TrimSpace p))) 0 (-1)
      = Val (infos, h) /\
    res = st'.2 /\
    ((h = -1 /\
      flattenForms lower fuel a (Fields (ToLower lower (TrimSpace p)))
        ({[ToLower lower (TrimSpace p)]}, [ToLower lower (TrimSpace p)])
        = Val st') \/
     (h <> -1 /\
      exists head,
        index infos h = Val head /\
        numbersLoop fuel a head (Fields (ToLower lower (TrimSpace p))) infos
          ["sing"; "plur"]
          ["nomn"; "gent"; "datv"; "accs"; "ablt"; "loct"]
          ({[ToLower lower (TrimSpace p)]}, [ToLower lower (TrimSpace p)])
          = Val st')).
Proof.
  intros Hlen H. unfold PhraseFormsConcordant in H.
  set (phrase := ToLower lower (TrimSpace p)) in *.
  destruct (Fields phrase) as [| w1 [| w2 ws]] eqn:Hws;
    [simpl in Hlen; lia | simpl in Hlen; lia |].
  destruct (scanWords lower fuel a (w1 :: w2 :: ws) 0 (-1))
    as [[infos h] | |]; try discriminate.
  cbn [rbind] in H.
  destruct (Z.eqb_spec h (-1)) as [Hh | Hh].
  - destruct (flattenForms lower fuel a (w1 :: w2 :: ws)
                ({[phrase]}, [phrase])) as [st' | |] eqn:E;
      try discriminate.
    cbn [rbind] in H. injection H as <-.
    exists infos, h, st'. split; [reflexivity |]. split; [reflexivity |].
    left. split; [assumption | reflexivity].
  - destruct (index infos h) as [head | |] eqn:Ei; try discriminate.
    cbn [rbind] in H.
    destruct (numbersLoop fuel a head (w1 :: w2 :: ws) infos
                ["sing"; "plur"]
                ["nomn"; "gent"; "datv"; "accs"; "ablt"; "loct"]
                ({[phrase]}, [phrase])) as [st' | |] eqn:En;
      try discriminate.
    cbn [rbind] in H. injection H as <-.
    exists infos, h, st'. split; [reflexivity |]. split; [reflexivity |].
    right. split; [assumption |]. exists head.
    split; [exact Ei | exact En].
Qed.

Lemma seen_ok_start (phrase : string) :
  seen_ok ({[phrase]} : gset string, [phrase]).
Proof.
  split; cbn [fst snd]; [apply NoDup_singleton |].
  intros x. now rewrite elem_of_singleton, list_elem_of_singleton.
Qed.

(** [PhraseFormsConcordant] returns no phrase twice, whatever the phrase
    and the dictionary. *)
Theorem PhraseFormsConcordant_NoDup (lower : Z -> Z) (fuel : nat)
    (a : Analyzer) (p : string) (res : list string) :
  PhraseFormsConcordant lower fuel a p = Val res -> NoDup res.
Proof.
  intros H.
  destruct (Fields (ToLower lower (TrimSpace p))) as [| w1 [| w2 ws]] eqn:Hws.
  - unfold PhraseFormsConcordant in H. rewrite Hws in H.
    injection H as <-. constructor.
  - unfold PhraseFormsConcordant in H. rewrite Hws in H.
    destruct (WordForms lower fuel a w1) as [[| f forms] | |] eqn:Hf;
      cbn [rbind] in H; try discriminate; injection H as <-.
    + apply NoDup_singleton.
    + now apply WordForms_NoDup in Hf.
  - destruct (PhraseFormsConcordant_multi lower fuel a p res)
      as (infos & h & st' & _ & -> & [[_ Hflat] | (_ & head & _ & Hnum)]);
      [rewrite Hws; simpl; lia | assumption | |].
    + apply (flattenForms_seen_ok _ _ _ _ _ _ Hflat), seen_ok_start.
    + apply (numbersLoop_seen_ok _ _ _ _ _ _ _ _ _ Hnum), seen_ok_start.
Qed.

Lemma PhraseFormsConcordant_NoDup_witness :
  NoDup ["красивая кошка"; "красивой кошки"; "красивой кошке";
         "красивую кошку"; "красивой кошкой"; "красивые кошки";
         "красивых кошек"; "красивым кошкам"; "красивые кошек";
         "красивыми кошками"; "красивых кошках"].
Proof.
  apply (PhraseFormsConcordant_NoDup ruLower 100 demo " Красивая кошка ").
  vm_compute; reflexivity.
Defined.

(** [PhraseFormsConcordant] returns the empty list for a phrase without
    tokens and for no other: a phrase with a token always has at least
    one element in its result. *)
Theorem PhraseFormsConcordant_empty_iff_no_token (lower : Z -> Z)
    (fuel : nat) (a : Analyzer) (p : string) (res : list string) :
  PhraseFormsConcordant lower fuel a p = Val res ->
  (res = [] <-> Fields (ToLower lower (TrimSpace p)) = []).
Proof.
  intros H.
  destruct (Fields (ToLower lower (TrimSpace p))) as [| w1 [| w2 ws]] eqn:Hws.
  - unfold PhraseFormsConcordant in H. rewrite Hws in H.
    injection H as <-. tauto.
  - unfold PhraseFormsConcordant in H. rewrite Hws in H.
    destruct (WordForms lower fuel a w1) as [[| f forms] | |];
      cbn [rbind] in H; try discriminate; injection H as <-;
      split; discriminate.
  - destruct (PhraseFormsConcordant_multi lower fuel a p res)
      as (infos & h & st' & _ & -> & [[_ Hflat] | (_ & head & _ & Hnum)]);
      [rewrite Hws; simpl; lia | assumption | |].
    + destruct (flattenForms_extends _ _ _ _ _ _ Hflat) as (rest & ->).
      split; discriminate.
    + destruct (numbersLoop_extends _ _ _ _ _ _ _ _ _ Hnum)
        as (rest & -> & _).
      split; discriminate.
Qed.

Lemma PhraseFormsConcordant_empty_iff_no_token_witness :
  ["стол"] = [] <-> Fields (ToLower ruLower (TrimSpace " Стол")) = [].
Proof.
  apply (PhraseFormsConcordant_empty_iff_no_token ruLower 100 demo " Стол").
  vm_compute; reflexivity.
Defined.

(** Where the elements of a result come from, for a phrase of two tokens
    or more. When a token can be the head, every element is the phrase
    itself or the phrase declined for one of the six cases and one of the
    two numbers: one token for every token of the phrase, in the same
    order, joined by single spaces, each the token unchanged (always so
    for a service word), or what [inflect] returns on it for that case
    and number, or what [inflectAdj] returns on it for that case and
    number and for the gender and the animacy read off the tag of a head
    token. When no token can be the head, every element is the phrase
    itself or a form that [WordForms] returns for one of its tokens that
    is not a service word. *)
Theorem PhraseFormsConcordant_elements (lower : Z -> Z) (fuel : nat)
    (a : Analyzer) (p : string) (res : list string) :
  (2 <= length (Fields (ToLower lower (TrimSpace p))))%nat ->
  PhraseFormsConcordant lower fuel a p = Val res ->
  forall x, x ∈ res ->
    x = ToLower lower (TrimSpace p) \/
    (exists w tag cas number declined,
       w ∈ Fields (ToLower lower (TrimSpace p)) /\
       isHead lower fuel a w /\
       Tag lower fuel a w = Val tag /\
       cas ∈ ["nomn"; "gent"; "datv"; "accs"; "ablt"; "loct"] /\
       number ∈ ["sing"; "plur"] /\
       x = Join declined /\
       Forall2 (declinedAs fuel a cas number
                  (tagGrammeme tag ["masc"; "femn"; "neut"])
                  (tagGrammeme tag ["anim"; "inan"]))
               (Fields (ToLower lower (TrimSpace p))) declined) \/
    ((forall w, w ∈ Fields (ToLower lower (TrimSpace p)) ->
                ~ isHead lower fuel a w) /\
     exists w forms,
       w ∈ Fields (ToLower lower (TrimSpace p)) /\
       isServiceWord w = false /\
       WordForms lower fuel a w = Val forms /\ x ∈ forms).
Proof.
  intros Hlen H x Hx.
  destruct (PhraseFormsConcordant_multi lower fuel a p res Hlen H)
    as (infos & h & st' & Hscan & -> &
        [[Hh Hflat] | (Hh & head & Hhd & Hnum)]);
    destruct (scanWords_spec _ _ _ _ _ _ _ _ Hscan) as [Hl Hhead].
  - destruct (flattenForms_elem _ _ _ _ _ _ _ Hflat Hx) as [Hx' | Hx'].
    + left. now apply list_elem_of_singleton in Hx'.
    + right. right. split; [| assumption].
      destruct Hhead as [[_ Hno] | [Hle _]]; [assumption | lia].
  - destruct (numbersLoop_elem _ _ _ _ _ _ _ _ _ _ Hnum Hx)
      as [Hx' | (cas & number & declined & Hc & Hn & Hd & ->)].
    + left. now apply list_elem_of_singleton in Hx'.
    + right. left.
      destruct Hhead
        as [[Heq _] | (Hle & w & info & Hw & Hi & Hw' & Hnoun & _)];
        [contradiction |].
      rewrite Z.sub_0_r in Hw, Hi.
      apply index_Val in Hhd as [_ Hhd].
      rewrite Hi in Hhd. injection Hhd as ->.
      destruct (scanWords_infos _ _ _ _ _ _ _ _ Hscan _ _ Hi)
        as [-> | (w2 & tag & Hw2 & Htag & Hinfo)]; [discriminate |].
      rewrite Hw in Hw2. injection Hw2 as <-.
      exists w, tag, cas, number, declined.
      split; [now apply list_elem_of_lookup_2 in Hw |].
      do 4 (split; [assumption |]). split; [reflexivity |].
      pose proof (declinePhrase_declinedAs _ _ _ _ _ _ _ _ Hl Hd) as HF.
      now rewrite Hinfo in HF.
Qed.

Lemma PhraseFormsConcordant_elements_witness :
  "красивую кошку" = ToLower ruLower (TrimSpace " Красивая кошка ") \/
  (exists w tag cas number declined,
     w ∈ Fields (ToLower ruLower (TrimSpace " Красивая кошка ")) /\
     isHead ruLower 100 demo w /\
     Tag ruLower 100 demo w = Val tag /\
     cas ∈ ["nomn"; "gent"; "datv"; "accs"; "ablt"; "loct"] /\
     number ∈ ["sing"; "plur"] /\
     "красивую кошку" = Join declined /\
     Forall2 (declinedAs 100 demo cas number
                (tagGrammeme tag ["masc"; "femn"; "neut"])
                (tagGrammeme tag ["anim"; "inan"]))
             (Fields (ToLower ruLower (TrimSpace " Красивая кошка ")))
             declined) \/
  ((forall w, w ∈ Fields (ToLower ruLower (TrimSpace " Красивая кошка ")) ->
              ~ isHead ruLower 100 demo w) /\
   exists w forms,
     w ∈ Fields (ToLower ruLower (TrimSpace " Красивая кошка ")) /\
     isServiceWord w = false /\
     WordForms ruLower 100 demo w = Val forms /\ "красивую кошку" ∈ forms).
Proof.
  apply (PhraseFormsConcordant_elements ruLower 100 demo " Красивая кошка "
           ["красивая кошка"; "красивой кошки"; "красивой кошке";
            "красивую кошку"; "красивой кошкой"; "красивые кошки";
            "красивых кошек"; "красивым кошкам"; "красивые кошек";
            "красивыми кошками"; "красивых кошках"]).
  - assert (E : Fields (ToLower ruLower (TrimSpace " Красивая кошка "))
                = ["красивая"; "кошка"]) by (vm_compute; reflexivity).
    rewrite E. simpl. lia.
  - vm_compute; reflexivity.
  - do 3 right. left.
Defined.

Lemma PhraseFormsConcordant_multi_token_first_witness :
  exists rest,
    ["красивая кошка"; "красивой кошки"; "красивой кошке";
     "красивую кошку"; "красивой кошкой"; "красивые кошки";
     "красивых кошек"; "красивым кошкам"; "красивые кошек";
     "красивыми кошками"; "красивых кошках"]
    = ToLower ruLower (TrimSpace " Красивая кошка ") :: rest.
Proof.
  apply (PhraseFormsConcordant_multi_token_first ruLower 100 demo
           " Красивая кошка ").
  - assert (E : Fields (ToLower ruLower (TrimSpace " Красивая кошка "))
                = ["красивая"; "кошка"]) by (vm_compute; reflexivity).
    rewrite E. simpl. lia.
  - vm_compute; reflexivity.
Defined.

(** ** Matching a tag *)

Lemma Contains_empty (s : string) : Contains s "" = true.
Proof. destruct s; reflexivity. Qed.

Lemma wildcard_or_Contains (tag g : string) :
  String.eqb g "" || Contains tag g = Contains tag g.
Proof.
  destruct (String.eqb_spec g "") as [-> | _]; [| reflexivity].
  now rewrite Contains_empty.
Qed.

(** [tagMatches] is a test for substrings, not for whole grammemes: it
    holds exactly when each of the four strings occurs somewhere in the
    tag. The empty string occurs in every tag, so that an empty argument
    asks for nothing. *)
Theorem tagMatches_is_substring_test (tag cas number gender animacy : string) :
  tagMatches tag cas number gender animacy = true <->
  Forall (fun g => exists before after, tag = before +:+ g +:+ after)
         [cas; number; gender; animacy].
Proof.
  unfold tagMatches. rewrite !wildcard_or_Contains, !andb_true_iff.
  rewrite !Forall_cons, Forall_nil, <- !Contains_spec. tauto.
Qed.

(** ** The fields of a unit *)

Lemma land_isLeafBit (u : Z) :
  Z.land u isLeafBit = if Z.testbit u 31 then 2 ^ 31 else 0.
Proof.
  apply Z.bits_inj'. intros n Hn.
  rewrite Z.land_spec. unfold isLeafBit.
  rewrite Z.shiftl_1_l, Z.pow2_bits_eqb by lia.
  destruct (Z.eqb_spec 31 n) as [<- | Hne].
  - rewrite andb_true_r. destruct (Z.testbit u 31); reflexivity.
  - rewrite andb_false_r.
    destruct (Z.testbit u 31); [| now rewrite Z.bits_0].
    rewrite Z.pow2_bits_eqb by lia.
    symmetry. now apply Z.eqb_neq.
Qed.

(** The fields of a 32-bit unit, in arithmetic: the value is the unit
    without bit 31, the label is the low byte together with bit 31, the
    leaf flag is bit 8, and the offset is the 22 bits from bit 10 up,
    times 256 when bit 9 is set. The offset stays below [2^30]: the shift
    never pushes a bit out of the 32, and the mask that follows it
    removes nothing. *)
Theorem unit_fields (u : Z) :
  0 <= u < 2 ^ 32 ->
  unitValue u = u mod 2 ^ 31 /\
  unitLabel u = u mod 2 ^ 8 + (if Z.testbit u 31 then 2 ^ 31 else 0) /\
  unitHasLeaf u = Z.testbit u 8 /\
  unitOffset u = u / 2 ^ 10 * (if Z.testbit u 9 then 2 ^ 8 else 1) /\
  0 <= unitOffset u < 2 ^ 30.
Proof.
  intros Hu.
  assert (Hq : 0 <= u / 2 ^ 10 < 2 ^ 22).
  { split; [apply Z.div_pos; lia |].
    apply Z.div_lt_upper_bound; lia. }
  assert (Hoff : unitOffset u
                 = u / 2 ^ 10 * (if Z.testbit u 9 then 2 ^ 8 else 1)).
  { rewrite unitOffset_by_byte, offset_by_byte_cases.
    change 0xFFFFFFFF with (Z.ones 32).
    rewrite !Z.land_ones by lia.
    rewrite Z.shiftl_mul_pow2, Z.shiftr_div_pow2 by lia.
    destruct (Z.testbit u 9); [| rewrite Z.mul_1_r]; apply Z.mod_small; lia. }
  split.
  { unfold unitValue.
    change (Z.lxor isLeafBit precisionMask) with (Z.ones 31).
    apply Z.land_ones. lia. }
  split.
  { unfold unitLabel. rewrite Z.land_lor_distr_r, land_isLeafBit.
    change 0xFF with (Z.ones 8). rewrite Z.land_ones by lia.
    pose proof (Z.mod_pos_bound u (2 ^ 8) ltac:(lia)) as Hm.
    destruct (Z.testbit u 31).
    - rewrite Z.add_comm. symmetry. apply Z.add_nocarry_lor.
      apply Z.bits_inj'. intros n Hn.
      rewrite Z.land_spec, Z.bits_0, Z.pow2_bits_eqb by lia.
      destruct (Z.eqb_spec 31 n) as [<- | _]; [| reflexivity].
      rewrite andb_true_l. apply Z.mod_pow2_bits_high. lia.
    - now rewrite Z.lor_0_l, Z.add_0_r. }
  split.
  { unfold unitHasLeaf, hasLeafBit.
    assert (Hl : Z.land u (Z.shiftl 1 8)
                 = if Z.testbit u 8 then 2 ^ 8 else 0).
    { apply Z.bits_inj'. intros n Hn.
      rewrite Z.land_spec, Z.shiftl_1_l, Z.pow2_bits_eqb by lia.
      destruct (Z.eqb_spec 8 n) as [<- | Hne].
      - rewrite andb_true_r. destruct (Z.testbit u 8); reflexivity.
      - rewrite andb_false_r.
        destruct (Z.testbit u 8); [| now rewrite Z.bits_0].
        rewrite Z.pow2_bits_eqb by lia.
        symmetry. now apply Z.eqb_neq. }
    rewrite Hl. destruct (Z.testbit u 8); reflexivity. }
  split; [assumption |].
  rewrite Hoff. destruct (Z.testbit u 9); lia.
Qed.

Lemma unit_fields_witness :
  unitValue 0x80000B41 = 0x80000B41 mod 2 ^ 31 /\
  unitLabel 0x80000B41
    = 0x80000B41 mod 2 ^ 8 + (if Z.testbit 0x80000B41 31 then 2 ^ 31 else 0) /\
  unitHasLeaf 0x80000B41 = Z.testbit 0x80000B41 8 /\
  unitOffset 0x80000B41
    = 0x80000B41 / 2 ^ 10 * (if Z.testbit 0x80000B41 9 then 2 ^ 8 else 1) /\
  0 <= unitOffset 0x80000B41 < 2 ^ 30.
Proof.
  apply (unit_fields 0x80000B41). lia.
Defined.

Lemma extractStem_fails_only_on_affixes_witness :
  exists sid suffix pid prefix,
    index demoNoun 0 = Val sid /\
    index (suffixes demo) sid = Val suffix /\
    index demoNoun (2 * 12 + 0) = Val pid /\
    index paradigmPrefixes pid = Val prefix /\
    (HasPrefix "дом" prefix = false \/ HasSuffix "дом" suffix = false).
Proof.
  apply (proj1 (extractStem_fails_only_on_affixes demo "дом" demoNoun 12 0)).
  vm_compute; reflexivity.
Defined.
